(** * django_qbe.utils: relationship graph, connecting trees and join paths

    A shallow embedding of the graph core of [django_qbe/utils.py]
    ([qbe_graph], [qbe_tree], [remove_leafs], [qbe_forest],
    [find_all_paths], [autocomplete_graph]) and the properties the
    specification states about it.

    Python dictionaries are finite maps ([gmap]) keyed by strings, Python
    sets are [gset], Python lists are lists.  Exceptions are carried by a
    small error monad; loops whose number of rounds is not syntactically
    bounded take a fuel argument and report [OutOfFuel], an outcome proved
    unreachable once the fuel covers the size of the input. *)

From stdpp Require Import gmap strings list fin_maps sorting.
From Stdlib Require Import ZArith.

Set Default Proof Using "Type".

(** ** Outcomes of a Python call *)

Inductive exn : Type :=
  | KeyError (key : string)      (* d[k] with k absent *)
  | ValueError                   (* random.randint on an empty range, list.remove(x) with x absent *)
  | IndexError                   (* pop from an empty deque *)
  | AttributeError.              (* .items() on a list *)

Inductive result (A : Type) : Type :=
  | Ok (a : A)
  | Raise (e : exn)
  | OutOfFuel.
Arguments Ok {A} a.
Arguments Raise {A} e.
Arguments OutOfFuel {A}.

#[global] Instance result_bind : MBind result := λ A B k r,
  match r with
  | Ok a => k a
  | Raise e => Raise e
  | OutOfFuel => OutOfFuel
  end.

#[global] Instance result_ret : MRet result := λ A a, Ok a.

#[global] Instance exn_eq_dec : EqDecision exn.
Proof. solve_decision. Defined.

(** ** Schema metadata, as produced by [qbe_models] *)

(** [target['through']]: the intermediate model of a many-to-many field. *)
Record Through := {
  through_name : string;
  through_model : string;
  through_field : string;
}.

(** [get_target(field)]. *)
Record Target := {
  target_name : string;
  target_model : string;
  target_field : string;
  target_through : option Through;   (* the key "through" may be absent *)
}.

(** [get_target_relation(field)]: one entry of [model['relations']]. *)
Record Relation := {
  relation_target : Target;
  relation_type : string;
  relation_source : string;
  relation_arrows : string;
}.

(** One entry of [graphs[app_title]]; [fields] keeps the field names. *)
Record Model := {
  model_name : string;
  model_fields : list string;
  model_relations : list Relation;
  model_collapse : bool;
}.

(** [qbe_models(admin_site)]: app title -> model name -> model. *)
Abbreviation Models := (gmap string (gmap string Model)).

(** ** Graphs and trees *)

(** An edge [(local_field, neighbor, neighbor_field)]. *)
Definition Edge : Type := string * string * string.

Definition edge_field (e : Edge) : string := e.1.1.
Definition edge_node (e : Edge) : string := e.1.2.
Definition edge_far_field (e : Edge) : string := e.2.

(** The graph built by [qbe_graph], and the tree built by [qbe_tree]:
    node -> list of edges. *)
Abbreviation Graph := (gmap string (list Edge)).
Abbreviation Tree := (gmap string (list Edge)).

(** [graph[key]] for a key known to be present; the empty list stands in
    for the absent case, which the callers below rule out beforehand. *)
Definition edges_of (g : Graph) (key : string) : list Edge :=
  default [] (g !! key).

(** ["%s.%s" % (a, b)] *)
Definition dotted (a b : string) : string := a +:+ "." +:+ b.

(** [if key not in graph: graph[key] = []] *)
Definition ensure_key (key : string) (g : Graph) : Graph :=
  match g !! key with
  | Some _ => g
  | None => <[key := []]> g
  end.

(** [if value not in graph[key]: graph[key].append(value)] *)
Definition append_new (key : string) (value : Edge) (g : Graph) : Graph :=
  if decide (value ∈ edges_of g key) then g
  else <[key := edges_of g key ++ [value]]> g.

(** The [model] variable of [qbe_graph]: the through model when the target
    has one, the target model otherwise. *)
Definition relation_model (r : Relation) : string :=
  let target := relation_target r in
  match target_through target with
  | Some through => dotted (through_name through) (through_model through)
  | None => dotted (target_name target) (target_model target)
  end.

(** The [value] variable of [qbe_graph]. *)
Definition relation_value (r : Relation) : Edge :=
  let target := relation_target r in
  match target_through target with
  | Some through =>
      (relation_source r,
       dotted (through_name through) (through_model through),
       through_field through)
  | None =>
      (relation_source r,
       dotted (target_name target) (target_model target),
       target_field target)
  end.

(** The [target_value] variable of [qbe_graph]: it is built from
    [target['field']] in both branches. *)
Definition relation_target_value (key : string) (r : Relation) : Edge :=
  (target_field (relation_target r), key, relation_source r).

(** Body of [for relation in w['relations']]. *)
Definition add_relation_edges (directed : bool) (key : string)
    (g : Graph) (r : Relation) : Graph :=
  let model := relation_model r in
  let g := append_new key (relation_value r) g in
  if directed then g
  else append_new model (relation_target_value key r) (ensure_key model g).

(** [if not graph[key]: del graph[key]] *)
Definition drop_if_empty (key : string) (g : Graph) : Graph :=
  match edges_of g key with
  | [] => delete key g
  | _ :: _ => g
  end.

(** Body of [for l, w in v.items()]. *)
Definition add_model (directed : bool) (k : string)
    (g : Graph) (lw : string * Model) : Graph :=
  let key := dotted k lw.1 in
  let g := ensure_key key g in
  let g := foldl (add_relation_edges directed key) g (model_relations lw.2) in
  drop_if_empty key g.

(** Body of [for k, v in models.items()]. *)
Definition add_app (directed : bool)
    (g : Graph) (kv : string * gmap string Model) : Graph :=
  foldl (add_model directed kv.1) g (map_to_list kv.2).

(** [qbe_graph], from the result [models] of [qbe_models(admin_site)]. *)
Definition qbe_graph (models : Models) (directed : bool) : Graph :=
  foldl (add_app directed) ∅ (map_to_list models).

(** ** Python list and truth-value helpers *)

(** [l.remove(x)] on a list that holds [x]: the first occurrence goes. *)
Fixpoint remove_first {A} `{EqDecision A} (x : A) (l : list A) : list A :=
  match l with
  | [] => []
  | y :: l' => if decide (x = y) then l' else y :: remove_first x l'
  end.

(** Truth value of a string: the empty string is false. *)
Definition truthy (s : string) : bool := bool_decide (s ≠ "").

(** [sorted(l, cmp=lambda x, y: cmp(len(x), len(y)))] for a length measure
    [len]: a stable sort, an element goes in front of the first one that is
    not shorter. *)
Section sorted_by_len.
Context {A : Type} (len : A → nat).

Fixpoint insert_by_len (x : A) (l : list A) : list A :=
  match l with
  | [] => [x]
  | y :: l' =>
      if decide (len x ≤ len y) then x :: y :: l'
      else y :: insert_by_len x l'
  end.

Definition sorted_by_len (l : list A) : list A :=
  foldr insert_by_len [] l.
End sorted_by_len.

(** ** The tree extractor: [qbe_tree] and [remove_leafs] *)

(** An entry [(parent, parent_edge, neighbor, neighbor_field)] of
    [to_visit]; the first entry carries [None] three times. *)
Definition Visit : Type :=
  option string * option string * string * option string.

(** The variables the [while] loop of [qbe_tree] updates.  The deque
    [to_visit] is only used through [append] and [pop], both at its right
    end: the head of the list is that right end. *)
Record tstate := {
  st_to_visit : list Visit;
  st_nodes : list string;
  st_visited : gset string;
  st_tree : Tree;
}.

(** [while len(to_visit) != 0 and nodes] *)
Definition qbe_tree_cond (st : tstate) : bool :=
  negb (length (st_to_visit st) =? 0) && negb (length (st_nodes st) =? 0).

(** The "Preorder process" block, entered when all four of
    [parent, parent_edge, v, v_edge] are true. *)
Definition record_edge (parent parent_edge v v_edge : string)
    (tree : Tree) : Tree :=
  let tree := ensure_key parent tree in
  let tree := append_new parent (parent_edge, v, v_edge) tree in
  let tree := ensure_key v tree in
  append_new v (v_edge, parent, parent_edge) tree.

Definition preorder (item : Visit) (tree : Tree) : Tree :=
  match item with
  | (Some parent, Some parent_edge, v, Some v_edge) =>
      if truthy parent && truthy parent_edge && truthy v && truthy v_edge
      then record_edge parent parent_edge v v_edge tree
      else tree
  | _ => tree
  end.

(** The "Iteration" block: one [to_visit.append] per edge of [node]. *)
Definition push_edges (v : string) (node : list Edge)
    (to_visit : list Visit) : list Visit :=
  foldl (λ q e, (Some v, Some (edge_field e), edge_node e,
                 Some (edge_far_field e)) :: q) to_visit node.

(** One round of the [while] loop of [qbe_tree]. *)
Definition qbe_tree_body (graph : Graph) (st : tstate) : result tstate :=
  match st_to_visit st with
  | [] => Raise IndexError
  | item :: to_visit =>
      let v := item.1.2 in
      let nodes :=
        if decide (v ∈ st_nodes st) then remove_first v (st_nodes st)
        else st_nodes st in
      match graph !! v with
      | None => Raise (KeyError v)
      | Some node =>
          if bool_decide (v ∉ st_visited st) && (1 <? length node) then
            Ok {| st_to_visit := push_edges v node to_visit;
                  st_nodes := nodes;
                  st_visited := {[v]} ∪ st_visited st;
                  st_tree := preorder item (st_tree st) |}
          else
            Ok {| st_to_visit := to_visit;
                  st_nodes := nodes;
                  st_visited := st_visited st;
                  st_tree := st_tree st |}
      end
  end.

(** The [while] loop of [qbe_tree]. *)
Fixpoint qbe_tree_loop (fuel : nat) (graph : Graph) (st : tstate)
    : result tstate :=
  if qbe_tree_cond st then
    match fuel with
    | 0 => OutOfFuel
    | S fuel' => st' ← qbe_tree_body graph st; qbe_tree_loop fuel' graph st'
    end
  else Ok st.

(** [get_leafs(tree, nodes)] *)
Definition get_leafs (tree : Tree) (nodes : list string) : list string :=
  (filter (λ ne, length ne.2 < 2 ∧ ne.1 ∉ nodes) (map_to_list tree)).*1.

(** The inner loop of [delete_edge_leafs] on one edge list.  The list is
    changed while a [for] runs over it: the iterator keeps an index, so
    after [remove] took out an element at or before the current position
    the element that followed the current one is passed over.  [current]
    is the list as it stands, [pending] what the iterator has still to
    reach. *)
Fixpoint scan_edges (leaf : string) (current pending : list Edge)
    : list Edge :=
  match pending with
  | [] => current
  | edge :: pending' =>
      if decide (leaf = edge_node edge) then
        match pending' with
        | [] => remove_first edge current
        | _ :: pending'' => scan_edges leaf (remove_first edge current) pending''
        end
      else scan_edges leaf current pending'
  end.

(** [delete_edge_leafs(tree, leaf)]: every edge list is scanned on its own,
    then [del tree[leaf]]. *)
Definition delete_edge_leafs (tree : Tree) (leaf : string) : result Tree :=
  let tree := (λ edges, scan_edges leaf edges edges) <$> tree in
  match tree !! leaf with
  | Some _ => Ok (delete leaf tree)
  | None => Raise (KeyError leaf)
  end.

(** [for node in leafs: if node in tree: delete_edge_leafs(tree, node)] *)
Fixpoint prune_round (tree : Tree) (leafs : list string) : result Tree :=
  match leafs with
  | [] => Ok tree
  | node :: leafs' =>
      match tree !! node with
      | Some _ => tree' ← delete_edge_leafs tree node; prune_round tree' leafs'
      | None => prune_round tree leafs'
      end
  end.

(** [leafs or iterations > len(tree) ^ 2]: [^] is exclusive or. *)
Definition remove_leafs_cond (leafs : list string) (iterations : Z)
    (tree : Tree) : bool :=
  negb (length leafs =? 0)
  || (Z.lxor (Z.of_nat (size tree)) 2 <? iterations)%Z.

(** The [while] loop of [remove_leafs]; [iterations += 0]. *)
Fixpoint remove_leafs_loop (fuel : nat) (tree : Tree) (nodes : list string)
    (leafs : list string) (iterations : Z) : result Tree :=
  if remove_leafs_cond leafs iterations tree then
    match fuel with
    | 0 => OutOfFuel
    | S fuel' =>
        tree' ← prune_round tree leafs;
        remove_leafs_loop fuel' tree' nodes (get_leafs tree' nodes)
          (iterations + 0)%Z
    end
  else Ok tree.

Definition remove_leafs (fuel : nat) (tree : Tree) (nodes : list string)
    : result Tree :=
  remove_leafs_loop fuel tree nodes (get_leafs tree nodes) 0%Z.

(** The choice of [start].  [rnd] is the number [random.randint] draws; on
    an empty [nodes] the range [0 .. -1] is empty and [randint] raises. *)
Definition choose_start (rnd : nat) (nodes : list string)
    (root : option string) : result string :=
  match root with
  | Some r => if truthy r then Ok r else
      match nodes !! (rnd `mod` length nodes) with
      | Some n => Ok n
      | None => Raise ValueError
      end
  | None =>
      match nodes !! (rnd `mod` length nodes) with
      | Some n => Ok n
      | None => Raise ValueError
      end
  end.

Definition qbe_tree_init (nodes : list string) (start : string) : tstate :=
  {| st_to_visit := [(None, None, start, None)];
     st_nodes := nodes;
     st_visited := ∅;
     st_tree := ∅ |}.

(** [qbe_tree(graph, nodes, root)]; [cnodes] is the list as passed in. *)
Definition qbe_tree (fuel rnd : nat) (graph : Graph) (nodes : list string)
    (root : option string) : result (Tree * bool) :=
  start ← choose_start rnd nodes root;
  let cnodes := nodes in
  st ← qbe_tree_loop fuel graph (qbe_tree_init nodes start);
  tree ← remove_leafs fuel (st_tree st) cnodes;
  Ok (tree, bool_decide (length (st_nodes st) = 0)).

(** ** The forest assembler: [qbe_forest] *)

(** Body of [for node, edges in graph.items()]; [rnd node] is the number
    drawn, if any, by the call rooted at [node]. *)
Definition qbe_forest_step (fuel : nat) (rnd : string → nat)
    (graph : Graph) (nodes : list string)
    (forest : result (list Tree)) (item : string * list Edge)
    : result (list Tree) :=
  forest ← forest;
  '(tree, are_all) ← qbe_tree fuel (rnd item.1) graph nodes (Some item.1);
  if are_all && bool_decide (tree ∉ forest) then Ok (forest ++ [tree])
  else Ok forest.

Definition qbe_forest (fuel : nat) (rnd : string → nat)
    (graph : Graph) (nodes : list string) : result (list Tree) :=
  forest ← foldl (qbe_forest_step fuel rnd graph nodes) (Ok [])
                 (map_to_list graph);
  Ok (sorted_by_len size forest).

(** ** The path finder: [find_all_paths] and [autocomplete_graph] *)

(** What [graph[start]] may hold when [find_all_paths] reads it.  The
    function calls [.items()] on it and unpacks every item as
    [source_field, (node, target_field)]: it is written for a dictionary
    from a field to a pair.  [qbe_graph] stores a list of edges there, and
    a list has no [items]. *)
Inductive adjacency : Type :=
  | AdjList (edges : list Edge)
  | AdjDict (fields : gmap string (string * string)).

Abbreviation PathGraph := (gmap string adjacency).

(** [graph[start].items()] *)
Definition adjacency_items (a : adjacency)
    : result (list (string * (string * string))) :=
  match a with
  | AdjDict fields => Ok (map_to_list fields)
  | AdjList _ => Raise AttributeError
  end.

(** [find_all_paths(graph, start, end, path)].  The default [path=[]] is
    never changed in place ([path + [start]] builds a new list), so every
    call sees its own prefix. *)
Fixpoint find_all_paths (fuel : nat) (graph : PathGraph)
    (start end_ : string) (path : list string) : result (list (list string)) :=
  match fuel with
  | 0 => OutOfFuel
  | S fuel' =>
      let path := path ++ [start] in
      if decide (start = end_) then Ok [path]
      else
        match graph !! start with
        | None => Ok []
        | Some adj =>
            items ← adjacency_items adj;
            foldl (λ (acc : result (list (list string))) item,
                     paths ← acc;
                     let node := item.2.1 in
                     if decide (node ∉ path) then
                       newpaths ← find_all_paths fuel' graph node end_ path;
                       Ok (paths ++ newpaths)
                     else Ok paths)
                  (Ok []) items
        end
  end.

(** [itertools.combinations(l, 2)] *)
Fixpoint combinations2 {A} (l : list A) : list (A * A) :=
  match l with
  | [] => []
  | x :: l' => ((λ y, (x, y)) <$> l') ++ combinations2 l'
  end.

(** [for model in current_models: path.remove(model)]; [remove] raises
    when the value is not, or no longer, in the list. *)
Fixpoint remove_models (current_models : list string) (path : list string)
    : result (list string) :=
  match current_models with
  | [] => Ok path
  | model :: rest =>
      if decide (model ∈ path) then remove_models rest (remove_first model path)
      else Raise ValueError
  end.

(** Body of [for path in paths]. *)
Definition keep_path (current_models : list string)
    (valid_paths : result (list (list string))) (path : list string)
    : result (list (list string)) :=
  valid_paths ← valid_paths;
  if forallb (λ x, bool_decide (x ∈ path)) current_models then
    path ← remove_models current_models path;
    if decide (path ∉ valid_paths) then Ok (valid_paths ++ [path])
    else Ok valid_paths
  else Ok valid_paths.

(** Body of [for c, d in combinations(current_models, 2)]. *)
Definition autocomplete_pair (fuel : nat) (graph : PathGraph)
    (current_models : list string)
    (valid_paths : result (list (list string))) (cd : string * string)
    : result (list (list string)) :=
  valid_paths ← valid_paths;
  paths ← find_all_paths fuel graph cd.1 cd.2 [];
  foldl (keep_path current_models) (Ok valid_paths) paths.

(** [autocomplete_graph(admin_site, current_models, directed)], from the
    result [models] of [qbe_models(admin_site)].  [None] is the value
    returned for fewer than two models; the graph handed to
    [find_all_paths] is the one [qbe_graph] built, lists of edges. *)
Definition autocomplete_graph (fuel : nat) (models : Models)
    (current_models : list string) (directed : bool)
    : result (option (list (list string))) :=
  if length current_models <? 2 then Ok None
  else
    let graph : PathGraph := AdjList <$> qbe_graph models directed in
    valid_paths ← foldl (autocomplete_pair fuel graph current_models)
                        (Ok []) (combinations2 current_models);
    Ok (Some (sorted_by_len length valid_paths)).


(** ** Vocabulary of the statements *)

(** Every neighbour named by an edge is itself a key. *)
Definition closed_graph (graph : Graph) : Prop :=
  ∀ k edges e, graph !! k = Some edges → e ∈ edges → edge_node e ∈ dom graph.

(** What visiting a node can still cost: one round for the visit and one
    for every edge it pushes. *)
Definition visit_cost (ne : string * list Edge) : nat := S (length ne.2).

Definition unvisited_cost (graph : Graph) (visited : gset string) : nat :=
  sum_list_with visit_cost
    (filter (λ ne, ne.1 ∉ visited) (map_to_list graph)).

(** Rounds left to the [while] loop of [qbe_tree] in state [st]. *)
Definition rounds_left (graph : Graph) (st : tstate) : nat :=
  length (st_to_visit st) + unvisited_cost graph (st_visited st).

(** Fuel that covers every call of [qbe_tree] on [graph]. *)
Definition tree_fuel (graph : Graph) : nat := S (unvisited_cost graph ∅).

(** States the traversal goes through: [traversal graph st st'] when the
    loop started in [st] gets to [st'] after some rounds. *)
Inductive traversal (graph : Graph) : tstate → tstate → Prop :=
  | traversal_here st : traversal graph st st
  | traversal_round st st' st'' :
      qbe_tree_cond st = true →
      qbe_tree_body graph st = Ok st' →
      traversal graph st' st'' →
      traversal graph st st''.

(** A tree that only mentions nodes of [V] and repeats no edge. *)
Definition tree_within (V : gset string) (tree : Tree) : Prop :=
  ∀ k edges, tree !! k = Some edges →
    k ∈ V ∧ NoDup edges ∧ ∀ e, e ∈ edges → edge_node e ∈ V.

(** [tree'] only holds keys of [tree], each with edges it had in [tree]. *)
Definition tree_sub (tree' tree : Tree) : Prop :=
  ∀ k edges', tree' !! k = Some edges' →
    ∃ edges, tree !! k = Some edges ∧ edges' ⊆ edges.

(** The parent component of a [to_visit] entry. *)
Definition visit_parent (item : Visit) : option string := item.1.1.1.
Definition visit_node (item : Visit) : string := item.1.2.

(** What the traversal maintains: visited nodes are keys with two edges or
    more, pushed entries come from visited parents, and the working tree
    only mentions visited nodes, without repeating an edge. *)
Record traversal_inv (graph : Graph) (st : tstate) : Prop := {
  inv_visited : ∀ v, v ∈ st_visited st →
    ∃ node, graph !! v = Some node ∧ 1 < length node;
  inv_to_visit : ∀ item p, item ∈ st_to_visit st →
    visit_parent item = Some p → p ∈ st_visited st;
  inv_tree : ∀ k edges, st_tree st !! k = Some edges →
    k ∈ st_visited st ∧ NoDup edges
    ∧ ∀ e, e ∈ edges → edge_node e ∈ st_visited st;
}.


(** A graph in the shape [find_all_paths] reads: every node maps to a
    dictionary. *)
Definition dict_graph (graph : PathGraph) : Prop :=
  ∀ k adj, graph !! k = Some adj → ∃ fields, adj = AdjDict fields.

(** [start] has no outgoing edge: it is no key, or its dictionary is
    empty. *)
Definition no_out_edges (graph : PathGraph) (start : string) : Prop :=
  graph !! start = None ∨ graph !! start = Some (AdjDict ∅).

(** The loop body of [find_all_paths], named for the proofs. *)
Definition find_all_paths_step (fuel : nat) (graph : PathGraph)
    (end_ : string) (path : list string)
    (acc : result (list (list string))) (item : string * (string * string))
    : result (list (list string)) :=
  paths ← acc;
  let node := item.2.1 in
  if decide (node ∉ path) then
    newpaths ← find_all_paths fuel graph node end_ path;
    Ok (paths ++ newpaths)
  else Ok paths.

(** What a returned path looks like: no node twice, from the prefix it was
    asked to extend to the end node. *)
Definition path_ok (prefix : list string) (end_ : string)
    (p : list string) : Prop :=
  NoDup p ∧ prefix `prefix_of` p ∧ last p = Some end_.


(** [g'] holds every edge of [g], under the same key. *)
Definition graph_le (g g' : Graph) : Prop :=
  ∀ k e, e ∈ edges_of g k → e ∈ edges_of g' k.

(** The catalog of a schema: the identifiers [qbe_graph] forms for its
    models. *)
Definition catalog (models : Models) : gset string :=
  list_to_set
    (kv ← map_to_list models;
     (λ lw : string * Model, dotted kv.1 lw.1) <$> map_to_list kv.2).

(** Some relation of the schema points at an entity outside the catalog. *)
Definition dangling (models : Models) (app name : string) (r : Relation)
    : Prop :=
  ∃ ms w, models !! app = Some ms ∧ ms !! name = Some w
    ∧ r ∈ model_relations w ∧ relation_model r ∉ catalog models.

(** What one relation leaves in the graph. *)
Definition relation_kept (directed : bool) (key : string) (r : Relation)
    (g : Graph) : Prop :=
  relation_value r ∈ edges_of g key
  ∧ (directed = false →
     relation_target_value key r ∈ edges_of g (relation_model r)).


(** The mirror of an edge [e] stored under [key]. *)
Definition mirror (key : string) (e : Edge) : Edge :=
  (edge_far_field e, key, edge_field e).

(** Edge symmetry: an edge [(f, B, g)] under [A] has [(g, A, f)] under
    [B]. *)
Definition symmetric (g : Graph) : Prop :=
  ∀ key e, e ∈ edges_of g key → mirror key e ∈ edges_of g (edge_node e).

(** The key field of the through model, if any, is named like the key
    field of the target. *)
Definition fields_agree (r : Relation) : Prop :=
  match target_through (relation_target r) with
  | Some through => through_field through = target_field (relation_target r)
  | None => True
  end.


(** Every node an edge points at holds an edge itself. *)
Definition targets_hold_edges (g : Graph) : Prop :=
  ∀ k e, e ∈ edges_of g k → ∃ e', e' ∈ edges_of g (edge_node e).


(** ** Vocabulary for the further properties *)

(** [r] is a relation of the model [name] of the app [app]. *)
Definition relation_of (models : Models) (app name : string) (r : Relation)
    : Prop :=
  ∃ ms w, models !! app = Some ms ∧ ms !! name = Some w
    ∧ r ∈ model_relations w.

(** Where an edge [e] under [k] can come from: it is the edge of a relation
    that starts at [k] or, in undirected mode, the reciprocal entry of a
    relation that is filed under [k]. *)
Definition edge_origin (models : Models) (directed : bool)
    (k : string) (e : Edge) : Prop :=
  (∃ app name r, relation_of models app name r
     ∧ k = dotted app name ∧ e = relation_value r)
  ∨ (directed = false
     ∧ ∃ app name r, relation_of models app name r
         ∧ k = relation_model r
         ∧ e = relation_target_value (dotted app name) r).

(** No key but possibly [key] holds an empty list. *)
Definition empty_only_at (key : string) (g : Graph) : Prop :=
  ∀ k, g !! k = Some [] → k = key.

(** No key holds an empty list. *)
Definition no_empty_list (g : Graph) : Prop :=
  ∀ k, g !! k ≠ Some [].

(** No edge list repeats an edge. *)
Definition edges_NoDup (g : Graph) : Prop :=
  ∀ k edges, g !! k = Some edges → NoDup edges.


(** One hop along an edge of the graph, and the edge a [to_visit] entry
    was pushed for. *)
Definition graph_step (graph : Graph) (u v : string) : Prop :=
  ∃ e, e ∈ edges_of graph u ∧ edge_node e = v.

Definition visit_edge (item : Visit) : option (string * Edge) :=
  match item with
  | (Some parent, Some parent_edge, v, Some v_edge) =>
      Some (parent, (parent_edge, v, v_edge))
  | _ => None
  end.

(** Every edge of the tree is an edge of the graph or the mirror of one. *)
Definition tree_from_graph (graph : Graph) (tree : Tree) : Prop :=
  ∀ k e, e ∈ edges_of tree k →
    e ∈ edges_of graph k ∨ mirror k e ∈ edges_of graph (edge_node e).

(** No node is its own neighbour. *)
Definition loop_free (tree : Tree) : Prop :=
  ∀ k e, e ∈ edges_of tree k → edge_node e ≠ k.


(** The edge a [to_visit] entry gets recorded for: all four components
    must be true. *)
Definition recorded (item : Visit) : option (string * Edge) :=
  match item with
  | (Some parent, Some parent_edge, v, Some v_edge) =>
      if truthy parent && truthy parent_edge && truthy v && truthy v_edge
      then Some (parent, (parent_edge, v, v_edge))
      else None
  | _ => None
  end.

(** A tree in good shape: symmetric, without loops, without repeated
    edges. *)
Definition tidy (tree : Tree) : Prop :=
  symmetric tree ∧ loop_free tree ∧ edges_NoDup tree.


(** One hop in the graph [find_all_paths] reads: some field of [u] points
    at [v]. *)
Definition path_step (graph : PathGraph) (u v : string) : Prop :=
  ∃ fields f tf, graph !! u = Some (AdjDict fields) ∧ fields !! f = Some (v, tf).

(** [walk graph end_ start q]: the list [q] of nodes goes from [start] to
    [end_] hop by hop and stops the first time it is at [end_]. *)
Inductive walk (graph : PathGraph) (end_ : string)
    : string → list string → Prop :=
  | walk_end : walk graph end_ end_ [end_]
  | walk_hop start node q :
      start ≠ end_ → path_step graph start node →
      walk graph end_ node q → walk graph end_ start (start :: q).


(** A run of the suggestion loop that has kept no path. *)
Definition no_suggestion (r : result (list (list string))) : Prop :=
  ∀ l, r = Ok l → l = [].


(** ** Sample schemas and graphs *)

Definition foreign_key (source app model field : string) : Relation :=
  {| relation_target :=
       {| target_name := app; target_model := model; target_field := field;
          target_through := None |};
     relation_type := "ForeignKey";
     relation_source := source;
     relation_arrows := "" |}.

Definition many_to_many (source app model field : string)
    (through : Through) : Relation :=
  {| relation_target :=
       {| target_name := app; target_model := model; target_field := field;
          target_through := Some through |};
     relation_type := "ManyToManyField";
     relation_source := source;
     relation_arrows := "" |}.

Definition sample_model (name : string) (fields : list string)
    (relations : list Relation) : Model :=
  {| model_name := name; model_fields := fields;
     model_relations := relations; model_collapse := false |}.

(** An order with a foreign key to its customer and one to its product. *)
Definition shop : Models :=
  {[ "Shop" :=
       {[ "Order" := sample_model "Order" ["id"; "customer"; "product"]
                       [foreign_key "customer" "Shop" "Customer" "id";
                        foreign_key "product" "Shop" "Product" "id"];
          "Customer" := sample_model "Customer" ["id"] [];
          "Product" := sample_model "Product" ["id"] [] ]} ]}.

Definition shop_graph : Graph :=
  {[ "Shop.Order" := [("customer", "Shop.Customer", "id");
                      ("product", "Shop.Product", "id")];
     "Shop.Customer" := [("id", "Shop.Order", "customer")];
     "Shop.Product" := [("id", "Shop.Order", "product")] ]}.

(** Students take courses through enrollments; a course is keyed by its
    [code], an enrollment by its [id]. *)
Definition school : Models :=
  {[ "School" :=
       {[ "Student" := sample_model "Student" ["id"; "courses"]
                         [many_to_many "courses" "School" "Course" "code"
                            {| through_name := "School";
                               through_model := "Enrollment";
                               through_field := "id" |}];
          "Course" := sample_model "Course" ["code"] [] ]} ]}.

(** An order whose customer lives in an app that is not in the catalog. *)
Definition orphan_order : Model :=
  sample_model "Order" ["id"; "customer"]
    [foreign_key "customer" "Crm" "Customer" "id"].

Definition orphan : Models := {[ "Shop" := {[ "Order" := orphan_order ]} ]}.

(** Four entities in a ring. *)
Definition ring : Graph :=
  {[ "A" := [("ab", "B", "ba"); ("ad", "D", "da")];
     "B" := [("ba", "A", "ab"); ("bc", "C", "cb")];
     "C" := [("cb", "B", "bc"); ("cd", "D", "dc")];
     "D" := [("dc", "C", "cd"); ("da", "A", "ad")] ]}.

(** The ring in the shape [find_all_paths] reads. *)
Definition ring_paths : PathGraph :=
  {[ "A" := AdjDict {[ "ab" := ("B", "ba"); "ad" := ("D", "da") ]};
     "B" := AdjDict {[ "ba" := ("A", "ab"); "bc" := ("C", "cb") ]};
     "C" := AdjDict {[ "cb" := ("B", "bc"); "cd" := ("D", "dc") ]};
     "D" := AdjDict {[ "dc" := ("C", "cd"); "da" := ("A", "ad") ]} ]}.


(** The school again, with courses keyed by [id] like enrollments. *)
Definition campus_student : Model :=
  sample_model "Student" ["id"; "courses"]
    [many_to_many "courses" "School" "Course" "id"
       {| through_name := "School"; through_model := "Enrollment";
          through_field := "id" |}].

Definition campus : Models :=
  {[ "School" := {[ "Student" := campus_student;
                   "Course" := sample_model "Course" ["id"] [] ]} ]}.

(** The tree [qbe_tree] extracts from the ring for [A] and [C], rooted at
    [A]. *)
Definition ring_tree : Tree :=
  {[ "A" := [("ad", "D", "da")];
     "C" := [("cd", "D", "dc")];
     "D" := [("da", "A", "ad"); ("dc", "C", "cd")] ]}.


(** ** The schema introspector: [qbe_models] *)

(** *** The string methods it calls *)

Definition is_lower (c : Ascii.ascii) : bool :=
  (97 <=? Ascii.nat_of_ascii c) && (Ascii.nat_of_ascii c <=? 122).

Definition is_upper (c : Ascii.ascii) : bool :=
  (65 <=? Ascii.nat_of_ascii c) && (Ascii.nat_of_ascii c <=? 90).

Definition to_upper (c : Ascii.ascii) : Ascii.ascii :=
  if is_lower c then Ascii.ascii_of_nat (Ascii.nat_of_ascii c - 32) else c.

Definition to_lower (c : Ascii.ascii) : Ascii.ascii :=
  if is_upper c then Ascii.ascii_of_nat (Ascii.nat_of_ascii c + 32) else c.

Fixpoint lower_all (s : string) : string :=
  match s with
  | EmptyString => EmptyString
  | String c s' => String (to_lower c) (lower_all s')
  end.

(** [s.capitalize()]: the first character in upper case, the rest in lower
    case. *)
Definition capitalize (s : string) : string :=
  match s with
  | EmptyString => EmptyString
  | String c s' => String (to_upper c) (lower_all s')
  end.

(** [s.title()]: a letter is put in upper case when the character before
    it is no letter, in lower case otherwise. *)
Fixpoint title_from (previous_is_cased : bool) (s : string) : string :=
  match s with
  | EmptyString => EmptyString
  | String c s' =>
      if is_lower c then
        String (if previous_is_cased then c else to_upper c) (title_from true s')
      else if is_upper c then
        String (if previous_is_cased then to_lower c else c) (title_from true s')
      else String c (title_from false s')
  end.

Definition title (s : string) : string := title_from false s.

(** The character of a one-character string literal. *)
Definition char_of (s : string) : Ascii.ascii :=
  match s with
  | String c _ => c
  | EmptyString => Ascii.zero
  end.

(** [s.split(sep)] for a separator of one character: one piece more than
    there are separators, empty pieces kept. *)
Fixpoint split_on (sep : Ascii.ascii) (s : string) : list string :=
  match s with
  | EmptyString => [EmptyString]
  | String c s' =>
      if decide (c = sep) then EmptyString :: split_on sep s'
      else match split_on sep s' with
           | [] => [String c EmptyString]
           | piece :: pieces => String c piece :: pieces
           end
  end.

(** [l[-2]] *)
Definition penultimate {A} (l : list A) : option A :=
  match reverse l with
  | _ :: x :: _ => Some x
  | _ => None
  end.

(** [cls.__module__.split(".")[-2].capitalize()]; the index is out of
    range when the module name has no dot. *)
Definition module_app (module : string) : result string :=
  match penultimate (split_on (char_of ".") module) with
  | Some app => Ok (capitalize app)
  | None => Raise IndexError
  end.

(** *** What it reads from Django *)

(** A model class as a relation sees it: [__module__], [__name__] and
    [_meta.pk.name]. *)
Record ModelRef := {
  ref_module : string;
  ref_name : string;
  ref_pk_name : string;
}.

(** [field.rel.through]: the attribute may be missing ([hasattr] is
    false), hold [None], or hold a model class. *)
Inductive ThroughAttr : Type :=
  | ThroughMissing
  | ThroughNone
  | ThroughClass (cls : ModelRef).

(** [field.rel] *)
Record DjangoRel := {
  rel_to : ModelRef;
  rel_through : ThroughAttr;
}.

(** The classes [isinstance] is asked about.  [OneToOneField] is a subclass
    of [ForeignKey]. *)
Inductive FieldClass : Type :=
  | ForeignKey
  | OneToOneField
  | ManyToManyField
  | GenericRelation
  | OtherField.

Definition isinstance_ForeignKey (c : FieldClass) : bool :=
  match c with
  | ForeignKey | OneToOneField => true
  | _ => false
  end.

Definition isinstance_OneToOneField (c : FieldClass) : bool :=
  match c with
  | OneToOneField => true
  | _ => false
  end.

Definition isinstance_ManyToManyField (c : FieldClass) : bool :=
  match c with
  | ManyToManyField => true
  | _ => false
  end.

Definition isinstance_GenericRelation (c : FieldClass) : bool :=
  match c with
  | GenericRelation => true
  | _ => false
  end.

(** A field: [name], [verbose_name], [blank], [type(field).__name__], its
    class, and [rel] ([None] on a field that relates to nothing). *)
Record DjangoField := {
  field_name : string;
  field_verbose_name : string;
  field_blank : bool;
  field_type : string;
  field_class : FieldClass;
  field_rel : option DjangoRel;
}.

(** A model class: [__name__], [_meta.app_label], [_meta.fields] and
    [_meta.many_to_many]. *)
Record DjangoModel := {
  cls_name : string;
  cls_app_label : string;
  cls_fields : list DjangoField;
  cls_many_to_many : list DjangoField;
}.

#[global] Instance ModelRef_eq_dec : EqDecision ModelRef.
Proof. solve_decision. Defined.
#[global] Instance ThroughAttr_eq_dec : EqDecision ThroughAttr.
Proof. solve_decision. Defined.
#[global] Instance DjangoRel_eq_dec : EqDecision DjangoRel.
Proof. solve_decision. Defined.
#[global] Instance FieldClass_eq_dec : EqDecision FieldClass.
Proof. solve_decision. Defined.
#[global] Instance DjangoField_eq_dec : EqDecision DjangoField.
Proof. solve_decision. Defined.
#[global] Instance DjangoModel_eq_dec : EqDecision DjangoModel.
Proof. solve_decision. Defined.
#[global] Instance Through_eq_dec : EqDecision Through.
Proof. solve_decision. Defined.
#[global] Instance Target_eq_dec : EqDecision Target.
Proof. solve_decision. Defined.
#[global] Instance Relation_eq_dec : EqDecision Relation.
Proof. solve_decision. Defined.

(** *** What it builds *)

(** One entry of [model['fields']]; the key ['target'] is there once the
    field was added as a relation. *)
Record FieldAttrs := {
  attr_name : string;
  attr_type : string;
  attr_blank : bool;
  attr_label : string;
  attr_target : option Target;
}.

(** The [model] dictionary, with its ['fields'] in full. *)
Record ModelInfo := {
  info_name : string;
  info_fields : gmap string FieldAttrs;
  info_relations : list Relation;
  info_collapse : bool;
}.

Abbreviation Graphs := (gmap string (gmap string ModelInfo)).

(** [get_field_attributes(field)], the value under [field.name]. *)
Definition get_field_attributes (field : DjangoField) : FieldAttrs :=
  {| attr_name := field_name field;
     attr_type := field_type field;
     attr_blank := field_blank field;
     attr_label := capitalize (field_verbose_name field);
     attr_target := None |}.

(** [get_target(field)] *)
Definition get_target (field : DjangoField) : result Target :=
  match field_rel field with
  | None => Raise AttributeError
  | Some rel =>
      name ← module_app (ref_module (rel_to rel));
      let target := {| target_name := name;
                       target_model := ref_name (rel_to rel);
                       target_field := ref_pk_name (rel_to rel);
                       target_through := None |} in
      match rel_through rel with
      | ThroughMissing => Ok target
      | ThroughNone => Raise AttributeError
      | ThroughClass through =>
          name ← module_app (ref_module through);
          Ok {| target_name := target_name target;
                target_model := target_model target;
                target_field := target_field target;
                target_through :=
                  Some {| through_name := name;
                          through_model := ref_name through;
                          through_field := ref_pk_name through |} |}
      end
  end.

(** [get_target_relation(field, extras)] *)
Definition get_target_relation (field : DjangoField) (extras : string)
    : result (Target * Relation) :=
  target ← get_target field;
  Ok (target, {| relation_target := target;
                 relation_type := field_type field;
                 relation_source := field_name field;
                 relation_arrows := extras |}).

(** [add_relation(model, field, extras)] *)
Definition add_relation (model : ModelInfo) (field : DjangoField)
    (extras : string) : result ModelInfo :=
  '(target, relation) ← get_target_relation field extras;
  let relations :=
    if decide (relation ∈ info_relations model) then info_relations model
    else info_relations model ++ [relation] in
  match info_fields model !! field_name field with
  | None => Raise (KeyError (field_name field))
  | Some attrs =>
      Ok {| info_name := info_name model;
            info_fields :=
              <[field_name field :=
                  {| attr_name := attr_name attrs;
                     attr_type := attr_type attrs;
                     attr_blank := attr_blank attrs;
                     attr_label := attr_label attrs;
                     attr_target := Some target |}]> (info_fields model);
            info_relations := relations;
            info_collapse := info_collapse model |}
  end.

(** [model['fields'].update(field_attributes)] *)
Definition update_fields (model : ModelInfo) (field : DjangoField)
    : ModelInfo :=
  {| info_name := info_name model;
     info_fields :=
       <[field_name field := get_field_attributes field]> (info_fields model);
     info_relations := info_relations model;
     info_collapse := info_collapse model |}.

(** Body of [for field in app_model._meta.fields]. *)
Definition add_field (model : result ModelInfo) (field : DjangoField)
    : result ModelInfo :=
  model ← model;
  let model := update_fields model field in
  if isinstance_ForeignKey (field_class field) then
    add_relation model field ""
  else if isinstance_OneToOneField (field_class field) then
    add_relation model field ""
  else Ok model.

(** Body of [for field in app_model._meta.many_to_many]. *)
Definition add_many_to_many (model : result ModelInfo) (field : DjangoField)
    : result ModelInfo :=
  model ← model;
  let model := update_fields model field in
  if isinstance_ManyToManyField (field_class field) then
    add_relation model field ""
  else if isinstance_GenericRelation (field_class field) then
    add_relation model field ""
  else Ok model.

(** The [model] built for one [app_model]. *)
Definition build_model (admin_models app_models_with_no_includes
    : list DjangoModel) (app_model : DjangoModel) : result ModelInfo :=
  let model :=
    {| info_name := cls_name app_model;
       info_fields := ∅;
       info_relations := [];
       info_collapse :=
         bool_decide (app_model ∉ admin_models)
         || bool_decide (app_model ∉ app_models_with_no_includes) |} in
  model ← foldl add_field (Ok model) (cls_fields app_model);
  match cls_many_to_many app_model with
  | [] => Ok model
  | _ :: _ => foldl add_many_to_many (Ok model) (cls_many_to_many app_model)
  end.

(** Body of [for app_model in app_models]. *)
Definition add_app_model (admin_models app_models_with_no_includes
    : list DjangoModel) (graphs : result Graphs) (app_model : DjangoModel)
    : result Graphs :=
  graphs ← graphs;
  model ← build_model admin_models app_models_with_no_includes app_model;
  let app_title := title (cls_app_label app_model) in
  let graphs :=
    match graphs !! app_title with
    | Some _ => graphs
    | None => <[app_title := ∅]> graphs
    end in
  Ok (<[app_title :=
          <[cls_name app_model := model]> (default ∅ (graphs !! app_title))]>
        graphs).

(** What [qbe_models] returns: the dictionary, or its JSON text. *)
Inductive ModelsValue : Type :=
  | AsDict (graphs : Graphs)
  | AsJson (text : string).

Section qbe_models.
(** [dumps] of [django.utils.simplejson], and the two answers of
    [get_models]: with auto-created and deferred models, and without. *)
Context (dumps : Graphs → string).
Context (app_models_all app_models_with_no_includes : list DjangoModel).

(** [qbe_models(admin_site, only_admin_models, json)]; [admin_site] is
    given by the models of its registry. *)
Definition qbe_models (admin_site : option (list DjangoModel))
    (only_admin_models json : bool) : result ModelsValue :=
  let app_models := app_models_all in
  let admin_models :=
    match admin_site with
    | Some registry => registry
    | None => []
    end in
  let app_models := if only_admin_models then admin_models else app_models in
  graphs ← foldl (add_app_model admin_models app_models_with_no_includes)
                 (Ok ∅) app_models;
  if json then Ok (AsJson (dumps graphs)) else Ok (AsDict graphs).
End qbe_models.

(** The part of a model [qbe_graph] and the claims work with. *)
Definition model_of_info (info : ModelInfo) : Model :=
  {| model_name := info_name info;
     model_fields := (map_to_list (info_fields info)).*1;
     model_relations := info_relations info;
     model_collapse := info_collapse info |}.

Definition models_of_graphs (graphs : Graphs) : Models :=
  (λ ms : gmap string ModelInfo, model_of_info <$> ms) <$> graphs.


(** The errors a run over well-formed metadata can end with. *)
Definition introspection_error (e : exn) : Prop :=
  e = AttributeError ∨ e = IndexError.

(** A result that holds a value with [P], or one of those errors. *)
Definition result_with {A} (P : A → Prop) (r : result A) : Prop :=
  match r with
  | Ok a => P a
  | Raise e => introspection_error e
  | OutOfFuel => False
  end.

(** The fields of a model class that [qbe_models] adds as relations. *)
Definition relation_field (app_model : DjangoModel) (field : DjangoField)
    : Prop :=
  (field ∈ cls_fields app_model
   ∧ isinstance_ForeignKey (field_class field) = true)
  ∨ (field ∈ cls_many_to_many app_model
     ∧ (isinstance_ManyToManyField (field_class field)
        || isinstance_GenericRelation (field_class field)) = true).

(** The two loops over fields have one shape: [update] the attributes,
    then [add_relation] when the class test holds. *)
Definition add_with (test : FieldClass → bool) (model : result ModelInfo)
    (field : DjangoField) : result ModelInfo :=
  model ← model;
  let model := update_fields model field in
  if test (field_class field) then add_relation model field "" else Ok model.

(** What the loop over [done] keeps, started with the relations [before]:
    the relations are those of [before] and of the fields of [done] that
    pass the test, none twice, and every field of [done] has its
    attributes filed. *)
Record fields_added (test : FieldClass → bool) (before : list Relation)
    (done : list DjangoField) (model : ModelInfo) : Prop := {
  added_NoDup : NoDup (info_relations model);
  added_relations : ∀ r, r ∈ info_relations model ↔
    r ∈ before
    ∨ ∃ field target, field ∈ done ∧ test (field_class field) = true
        ∧ get_target_relation field "" = Ok (target, r);
  added_fields : ∀ field, field ∈ done →
    is_Some (info_fields model !! field_name field);
}.

(** What [build_model] returns for a model class. *)
Record model_built (app_model : DjangoModel) (info : ModelInfo) : Prop := {
  built_name : info_name info = cls_name app_model;
  built_NoDup : NoDup (info_relations info);
  built_relations : ∀ r, r ∈ info_relations info ↔
    ∃ field target, relation_field app_model field
      ∧ get_target_relation field "" = Ok (target, r);
  built_sources : ∀ r, r ∈ info_relations info →
    is_Some (info_fields info !! relation_source r);
}.

(** What the loop over the model classes [done] has filed. *)
Record models_filed (admin_models app_models_with_no_includes
    done : list DjangoModel) (graphs : Graphs) : Prop := {
  filed_from : ∀ t ms n info,
    graphs !! t = Some ms → ms !! n = Some info →
    ∃ app_model, app_model ∈ done
      ∧ title (cls_app_label app_model) = t ∧ cls_name app_model = n
      ∧ build_model admin_models app_models_with_no_includes app_model
        = Ok info;
  filed_all : ∀ app_model, app_model ∈ done →
    ∃ ms info, graphs !! title (cls_app_label app_model) = Some ms
      ∧ ms !! cls_name app_model = Some info;
}.


(** The model classes [qbe_models] goes through. *)
Definition chosen_models (app_models_all : list DjangoModel)
    (admin_site : option (list DjangoModel)) (only_admin_models : bool)
    : list DjangoModel :=
  if only_admin_models then default [] admin_site else app_models_all.

(** [qbe_graph(admin_site, directed)] as the module has it: the schema
    comes from [qbe_models(admin_site)].  A JSON text in place of the
    dictionary would have no [items]; without the [json] flag this does not
    arise. *)
Definition qbe_graph_site (dumps : Graphs → string)
    (app_models_all app_models_with_no_includes : list DjangoModel)
    (admin_site : option (list DjangoModel)) (directed : bool)
    : result Graph :=
  models ← qbe_models dumps app_models_all app_models_with_no_includes
              admin_site false false;
  match models with
  | AsDict graphs => Ok (qbe_graph (models_of_graphs graphs) directed)
  | AsJson _ => Raise AttributeError
  end.


(** [autocomplete_graph(admin_site, current_models, directed)] as the
    module has it: the graph is built from [qbe_models(admin_site)] once
    two models or more are selected. *)
Definition autocomplete_graph_site (fuel : nat) (dumps : Graphs → string)
    (app_models_all app_models_with_no_includes : list DjangoModel)
    (admin_site : option (list DjangoModel)) (current_models : list string)
    (directed : bool) : result (option (list (list string))) :=
  if length current_models <? 2 then Ok None
  else
    models ← qbe_models dumps app_models_all app_models_with_no_includes
                admin_site false false;
    match models with
    | AsDict graphs =>
        autocomplete_graph fuel (models_of_graphs graphs) current_models
          directed
    | AsJson _ => Raise AttributeError
    end.

(** ** The autocomplete view: [views.qbe_autocomplete] *)

(** The value [nodes] that [qbe_autocomplete] hands to [simplejson.dumps],
    for a request that passed the access test.  [is_ajax] is the answer of
    [request.is_ajax()], [post] the data of [request.POST] (the last value
    of each key), [admin_site] the site the module imports.  The default
    [[]] of [get] is a list and has no [split]. *)
Definition qbe_autocomplete_nodes (fuel : nat) (dumps : Graphs → string)
    (app_models_all app_models_with_no_includes : list DjangoModel)
    (admin_site : option (list DjangoModel))
    (is_ajax : bool) (post : gmap string string)
    : result (option (list (list string))) :=
  if is_ajax && negb (bool_decide (post = ∅)) then
    match post !! "models" with
    | None => Raise AttributeError
    | Some value =>
        let models := split_on (char_of ",") value in
        autocomplete_graph_site fuel dumps app_models_all
          app_models_with_no_includes admin_site models false
    end
  else Ok None.

(** Occurrences of a character in a string. *)
Fixpoint count_char (c : Ascii.ascii) (s : string) : nat :=
  match s with
  | EmptyString => 0
  | String c' s' => (if decide (c' = c) then 1 else 0) + count_char c s'
  end.

(** *** Sample model classes *)

Definition no_dumps : Graphs → string := λ _, "".

Definition auto_id : DjangoField :=
  {| field_name := "id"; field_verbose_name := "ID"; field_blank := true;
     field_type := "AutoField"; field_class := OtherField;
     field_rel := None |}.

Definition customer_key : DjangoField :=
  {| field_name := "customer"; field_verbose_name := "customer";
     field_blank := false; field_type := "ForeignKey";
     field_class := ForeignKey;
     field_rel :=
       Some {| rel_to := {| ref_module := "shop.models";
                            ref_name := "Customer"; ref_pk_name := "id" |};
               rel_through := ThroughMissing |} |}.

Definition order_class : DjangoModel :=
  {| cls_name := "Order"; cls_app_label := "shop";
     cls_fields := [auto_id; customer_key]; cls_many_to_many := [] |}.

Definition customer_class : DjangoModel :=
  {| cls_name := "Customer"; cls_app_label := "shop";
     cls_fields := [auto_id]; cls_many_to_many := [] |}.



(** What [qbe_models] files for the two shop classes. *)
Definition order_info : ModelInfo :=
  {| info_name := "Order";
     info_fields :=
       {[ "id" := {| attr_name := "id"; attr_type := "AutoField";
                     attr_blank := true; attr_label := "Id";
                     attr_target := None |};
          "customer" :=
            {| attr_name := "customer"; attr_type := "ForeignKey";
               attr_blank := false; attr_label := "Customer";
               attr_target :=
                 Some {| target_name := "Shop"; target_model := "Customer";
                         target_field := "id"; target_through := None |} |} ]};
     info_relations := [foreign_key "customer" "Shop" "Customer" "id"];
     info_collapse := true |}.

Definition customer_info : ModelInfo :=
  {| info_name := "Customer";
     info_fields :=
       {[ "id" := {| attr_name := "id"; attr_type := "AutoField";
                     attr_blank := true; attr_label := "Id";
                     attr_target := None |} ]};
     info_relations := [];
     info_collapse := true |}.

Definition shop_graphs : Graphs :=
  {[ "Shop" := {[ "Order" := order_info; "Customer" := customer_info ]} ]}.


(** ** Helper lemmas on lists *)

Section list_helpers.
Context {A : Type} `{EqDecision A}.

Lemma remove_first_subseteq (x : A) (l : list A) : remove_first x l ⊆ l.
Proof.
  induction l as [|y l IH]; simpl; [done|].
  destruct (decide (x = y)); set_solver.
Qed.

Lemma remove_first_NoDup (x : A) (l : list A) :
  NoDup l → NoDup (remove_first x l).
Proof.
  induction 1 as [|y l Hy Hl IH]; simpl; [constructor|].
  destruct (decide (x = y)); [done|].
  constructor; [|done]. intros Hin. by apply Hy, (remove_first_subseteq x).
Qed.
End list_helpers.

Lemma scan_edges_subseteq leaf pending :
  ∀ current, scan_edges leaf current pending ⊆ current.
Proof.
  remember (length pending) as n eqn:Hn.
  revert pending Hn.
  induction n as [n IH] using lt_wf_ind. intros pending -> current.
  destruct pending as [|edge pending']; simpl; [done|].
  destruct (decide (leaf = edge_node edge)).
  - destruct pending' as [|e' pending''].
    + apply remove_first_subseteq.
    + etrans; [eapply (IH (length pending'')); simpl; [lia|done]|].
      apply remove_first_subseteq.
  - eapply (IH (length pending')); simpl; [lia|done].
Qed.

(** ** [remove_leafs] *)

Lemma elem_of_get_leafs tree nodes x :
  x ∈ get_leafs tree nodes ↔
  ∃ edges, tree !! x = Some edges ∧ length edges < 2 ∧ x ∉ nodes.
Proof.
  unfold get_leafs. rewrite list_elem_of_fmap. split.
  - intros [[k edges] [-> [[Hlen Hnot] Hin]%list_elem_of_filter]].
    apply elem_of_map_to_list in Hin. eauto.
  - intros (edges & Hlook & Hlen & Hnot). exists (x, edges). split; [done|].
    apply list_elem_of_filter. split; [done|]. by apply elem_of_map_to_list.
Qed.

(** The second disjunct of the loop condition never holds: the counter
    stays at [0] and an exclusive or of naturals is not negative. *)
Lemma remove_leafs_cond_zero leafs tree :
  remove_leafs_cond leafs 0 tree = negb (length leafs =? 0).
Proof.
  unfold remove_leafs_cond.
  assert (0 ≤ Z.lxor (Z.of_nat (size tree)) 2)%Z as H.
  { apply Z.lxor_nonneg. lia. }
  apply Z.ltb_ge in H. rewrite H. apply orb_false_r.
Qed.

Lemma tree_sub_refl tree : tree_sub tree tree.
Proof. intros k edges H. eauto. Qed.

Lemma tree_sub_trans t1 t2 t3 : tree_sub t1 t2 → tree_sub t2 t3 → tree_sub t1 t3.
Proof.
  intros H12 H23 k e1 H1.
  destruct (H12 _ _ H1) as (e2 & H2 & Hs12).
  destruct (H23 _ _ H2) as (e3 & H3 & Hs23).
  exists e3. split; [done|]. by etrans.
Qed.

Lemma delete_edge_leafs_Ok tree leaf :
  is_Some (tree !! leaf) →
  ∃ tree', delete_edge_leafs tree leaf = Ok tree'
    ∧ dom tree' = dom tree ∖ {[leaf]} ∧ tree_sub tree' tree.
Proof.
  intros [edges Hleaf]. unfold delete_edge_leafs.
  rewrite lookup_fmap, Hleaf. simpl. eexists. split; [done|]. split.
  - by rewrite dom_delete_L, dom_fmap_L.
  - intros k edges' Hk.
    apply lookup_delete_Some in Hk as [_ Hk].
    apply lookup_fmap_Some in Hk as (es & <- & Hes).
    exists es. split; [done|]. apply scan_edges_subseteq.
Qed.

Lemma prune_round_Ok leafs : ∀ tree,
  ∃ tree', prune_round tree leafs = Ok tree'
    ∧ dom tree' = dom tree ∖ list_to_set leafs ∧ tree_sub tree' tree.
Proof.
  induction leafs as [|node leafs IH]; intros tree; simpl.
  - exists tree. split; [done|]. split; [set_solver|apply tree_sub_refl].
  - destruct (tree !! node) as [edges|] eqn:Hnode.
    + destruct (delete_edge_leafs_Ok tree node) as (t1 & -> & Hdom1 & Hsub1);
        [by eexists|].
      simpl. destruct (IH t1) as (t2 & -> & Hdom2 & Hsub2).
      exists t2. split; [done|]. split; [set_solver|by eapply tree_sub_trans].
    + destruct (IH tree) as (t2 & -> & Hdom2 & Hsub2).
      exists t2. split; [done|]. split; [|done].
      apply not_elem_of_dom in Hnode. set_solver.
Qed.

Lemma remove_leafs_loop_Ok nodes : ∀ n tree,
  size tree ≤ n →
  ∃ tree',
    (∀ fuel, n ≤ fuel →
       remove_leafs_loop fuel tree nodes (get_leafs tree nodes) 0 = Ok tree')
    ∧ get_leafs tree' nodes = []
    ∧ tree_sub tree' tree
    ∧ (∀ k, k ∈ dom tree → k ∈ nodes → k ∈ dom tree').
Proof.
  induction n as [n IH] using lt_wf_ind. intros tree Hsize.
  destruct (get_leafs tree nodes) as [|leaf leafs] eqn:Hleafs.
  - exists tree. split; [|split; [done|split; [apply tree_sub_refl|done]]].
    intros fuel _. destruct fuel; cbn [remove_leafs_loop]; by rewrite remove_leafs_cond_zero.
  - destruct (prune_round_Ok (leaf :: leafs) tree) as (t1 & Hround & Hdom & Hsub).
    assert (leaf ∈ get_leafs tree nodes) as Hin by (rewrite Hleafs; left).
    apply elem_of_get_leafs in Hin as (edges & Hlook & _ & _).
    assert (size t1 < size tree) as Hlt.
    { rewrite <-!size_dom. apply subset_size. rewrite Hdom. split; [set_solver|].
      intros Hsub'. apply (elem_of_dom_2 tree) in Hlook.
      specialize (Hsub' _ Hlook). set_solver. }
    destruct (IH (size t1) ltac:(lia) t1 ltac:(lia))
      as (t2 & Hfuel & Hnone & Hsub2 & Hkeep).
    exists t2. split; [|split; [done|split; [by eapply tree_sub_trans|]]].
    + intros fuel Hfuel'. destruct fuel as [|fuel]; [lia|].
      cbn [remove_leafs_loop]. rewrite remove_leafs_cond_zero. cbn [length Nat.eqb negb].
      rewrite Hround. cbn [mbind result_bind]. apply Hfuel. lia.
    + intros k Hk Hreq. apply Hkeep; [|done]. rewrite Hdom.
      apply elem_of_difference. split; [done|].
      rewrite elem_of_list_to_set, <-Hleafs, elem_of_get_leafs. naive_solver.
Qed.

(** C8.  The leaf-pruning loop of [remove_leafs] terminates on every tree
    and required list: fuel equal to the number of nodes of the tree is
    always enough, because every round entered deletes at least one leaf.
    The loop stops exactly when a pass finds no leaf left to remove (a node
    with fewer than two recorded edges that is not required); it only ever
    removes nodes, and never a required one. *)
Theorem remove_leafs_terminates (tree : Tree) (nodes : list string) :
  ∃ tree',
    (∀ fuel, size tree ≤ fuel → remove_leafs fuel tree nodes = Ok tree')
    ∧ get_leafs tree' nodes = []
    ∧ dom tree' ⊆ dom tree
    ∧ (∀ k, k ∈ dom tree → k ∈ nodes → k ∈ dom tree').
Proof.
  destruct (remove_leafs_loop_Ok nodes (size tree) tree) as (t & Hf & Hl & Hs & Hk);
    [done|].
  exists t. repeat split; try done.
  intros k [edges Hin]%elem_of_dom. destruct (Hs _ _ Hin) as (es & Hes & _).
  by apply elem_of_dom_2 in Hes.
Qed.


(** ** The traversal of [qbe_tree] *)

Lemma lookup_ensure_key key (g : Graph) k edges :
  ensure_key key g !! k = Some edges →
  g !! k = Some edges ∨ (k = key ∧ edges = [] ∧ g !! key = None).
Proof.
  unfold ensure_key. destruct (g !! key) eqn:Hkey; [by left|].
  destruct (decide (key = k)) as [->|Hne].
  - rewrite lookup_insert_eq. intros [= <-]. by right.
  - rewrite lookup_insert_ne by done. by left.
Qed.

Lemma lookup_append_new key value (g : Graph) k edges :
  append_new key value g !! k = Some edges →
  g !! k = Some edges
  ∨ (k = key ∧ edges = edges_of g key ++ [value] ∧ value ∉ edges_of g key).
Proof.
  unfold append_new. destruct (decide (value ∈ edges_of g key)); [by left|].
  destruct (decide (key = k)) as [->|Hne].
  - rewrite lookup_insert_eq. intros [= <-]. by right.
  - rewrite lookup_insert_ne by done. by left.
Qed.

Lemma tree_within_mono V V' tree :
  V ⊆ V' → tree_within V tree → tree_within V' tree.
Proof.
  intros HV H k edges Hk. destruct (H _ _ Hk) as (? & ? & ?).
  split_and!; [set_solver|done|set_solver].
Qed.

Lemma tree_within_edges_of V tree k :
  tree_within V tree →
  NoDup (edges_of tree k) ∧ ∀ e, e ∈ edges_of tree k → edge_node e ∈ V.
Proof.
  intros H. unfold edges_of. destruct (tree !! k) as [edges|] eqn:Hk; simpl.
  - by destruct (H _ _ Hk) as (? & ? & ?).
  - split; [constructor|]. by intros e ?%elem_of_nil.
Qed.

Lemma tree_within_ensure_key V tree key :
  key ∈ V → tree_within V tree → tree_within V (ensure_key key tree).
Proof.
  intros Hkey H k edges [Hk|(-> & -> & _)]%lookup_ensure_key; [by apply H|].
  split_and!; [done|constructor|]. by intros e ?%elem_of_nil.
Qed.

Lemma tree_within_append_new V tree key value :
  key ∈ V → edge_node value ∈ V →
  tree_within V tree → tree_within V (append_new key value tree).
Proof.
  intros Hkey Hval H k edges [Hk|(-> & -> & Hnew)]%lookup_append_new;
    [by apply H|].
  destruct (tree_within_edges_of V tree key H) as [Hnd Hin].
  split_and!; [done| |].
  - apply NoDup_app. split_and!; [done| |apply NoDup_singleton].
    intros e He ->%list_elem_of_singleton. done.
  - intros e [He| ->%list_elem_of_singleton]%elem_of_app; [by apply Hin|done].
Qed.

Lemma tree_within_preorder V item tree :
  visit_node item ∈ V →
  (∀ p, visit_parent item = Some p → p ∈ V) →
  tree_within V tree → tree_within V (preorder item tree).
Proof.
  destruct item as [[[parent parent_edge] v] v_edge]. simpl.
  intros Hv Hp H.
  destruct parent as [parent|]; [|done].
  destruct parent_edge as [parent_edge|]; [|done].
  destruct v_edge as [v_edge|]; [|done].
  destruct (_ && _); [|done]. unfold record_edge.
  specialize (Hp parent eq_refl).
  apply tree_within_append_new; [done..|].
  apply tree_within_ensure_key; [done|].
  apply tree_within_append_new; [done..|].
  by apply tree_within_ensure_key.
Qed.

Lemma elem_of_push_edges v node to_visit item :
  item ∈ push_edges v node to_visit →
  item ∈ to_visit
  ∨ ∃ e, e ∈ node ∧
      item = (Some v, Some (edge_field e), edge_node e, Some (edge_far_field e)).
Proof.
  unfold push_edges. revert to_visit.
  induction node as [|e node IH]; intros to_visit; simpl; [by left|].
  intros [[Hin|Hin]%elem_of_cons|(e' & He' & ->)]%IH.
  - right. exists e. split; [left|done].
  - by left.
  - right. exists e'. split; [by right|done].
Qed.

Lemma length_push_edges v node to_visit :
  length (push_edges v node to_visit) = length node + length to_visit.
Proof.
  unfold push_edges. revert to_visit.
  induction node as [|e node IH]; intros to_visit; simpl; [done|].
  rewrite IH. simpl. lia.
Qed.

Lemma traversal_inv_init graph nodes start :
  traversal_inv graph (qbe_tree_init nodes start).
Proof.
  split; simpl.
  - set_solver.
  - intros item p ->%list_elem_of_singleton. done.
  - intros k edges. by rewrite lookup_empty.
Qed.

Lemma traversal_inv_body graph st st' :
  traversal_inv graph st → qbe_tree_body graph st = Ok st' →
  traversal_inv graph st'.
Proof.
  intros [Hvis Hq Htree]. unfold qbe_tree_body.
  destruct (st_to_visit st) as [|item to_visit] eqn:Hst; [done|].
  destruct (graph !! item.1.2) as [node|] eqn:Hnode; [|done].
  destruct (bool_decide _ && _) eqn:Hfresh; intros [= <-]; split; simpl.
  - apply andb_prop in Hfresh as [_ Hlen%Nat.ltb_lt].
    intros v [->%elem_of_singleton|Hv]%elem_of_union; [eauto|by apply Hvis].
  - intros it p [Hin|(e & He & ->)]%elem_of_push_edges Hp.
    + apply elem_of_union_r, (Hq it); [by right|done].
    + injection Hp as <-. set_solver.
  - apply (tree_within_preorder _ item).
    + unfold visit_node. set_solver.
    + intros p Hp. apply elem_of_union_r, (Hq item); [left|done].
    + eapply tree_within_mono; [|exact Htree]. set_solver.
  - done.
  - intros it p Hin Hp. apply (Hq it); [by right|done].
  - done.
Qed.

Lemma traversal_inv_traversal graph st st' :
  traversal_inv graph st → traversal graph st st' → traversal_inv graph st'.
Proof.
  intros Hinv Htr. induction Htr as [|st st' st'' _ Hbody _ IH]; [done|].
  by apply IH, (traversal_inv_body graph st).
Qed.

Lemma qbe_tree_loop_traversal graph fuel : ∀ st st',
  qbe_tree_loop fuel graph st = Ok st' →
  traversal graph st st' ∧ qbe_tree_cond st' = false.
Proof.
  induction fuel as [|fuel IH]; intros st st'; simpl;
    destruct (qbe_tree_cond st) eqn:Hcond; try done.
  - intros [= <-]. split; [constructor|done].
  - destruct (qbe_tree_body graph st) as [st1| |] eqn:Hbody; try done.
    simpl. intros [Htr Hend]%IH. split; [|done]. by econstructor.
  - intros [= <-]. split; [constructor|done].
Qed.


(** *** The loop of [qbe_tree] ends *)

Lemma filter_iff_elem_of {A} (P1 P2 : A → Prop)
    `{!∀ x, Decision (P1 x), !∀ x, Decision (P2 x)} (l : list A) :
  (∀ x, x ∈ l → P1 x ↔ P2 x) → filter P1 l = filter P2 l.
Proof.
  induction l as [|a l IH]; intros Hiff; [done|].
  rewrite !filter_cons, IH by (intros x Hx; apply Hiff; by right).
  destruct (decide (P1 a)) as [H1|H1], (decide (P2 a)) as [H2|H2]; try done;
    exfalso; apply (Hiff a (list_elem_of_here _ _)) in H1 || apply (Hiff a (list_elem_of_here _ _)) in H2; done.
Qed.

Lemma unvisited_cost_visit_list (l : list (string * list Edge)) v node
    (visited : gset string) :
  NoDup l.*1 → (v, node) ∈ l → v ∉ visited →
  sum_list_with visit_cost (filter (λ ne, ne.1 ∉ {[v]} ∪ visited) l)
    + S (length node)
  = sum_list_with visit_cost (filter (λ ne, ne.1 ∉ visited) l).
Proof.
  intros Hnd Hin Hv. induction l as [|[k es] l IH]; [by apply elem_of_nil in Hin|].
  rewrite fmap_cons in Hnd. apply NoDup_cons in Hnd as [Hk Hnd].
  apply elem_of_cons in Hin as [[= <- <-]|Hin].
  - rewrite filter_cons_False by set_solver.
    rewrite (filter_cons_True (λ ne, ne.1 ∉ visited)) by done.
    rewrite (filter_iff_elem_of _ (λ ne : string * list Edge, ne.1 ∉ visited) l).
    + cbn [sum_list_with]. unfold visit_cost at 2. simpl. lia.
    + intros [k es] Hkes. simpl. split; [set_solver|].
      intros Hnot [->%elem_of_singleton|?]%elem_of_union; [|done].
      apply Hk, list_elem_of_fmap. by exists (v, es).
  - assert (k ≠ v) as Hne.
    { intros ->. apply Hk, list_elem_of_fmap. by exists (v, node). }
    destruct (decide (k ∈ visited)).
    + rewrite !filter_cons_False by set_solver. by apply IH.
    + rewrite !filter_cons_True by set_solver.
      cbn [sum_list_with]. rewrite <-IH by done. lia.
Qed.

Lemma unvisited_cost_visit (graph : Graph) v node (visited : gset string) :
  graph !! v = Some node → v ∉ visited →
  unvisited_cost graph ({[v]} ∪ visited) + S (length node)
  = unvisited_cost graph visited.
Proof.
  intros Hv Hnot. apply unvisited_cost_visit_list; [|by apply elem_of_map_to_list|done].
  apply NoDup_fst_map_to_list.
Qed.

Lemma rounds_left_body graph st st' :
  qbe_tree_body graph st = Ok st' →
  rounds_left graph st' < rounds_left graph st.
Proof.
  unfold qbe_tree_body, rounds_left.
  destruct (st_to_visit st) as [|item to_visit] eqn:Hst; [done|].
  destruct (graph !! item.1.2) as [node|] eqn:Hnode; [|done].
  destruct (bool_decide _ && _) eqn:Hfresh; intros [= <-]; simpl; [|lia].
  apply andb_prop in Hfresh as [Hnew%bool_decide_eq_true _].
  rewrite length_push_edges.
  pose proof (unvisited_cost_visit graph _ _ _ Hnode Hnew). lia.
Qed.

Lemma qbe_tree_cond_true st :
  qbe_tree_cond st = true → st_to_visit st ≠ [] ∧ st_nodes st ≠ [].
Proof.
  unfold qbe_tree_cond. intros [H1 H2]%andb_prop.
  split; intros Heq; rewrite Heq in *; done.
Qed.

Lemma qbe_tree_loop_fuel graph fuel : ∀ st,
  rounds_left graph st ≤ fuel → qbe_tree_loop fuel graph st ≠ OutOfFuel.
Proof.
  induction fuel as [|fuel IH]; intros st Hfuel; simpl;
    destruct (qbe_tree_cond st) eqn:Hcond; try done.
  - apply qbe_tree_cond_true in Hcond as [Hq _]. unfold rounds_left in Hfuel.
    destruct (st_to_visit st); [done|simpl in Hfuel; lia].
  - destruct (qbe_tree_body graph st) as [st1|e|] eqn:Hbody; simpl; [|done|].
    + apply IH. apply rounds_left_body in Hbody. lia.
    + unfold qbe_tree_body in Hbody. by repeat case_match.
Qed.

Lemma rounds_left_init graph nodes start :
  rounds_left graph (qbe_tree_init nodes start) = tree_fuel graph.
Proof. done. Qed.

Lemma size_le_unvisited_cost (graph : Graph) :
  size graph ≤ unvisited_cost graph ∅.
Proof.
  unfold unvisited_cost. rewrite <-length_map_to_list.
  induction (map_to_list graph) as [|x l IH]; [done|].
  rewrite filter_cons_True by set_solver.
  cbn [sum_list_with length]. unfold visit_cost at 1. lia.
Qed.


(** *** Results of [qbe_tree] *)

Lemma remove_leafs_loop_sound nodes fuel : ∀ tree tree',
  remove_leafs_loop fuel tree nodes (get_leafs tree nodes) 0 = Ok tree' →
  get_leafs tree' nodes = [] ∧ tree_sub tree' tree.
Proof.
  induction fuel as [|fuel IH]; intros tree tree'; cbn [remove_leafs_loop];
    rewrite remove_leafs_cond_zero;
    destruct (get_leafs tree nodes) as [|leaf leafs] eqn:Hleafs;
    cbn [length Nat.eqb negb]; try done.
  - intros [= <-]. split; [done|apply tree_sub_refl].
  - intros [= <-]. split; [done|apply tree_sub_refl].
  - destruct (prune_round_Ok (leaf :: leafs) tree) as (t1 & -> & _ & Hsub).
    cbn [mbind result_bind]. intros [Hnone Hsub']%IH.
    split; [done|by eapply tree_sub_trans].
Qed.

Lemma choose_start_root rnd nodes root :
  root ≠ "" → choose_start rnd nodes (Some root) = Ok root.
Proof.
  intros Hroot. unfold choose_start, truthy. by rewrite bool_decide_eq_true_2.
Qed.

Lemma qbe_tree_unfold fuel rnd graph nodes root tree all :
  qbe_tree fuel rnd graph nodes root = Ok (tree, all) →
  ∃ start st,
    choose_start rnd nodes root = Ok start
    ∧ qbe_tree_loop fuel graph (qbe_tree_init nodes start) = Ok st
    ∧ remove_leafs fuel (st_tree st) nodes = Ok tree
    ∧ all = bool_decide (length (st_nodes st) = 0).
Proof.
  unfold qbe_tree.
  destruct (choose_start rnd nodes root) as [start| |]; try done.
  cbn [mbind result_bind].
  destruct (qbe_tree_loop fuel graph _) as [st| |] eqn:Hloop; try done.
  cbn [mbind result_bind].
  destruct (remove_leafs fuel (st_tree st) nodes) as [t| |] eqn:Hrm; try done.
  cbn [mbind result_bind]. intros [= <- <-]. by exists start, st.
Qed.

(** Totality: with [tree_fuel graph] the fuel never runs out, on any
    graph, required list and root. *)
Lemma qbe_tree_fuel fuel rnd graph nodes root :
  tree_fuel graph ≤ fuel → qbe_tree fuel rnd graph nodes root ≠ OutOfFuel.
Proof.
  intros Hfuel. unfold qbe_tree.
  destruct (choose_start rnd nodes root) as [start|e|] eqn:Hstart; try done.
  - cbn [mbind result_bind].
    destruct (qbe_tree_loop fuel graph _) as [st|e|] eqn:Hloop; try done.
    + cbn [mbind result_bind].
      apply qbe_tree_loop_traversal in Hloop as [Htr _].
      apply traversal_inv_traversal in Htr; [|apply traversal_inv_init].
      destruct (remove_leafs_loop_Ok nodes (size (st_tree st)) (st_tree st))
        as (t & Hrm & _); [done|].
      unfold remove_leafs. rewrite Hrm; [done|].
      etrans; [|exact Hfuel]. unfold tree_fuel.
      etrans; [|apply Nat.le_succ_diag_r].
      etrans; [|apply size_le_unvisited_cost].
      rewrite <-!size_dom. apply subseteq_size.
      intros k [edges Hk]%elem_of_dom.
      destruct (inv_tree _ _ Htr _ _ Hk) as (Hvis & _).
      destruct (inv_visited _ _ Htr _ Hvis) as (node & Hnode & _).
      by apply elem_of_dom_2 in Hnode.
    + by apply qbe_tree_loop_fuel in Hloop.
  - unfold choose_start in Hstart. by repeat case_match.
Qed.

(** On a closed graph every popped node is a key, so no round raises. *)
Lemma qbe_tree_loop_closed graph fuel : ∀ st,
  closed_graph graph →
  (∀ item, item ∈ st_to_visit st → visit_node item ∈ dom graph) →
  rounds_left graph st ≤ fuel →
  ∃ st', qbe_tree_loop fuel graph st = Ok st'.
Proof.
  intros st Hclosed. revert st.
  induction fuel as [|fuel IH]; intros st Hq Hfuel; cbn [qbe_tree_loop];
    destruct (qbe_tree_cond st) eqn:Hcond; eauto.
  - apply qbe_tree_cond_true in Hcond as [Hne _]. unfold rounds_left in Hfuel.
    destruct (st_to_visit st); [done|simpl in Hfuel; lia].
  - destruct (qbe_tree_body graph st) as [st1|e|] eqn:Hbody.
    + cbn [mbind result_bind]. apply IH.
      * revert Hbody. unfold qbe_tree_body.
        destruct (st_to_visit st) as [|item to_visit] eqn:Hst; [done|].
        destruct (graph !! item.1.2) as [node|] eqn:Hnode; [|done].
        destruct (_ && _); intros [= <-]; simpl.
        -- intros it [Hin|(e & He & ->)]%elem_of_push_edges.
           ++ apply Hq. by right.
           ++ unfold visit_node. simpl. by eapply Hclosed.
        -- intros it Hin. apply Hq. by right.
      * apply rounds_left_body in Hbody. lia.
    + exfalso. revert Hbody. unfold qbe_tree_body.
      apply qbe_tree_cond_true in Hcond as [Hne _].
      destruct (st_to_visit st) as [|item to_visit] eqn:Hst; [done|].
      specialize (Hq item ltac:(left)).
      apply elem_of_dom in Hq as [node Hnode]. unfold visit_node in Hnode.
      rewrite Hnode. by case_match.
    + exfalso. unfold qbe_tree_body in Hbody. by repeat case_match.
Qed.

(** Totality on the graphs [qbe_graph] builds undirected: a call rooted at
    a key returns a tree and a flag. *)
Lemma qbe_tree_returns fuel rnd graph nodes root :
  closed_graph graph → root ∈ dom graph → root ≠ "" →
  tree_fuel graph ≤ fuel →
  ∃ tree all, qbe_tree fuel rnd graph nodes (Some root) = Ok (tree, all).
Proof.
  intros Hclosed Hroot Hne Hfuel.
  pose proof (qbe_tree_fuel fuel rnd graph nodes (Some root) Hfuel) as Hnot.
  revert Hnot. unfold qbe_tree. rewrite choose_start_root by done.
  cbn [mbind result_bind].
  destruct (qbe_tree_loop_closed graph fuel (qbe_tree_init nodes root))
    as [st ->]; [done| |by rewrite rounds_left_init|].
  { intros item ->%list_elem_of_singleton. done. }
  cbn [mbind result_bind].
  destruct (remove_leafs fuel (st_tree st) nodes) as [t|e|] eqn:Hrm;
    cbn [mbind result_bind]; [eauto| |done].
  exfalso. revert Hrm. unfold remove_leafs.
  generalize (st_tree st). clear. intros tree.
  revert tree. induction fuel as [|fuel IH]; intros tree;
    cbn [remove_leafs_loop]; rewrite remove_leafs_cond_zero;
    destruct (negb _); try done.
  destruct (prune_round_Ok (get_leafs tree nodes) tree) as (t1 & -> & _).
  cbn [mbind result_bind]. apply IH.
Qed.

Lemma qbe_tree_empty_nodes fuel rnd graph root :
  root ≠ "" → qbe_tree fuel rnd graph [] (Some root) = Ok (∅, true).
Proof.
  intros Hroot. unfold qbe_tree. rewrite choose_start_root by done.
  cbn [mbind result_bind].
  assert (qbe_tree_loop fuel graph (qbe_tree_init [] root)
          = Ok (qbe_tree_init [] root)) as -> by by destruct fuel.
  cbn [mbind result_bind]. unfold remove_leafs.
  assert (get_leafs (st_tree (qbe_tree_init [] root)) [] = []) as ->.
  { unfold get_leafs. simpl. by rewrite map_to_list_empty. }
  destruct fuel; cbn [remove_leafs_loop]; by rewrite remove_leafs_cond_zero.
Qed.

(** Without a root the start is drawn from the required list, and nothing
    can be drawn from an empty one. *)
Lemma qbe_tree_empty_nodes_no_root fuel rnd graph :
  qbe_tree fuel rnd graph [] None = Raise ValueError.
Proof. done. Qed.

(** C10.  With an empty required list and a root that is given (a
    non-empty identifier), [qbe_tree] does not enter its loop: whatever the
    graph, and whether or not the root is one of its keys, it returns the
    empty tree with the flag [True].  No fuel is needed. *)
Theorem qbe_tree_no_required (fuel rnd : nat) (graph : Graph) (root : string) :
  root ≠ "" →
  qbe_tree fuel rnd graph [] (Some root) = Ok (∅, true).
Proof. apply qbe_tree_empty_nodes. Qed.

(** C4, as the code has it.  When the root is no key of the graph (so also
    on the empty graph), the first round looks the root up in the graph:
    with a non-empty required list the call raises [KeyError] for the
    root, and with an empty one the loop is not entered and the call
    returns the empty tree with the flag [True].  The flag [False] is
    never returned here. *)
Theorem qbe_tree_absent_root (fuel rnd : nat) (graph : Graph)
    (nodes : list string) (root : string) :
  root ≠ "" → graph !! root = None →
  qbe_tree (S fuel) rnd graph nodes (Some root)
  = match nodes with
    | [] => Ok (∅, true)
    | _ :: _ => Raise (KeyError root)
    end.
Proof.
  intros Hroot Habsent. destruct nodes as [|n nodes].
  - by apply qbe_tree_empty_nodes.
  - unfold qbe_tree. rewrite choose_start_root by done.
    cbn [mbind result_bind qbe_tree_loop].
    assert (qbe_tree_cond (qbe_tree_init (n :: nodes) root) = true) as ->
      by done.
    unfold qbe_tree_body. simpl. by rewrite Habsent.
Qed.

(** C5, as the code has it.  In every state the traversal of [qbe_tree]
    goes through, each node of the working tree has at least two edges in
    the graph and no edge is recorded twice under a node.  The test on the
    number of edges makes no exception: a required node with fewer than two
    graph edges is not added either. *)
Theorem traversal_tree_nodes (graph : Graph) (nodes : list string)
    (start : string) (st : tstate) (k : string) (edges : list Edge) :
  traversal graph (qbe_tree_init nodes start) st →
  st_tree st !! k = Some edges →
  (∃ node, graph !! k = Some node ∧ 2 ≤ length node) ∧ NoDup edges.
Proof.
  intros Htr Hk.
  apply traversal_inv_traversal in Htr; [|apply traversal_inv_init].
  destruct (inv_tree _ _ Htr _ _ Hk) as (Hvis & Hnd & _).
  destruct (inv_visited _ _ Htr _ Hvis) as (node & Hnode & Hlen).
  split; [|done]. exists node. split; [done|lia].
Qed.

(** C6.  A tree returned by [qbe_tree] only has nodes of the graph, as keys
    and as neighbours in its edges, and each of its nodes that is not in
    the required list has at least two recorded edges. *)
Theorem qbe_tree_result_nodes (fuel rnd : nat) (graph : Graph)
    (nodes : list string) (root : option string) (tree : Tree) (all : bool)
    (k : string) (edges : list Edge) :
  qbe_tree fuel rnd graph nodes root = Ok (tree, all) →
  tree !! k = Some edges →
  k ∈ dom graph
  ∧ (k ∉ nodes → 2 ≤ length edges)
  ∧ (∀ e, e ∈ edges → edge_node e ∈ dom graph).
Proof.
  intros (start & st & _ & Hloop & Hrm & _)%qbe_tree_unfold Hk.
  apply qbe_tree_loop_traversal in Hloop as [Htr _].
  apply traversal_inv_traversal in Htr; [|apply traversal_inv_init].
  apply remove_leafs_loop_sound in Hrm as [Hnone Hsub].
  destruct (Hsub _ _ Hk) as (edges0 & Hk0 & Hincl).
  destruct (inv_tree _ _ Htr _ _ Hk0) as (Hvis & _ & Hnb).
  assert (∀ v, v ∈ st_visited st → v ∈ dom graph) as Hdom.
  { intros v Hv. destruct (inv_visited _ _ Htr _ Hv) as (node & Hnode & _).
    by apply elem_of_dom_2 in Hnode. }
  split_and!.
  - by apply Hdom.
  - intros Hreq. destruct (decide (length edges < 2)) as [Hlt|]; [|lia].
    assert (k ∈ get_leafs tree nodes) as Hin
      by (apply elem_of_get_leafs; eauto).
    rewrite Hnone in Hin. by apply elem_of_nil in Hin.
  - intros e He. apply Hdom, Hnb, Hincl, He.
Qed.


(** ** [sorted] *)

Section sorted_by_len_facts.
Context {A : Type} (len : A → nat).

Lemma insert_by_len_Permutation x l : insert_by_len len x l ≡ₚ x :: l.
Proof.
  induction l as [|y l IH]; simpl; [done|].
  destruct (decide (len x ≤ len y)); [done|].
  rewrite IH. apply Permutation_swap.
Qed.

Lemma sorted_by_len_Permutation l : sorted_by_len len l ≡ₚ l.
Proof.
  induction l as [|x l IH]; simpl; [done|].
  by rewrite insert_by_len_Permutation, IH.
Qed.

Lemma insert_by_len_Sorted x l :
  Sorted (λ a b, len a ≤ len b) l →
  Sorted (λ a b, len a ≤ len b) (insert_by_len len x l).
Proof.
  induction 1 as [|y l Hl IH Hhd]; simpl.
  - by repeat constructor.
  - destruct (decide (len x ≤ len y)).
    + by repeat constructor.
    + constructor; [done|].
      destruct Hhd as [|z l Hyz]; simpl.
      * constructor. lia.
      * destruct (decide (len x ≤ len z)); constructor; lia.
Qed.

Lemma sorted_by_len_Sorted l :
  StronglySorted (λ a b, len a ≤ len b) (sorted_by_len len l).
Proof.
  apply Sorted_StronglySorted.
  - intros a b c. lia.
  - induction l as [|x l IH]; simpl; [constructor|].
    by apply insert_by_len_Sorted.
Qed.
End sorted_by_len_facts.

(** ** [qbe_forest] *)

Lemma qbe_forest_step_Ok fuel rnd graph nodes acc item forest :
  qbe_forest_step fuel rnd graph nodes acc item = Ok forest →
  ∃ forest0, acc = Ok forest0 ∧
    (forest = forest0
     ∨ ∃ tree, forest = forest0 ++ [tree] ∧ (tree ∉ forest0)
         ∧ qbe_tree fuel (rnd item.1) graph nodes (Some item.1) = Ok (tree, true)).
Proof.
  unfold qbe_forest_step. destruct acc as [forest0| |]; try done.
  cbn [mbind result_bind]. exists forest0. split; [done|].
  destruct (qbe_tree fuel _ graph nodes _) as [[tree all]| |] eqn:Htree;
    try done.
  cbn [mbind result_bind] in H.
  destruct all; simpl in H.
  - destruct (bool_decide (tree ∉ forest0)) eqn:Hnew; injection H as <-.
    + right. exists tree. by apply bool_decide_eq_true in Hnew.
    + by left.
  - injection H as <-. by left.
Qed.

Lemma qbe_forest_loop_Ok fuel rnd graph nodes items : ∀ acc forest,
  foldl (qbe_forest_step fuel rnd graph nodes) acc items = Ok forest →
  ∃ forest0, acc = Ok forest0 ∧
    (NoDup forest0 → NoDup forest) ∧
    ∀ tree, tree ∈ forest → tree ∈ forest0 ∨
      ∃ item, item ∈ items ∧
        qbe_tree fuel (rnd item.1) graph nodes (Some item.1) = Ok (tree, true).
Proof.
  induction items as [|item items IH]; intros acc forest; simpl.
  - intros ->. exists forest. split_and!; [done..|]. by left.
  - intros (forest1 & Hstep & Hnd & Hin)%IH.
    apply qbe_forest_step_Ok in Hstep as (forest0 & -> & Hcase).
    exists forest0. split; [done|].
    destruct Hcase as [->|(tree & -> & Hnew & Htree)].
    + split; [done|]. intros t [?|(it & ? & ?)]%Hin; [by left|].
      right. exists it. split; [by right|done].
    + split.
      * intros Hnd0. apply Hnd, NoDup_app. split_and!; [done| |apply NoDup_singleton].
        by intros x Hx ->%list_elem_of_singleton.
      * intros t [[?| ->%list_elem_of_singleton]%elem_of_app|(it & ? & ?)]%Hin.
        -- by left.
        -- right. exists item. split; [left|done].
        -- right. exists it. split; [by right|done].
Qed.

(** C7.  Every tree [qbe_forest] returns comes from an extraction rooted
    at a node of the graph that reported all required nodes reached; no
    tree occurs twice; and the list is in non-decreasing order of node
    count. *)
Theorem qbe_forest_spec (fuel : nat) (rnd : string → nat) (graph : Graph)
    (nodes : list string) (forest : list Tree) :
  qbe_forest fuel rnd graph nodes = Ok forest →
  Forall (λ tree, ∃ root, root ∈ dom graph ∧
            qbe_tree fuel (rnd root) graph nodes (Some root) = Ok (tree, true))
         forest
  ∧ NoDup forest
  ∧ StronglySorted (λ t1 t2, size t1 ≤ size t2) forest.
Proof.
  unfold qbe_forest.
  destruct (foldl _ _ _) as [forest0| |] eqn:Hloop; try done.
  cbn [mbind result_bind]. intros [= <-].
  apply qbe_forest_loop_Ok in Hloop as (f & [= <-] & Hnd & Hin).
  split_and!.
  - apply Forall_forall. intros tree Htree.
    rewrite sorted_by_len_Permutation in Htree.
    destruct (Hin _ Htree) as [?%elem_of_nil|([root edges] & Hitem & Hrun)];
      [done|].
    exists root. split; [|done].
    apply elem_of_map_to_list in Hitem. by apply elem_of_dom_2 in Hitem.
  - rewrite sorted_by_len_Permutation. apply Hnd. constructor.
  - apply sorted_by_len_Sorted.
Qed.

(** Totality of [qbe_forest]: the fuel of one extraction covers them all. *)
Lemma qbe_forest_fuel fuel rnd graph nodes :
  tree_fuel graph ≤ fuel → qbe_forest fuel rnd graph nodes ≠ OutOfFuel.
Proof.
  intros Hfuel. unfold qbe_forest.
  assert (∀ items acc, acc ≠ OutOfFuel →
            foldl (qbe_forest_step fuel rnd graph nodes) acc items ≠ OutOfFuel)
    as Hloop.
  { induction items as [|item items IH]; intros acc Hacc; simpl; [done|].
    apply IH. unfold qbe_forest_step. destruct acc as [f| |]; try done.
    cbn [mbind result_bind].
    pose proof (qbe_tree_fuel fuel (rnd item.1) graph nodes (Some item.1) Hfuel).
    destruct (qbe_tree fuel _ graph nodes _) as [[tree all]| |]; try done.
    cbn [mbind result_bind]. by destruct (_ && _). }
  specialize (Hloop (map_to_list graph) (Ok []) ltac:(done)).
  by destruct (foldl _ _ _).
Qed.

Lemma qbe_forest_returns fuel rnd graph nodes :
  closed_graph graph → "" ∉ dom graph → tree_fuel graph ≤ fuel →
  ∃ forest, qbe_forest fuel rnd graph nodes = Ok forest.
Proof.
  intros Hclosed Hne Hfuel. unfold qbe_forest.
  assert (∀ items f, (∀ item, item ∈ items → item.1 ∈ dom graph) →
            ∃ f', foldl (qbe_forest_step fuel rnd graph nodes) (Ok f) items
                  = Ok f') as Hloop.
  { induction items as [|item items IH]; intros f Hitems; cbn [foldl]; [eauto|].
    destruct (qbe_tree_returns fuel (rnd item.1) graph nodes item.1)
      as (tree & all & Hrun); [done|apply Hitems; left| |done|].
    { intros Heq. apply Hne. rewrite <-Heq. apply Hitems. left. }
    assert (∃ f1, qbe_forest_step fuel rnd graph nodes (Ok f) item = Ok f1)
      as [f1 ->].
    { unfold qbe_forest_step. cbn [mbind result_bind]. rewrite Hrun.
      cbn [mbind result_bind]. destruct (_ && _); eauto. }
    apply IH. intros it Hit. apply Hitems. by right. }
  destruct (Hloop (map_to_list graph) []) as [f ->]; [|by eexists].
  intros [k edges] Hin%elem_of_map_to_list. by apply elem_of_dom_2 in Hin.
Qed.


(** ** [find_all_paths] *)

Lemma find_all_paths_unfold fuel graph start end_ path :
  find_all_paths (S fuel) graph start end_ path =
  if decide (start = end_) then Ok [path ++ [start]]
  else match graph !! start with
       | None => Ok []
       | Some adj =>
           items ← adjacency_items adj;
           foldl (find_all_paths_step fuel graph end_ (path ++ [start]))
                 (Ok []) items
       end.
Proof. done. Qed.

Lemma find_all_paths_sound fuel graph end_ : ∀ start path paths,
  NoDup path → start ∉ path →
  find_all_paths fuel graph start end_ path = Ok paths →
  Forall (path_ok (path ++ [start]) end_) paths.
Proof.
  induction fuel as [|fuel IH]; intros start path paths Hnd Hstart; [done|].
  rewrite find_all_paths_unfold.
  assert (NoDup (path ++ [start])) as Hnd'.
  { apply NoDup_app. split_and!; [done| |apply NoDup_singleton].
    by intros x Hx ->%list_elem_of_singleton. }
  destruct (decide (start = end_)) as [->|Hne].
  { intros [= <-]. apply Forall_singleton.
    split_and!; [done|done|apply last_snoc]. }
  destruct (graph !! start) as [adj|]; [|by intros [= <-]].
  destruct (adjacency_items adj) as [items| |]; try done.
  cbn [mbind result_bind].
  generalize (path ++ [start]) Hnd'. clear Hnd Hstart Hnd'. intros pre Hpre.
  assert (∀ acc, foldl (find_all_paths_step fuel graph end_ pre) acc items
                 = Ok paths →
          ∃ acc0, acc = Ok acc0 ∧
            (Forall (path_ok pre end_) acc0 → Forall (path_ok pre end_) paths))
    as Hloop.
  { clear Hne. revert paths. induction items as [|item items IHi];
      intros paths acc; cbn [foldl].
    - intros ->. eauto.
    - intros (acc1 & Hstep & Hacc1)%IHi. revert Hstep.
      unfold find_all_paths_step. destruct acc as [acc0| |]; try done.
      cbn [mbind result_bind]. exists acc0. split; [done|]. intros Hacc0.
      apply Hacc1. revert Hstep.
      destruct (decide (item.2.1 ∉ pre)) as [Hnew|]; [|by intros [= <-]].
      destruct (find_all_paths fuel graph item.2.1 end_ pre) as [new| |]
        eqn:Hrec; try done.
      cbn [mbind result_bind]. intros [= <-].
      apply Forall_app. split; [done|].
      apply IH in Hrec; [|done..].
      eapply Forall_impl; [exact Hrec|].
      intros p (? & Hp & ?). split_and!; [done| |done].
      by eapply prefix_app_l. }
  intros (acc0 & [= <-] & Hok)%Hloop. apply Hok. constructor.
Qed.

(** Totality: the nodes of [path] are left out of the search, so the depth
    of the recursion stays under the number of keys not yet on the path. *)
Lemma find_all_paths_total fuel (graph : PathGraph) end_ : ∀ start path,
  start ∉ path → size (dom graph ∖ list_to_set path) < fuel →
  (∃ paths, find_all_paths fuel graph start end_ path = Ok paths)
  ∨ (find_all_paths fuel graph start end_ path = Raise AttributeError
     ∧ ¬ dict_graph graph).
Proof.
  induction fuel as [|fuel IH]; intros start path Hstart Hfuel; [lia|].
  rewrite find_all_paths_unfold.
  destruct (decide (start = end_)) as [->|Hne]; [eauto|].
  destruct (graph !! start) as [adj|] eqn:Hadj; [|eauto].
  destruct adj as [edges|fields]; cbn [adjacency_items mbind result_bind].
  { right. split; [done|]. intros Hdict.
    by destruct (Hdict _ _ Hadj) as [fields ?]. }
  assert (size (dom graph ∖ list_to_set (path ++ [start])) < fuel) as Hfuel'.
  { eapply Nat.lt_le_trans; [|apply Nat.lt_succ_r, Hfuel].
    apply subset_size. apply elem_of_dom_2 in Hadj.
    rewrite list_to_set_app_L. split; [set_solver|].
    intros Hsub. specialize (Hsub start). set_solver. }
  generalize (map_to_list fields). intros items.
  assert (∀ acc, (∃ paths, acc = Ok paths)
                 ∨ (acc = Raise AttributeError ∧ ¬ dict_graph graph) →
    (∃ paths, foldl (find_all_paths_step fuel graph end_ (path ++ [start]))
                acc items = Ok paths)
    ∨ (foldl (find_all_paths_step fuel graph end_ (path ++ [start]))
         acc items = Raise AttributeError ∧ ¬ dict_graph graph)) as Hloop.
  { induction items as [|item items IHi]; intros acc Hacc; cbn [foldl]; [done|].
    apply IHi. destruct Hacc as [[acc0 ->]|[-> Hnd]]; [|by right].
    unfold find_all_paths_step. cbn [mbind result_bind].
    destruct (decide (item.2.1 ∉ path ++ [start])) as [Hnew|]; [|eauto].
    destruct (IH item.2.1 (path ++ [start]) Hnew Hfuel') as [[new ->]|[-> ?]];
      cbn [mbind result_bind]; eauto. }
  apply Hloop. eauto.
Qed.

(** C3.  With fuel above the number of nodes of the graph:
    [find_all_paths g a a] is the single path [[a]]; every path returned
    by [find_all_paths g a b] has no node twice (and runs from [a] to
    [b]); on a graph of dictionaries the call does return; and when [a] is
    not [b] and has no outgoing edge, no path is returned. *)
Theorem find_all_paths_spec (fuel : nat) (graph : PathGraph) (a b : string) :
  size graph < fuel →
  find_all_paths fuel graph a a [] = Ok [[a]]
  ∧ (∀ paths, find_all_paths fuel graph a b [] = Ok paths →
       Forall (λ p, NoDup p ∧ head p = Some a ∧ last p = Some b) paths)
  ∧ (dict_graph graph → ∃ paths, find_all_paths fuel graph a b [] = Ok paths)
  ∧ (a ≠ b → no_out_edges graph a → find_all_paths fuel graph a b [] = Ok []).
Proof.
  intros Hfuel. split_and!.
  - destruct fuel as [|fuel]; [lia|]. rewrite find_all_paths_unfold.
    by rewrite decide_True.
  - intros paths Hrun%find_all_paths_sound; [|constructor|apply not_elem_of_nil].
    eapply Forall_impl; [exact Hrun|].
    intros p (Hnd & [k ->] & Hlast). done.
  - intros Hdict.
    destruct (find_all_paths_total fuel graph b a []) as [?|[_ ?]];
      [apply not_elem_of_nil| |done..].
    simpl. rewrite difference_empty_L, size_dom. done.
  - intros Hne Hout. destruct fuel as [|fuel]; [lia|].
    rewrite find_all_paths_unfold, decide_False by done.
    by destruct Hout as [-> | ->].
Qed.


(** ** [qbe_graph] keeps every relation *)

Lemma edges_of_ensure_key key (g : Graph) k :
  edges_of (ensure_key key g) k = edges_of g k.
Proof.
  unfold ensure_key. destruct (g !! key) eqn:Hkey; [done|].
  unfold edges_of. destruct (decide (key = k)) as [<-|Hne].
  - by rewrite lookup_insert_eq, Hkey.
  - by rewrite lookup_insert_ne.
Qed.

Lemma edges_of_append_new key value (g : Graph) k e :
  e ∈ edges_of (append_new key value g) k ↔
  e ∈ edges_of g k ∨ (k = key ∧ e = value).
Proof.
  unfold append_new. destruct (decide (value ∈ edges_of g key)) as [Hin|Hnew].
  - split; [by left|]. by intros [?|[-> ->]].
  - unfold edges_of at 1. destruct (decide (key = k)) as [<-|Hne].
    + rewrite lookup_insert_eq. simpl. rewrite elem_of_app, list_elem_of_singleton.
      naive_solver.
    + rewrite lookup_insert_ne by done. naive_solver.
Qed.

Lemma edges_of_drop_if_empty key (g : Graph) k :
  edges_of (drop_if_empty key g) k = edges_of g k.
Proof.
  unfold drop_if_empty. destruct (edges_of g key) eqn:Hkey; [|done].
  unfold edges_of in *. destruct (decide (key = k)) as [<-|Hne].
  - by rewrite lookup_delete_eq, Hkey.
  - by rewrite lookup_delete_ne.
Qed.

#[local] Instance graph_le_preorder : PreOrder graph_le.
Proof.
  split; [by intros g k e|]. intros g1 g2 g3 H12 H23 k e He. by apply H23, H12.
Qed.

(** A loop of steps that only add edges keeps what any one step added. *)
Lemma foldl_graph_le {X} (f : Graph → X → Graph) (Q : X → Graph → Prop) :
  (∀ g x, graph_le g (f g x)) →
  (∀ g x, Q x (f g x)) →
  (∀ x g g', graph_le g g' → Q x g → Q x g') →
  ∀ l g, graph_le g (foldl f g l) ∧ ∀ x, x ∈ l → Q x (foldl f g l).
Proof.
  intros Hmono Hadd Hup. induction l as [|y l IH]; intros g; simpl.
  - split; [reflexivity|]. by intros x ?%elem_of_nil.
  - destruct (IH (f g y)) as [Hle Hin].
    split; [etrans; [apply Hmono|exact Hle]|].
    intros x [->|Hx]%elem_of_cons; [|by apply Hin].
    eapply Hup; [exact Hle|apply Hadd].
Qed.

Lemma add_relation_edges_le directed key g r :
  graph_le g (add_relation_edges directed key g r).
Proof.
  intros k e He. unfold add_relation_edges. destruct directed.
  - apply edges_of_append_new. by left.
  - apply edges_of_append_new. left. rewrite edges_of_ensure_key.
    apply edges_of_append_new. by left.
Qed.

Lemma relation_kept_le directed key r g g' :
  graph_le g g' → relation_kept directed key r g → relation_kept directed key r g'.
Proof. intros Hle [H1 H2]. split; [by apply Hle|]. intros Hd. by apply Hle, H2. Qed.

Lemma add_relation_edges_kept directed key g r :
  relation_kept directed key r (add_relation_edges directed key g r).
Proof.
  unfold add_relation_edges. destruct directed; split; try done.
  - apply edges_of_append_new. by right.
  - apply edges_of_append_new. left. rewrite edges_of_ensure_key.
    apply edges_of_append_new. by right.
  - intros _. apply edges_of_append_new. by right.
Qed.

Lemma add_model_le directed k g lw : graph_le g (add_model directed k g lw).
Proof.
  unfold add_model. intros key e He. rewrite edges_of_drop_if_empty.
  apply (foldl_graph_le _ (relation_kept directed (dotted k lw.1))).
  - apply add_relation_edges_le.
  - apply add_relation_edges_kept.
  - intros x. apply relation_kept_le.
  - by rewrite edges_of_ensure_key.
Qed.

Lemma add_model_kept directed k g lw r :
  r ∈ model_relations lw.2 →
  relation_kept directed (dotted k lw.1) r (add_model directed k g lw).
Proof.
  intros Hr. unfold add_model.
  destruct (foldl_graph_le (add_relation_edges directed (dotted k lw.1))
              (relation_kept directed (dotted k lw.1))
              (add_relation_edges_le _ _) (add_relation_edges_kept _ _)
              (λ x, relation_kept_le _ _ x)
              (model_relations lw.2) (ensure_key (dotted k lw.1) g))
    as [_ Hin].
  destruct (Hin r Hr) as [H1 H2]. split.
  - by rewrite edges_of_drop_if_empty.
  - intros Hd. rewrite edges_of_drop_if_empty. by apply H2.
Qed.

Lemma add_app_le directed g kv : graph_le g (add_app directed g kv).
Proof.
  unfold add_app.
  apply (foldl_graph_le (add_model directed kv.1) (λ _ _, True)); try done.
  intros g' lw. apply add_model_le.
Qed.

Lemma add_app_kept directed g kv lw r :
  lw ∈ map_to_list kv.2 → r ∈ model_relations lw.2 →
  relation_kept directed (dotted kv.1 lw.1) r (add_app directed g kv).
Proof.
  intros Hlw Hr. unfold add_app.
  destruct (foldl_graph_le (add_model directed kv.1)
              (λ lw g, ∀ r, r ∈ model_relations lw.2 →
                 relation_kept directed (dotted kv.1 lw.1) r g)
              (λ g lw, add_model_le directed kv.1 g lw))
    with (l := map_to_list kv.2) (g := g) as [_ Hin].
  - intros g' lw' r' Hr'. by apply add_model_kept.
  - intros lw' g1 g2 Hle Hk r' Hr'. eapply relation_kept_le; [done|]. by apply Hk.
  - by apply Hin.
Qed.

Lemma elem_of_edges_of_dom (g : Graph) k e : e ∈ edges_of g k → k ∈ dom g.
Proof.
  unfold edges_of. destruct (g !! k) as [edges|] eqn:Hk; simpl.
  - intros _. by apply elem_of_dom_2 in Hk.
  - by intros ?%elem_of_nil.
Qed.

(** C2, as the code has it.  [qbe_graph] has no failure path: it is a total
    function, and for every relation of every model of the schema,
    whether or not its target is in the catalog, the graph holds the edge
    of the relation under the source entity; in undirected mode the
    target (or through) entity is moreover a key of the graph and holds
    the reciprocal edge. *)
Theorem qbe_graph_keeps_relations (models : Models) (directed : bool)
    (app name : string) (ms : gmap string Model) (w : Model) (r : Relation) :
  models !! app = Some ms → ms !! name = Some w → r ∈ model_relations w →
  dotted app name ∈ dom (qbe_graph models directed)
  ∧ relation_value r ∈ edges_of (qbe_graph models directed) (dotted app name)
  ∧ (directed = false →
     relation_model r ∈ dom (qbe_graph models directed)
     ∧ relation_target_value (dotted app name) r
         ∈ edges_of (qbe_graph models directed) (relation_model r)).
Proof.
  intros Happ Hname Hr.
  assert (relation_kept directed (dotted app name) r (qbe_graph models directed))
    as [Hfwd Hback].
  { unfold qbe_graph.
    destruct (foldl_graph_le (add_app directed)
                (λ kv g, ∀ lw r, lw ∈ map_to_list kv.2 →
                   r ∈ model_relations lw.2 →
                   relation_kept directed (dotted kv.1 lw.1) r g)
                (add_app_le directed))
      with (l := map_to_list models) (g := (∅ : Graph)) as [_ Hin].
    - intros g kv lw r' Hlw Hr'. by apply add_app_kept.
    - intros kv g1 g2 Hle Hk lw r' Hlw Hr'. eapply relation_kept_le; [done|].
      by apply Hk.
    - apply (Hin (app, ms)) with (lw := (name, w)); [|simpl|done].
      + by apply elem_of_map_to_list.
      + by apply elem_of_map_to_list. }
  split_and!; [by eapply elem_of_edges_of_dom|done|].
  intros Hd. split; [eapply elem_of_edges_of_dom|]; by apply Hback.
Qed.


(** ** Edge symmetry of [qbe_graph] *)

Lemma foldl_invariant {S X} (P : S → Prop) (Q : X → Prop) (f : S → X → S) :
  (∀ s x, Q x → P s → P (f s x)) →
  ∀ l s, (∀ x, x ∈ l → Q x) → P s → P (foldl f s l).
Proof.
  intros Hstep. induction l as [|y l IH]; intros s Hl Hs; simpl; [done|].
  apply IH; [intros x Hx; apply Hl; by right|].
  apply Hstep; [apply Hl; left|done].
Qed.

Lemma symmetric_edges_of (g g' : Graph) :
  (∀ k, edges_of g' k = edges_of g k) → symmetric g → symmetric g'.
Proof. intros Heq Hsym key e. rewrite !Heq. apply Hsym. Qed.

Lemma relation_value_agree key r :
  fields_agree r →
  relation_value r = mirror (relation_model r) (relation_target_value key r)
  ∧ relation_target_value key r = mirror key (relation_value r)
  ∧ edge_node (relation_value r) = relation_model r
  ∧ edge_node (relation_target_value key r) = key.
Proof.
  unfold fields_agree, relation_value, relation_model, relation_target_value,
    mirror, edge_node, edge_field, edge_far_field.
  destruct (target_through (relation_target r)) as [through|]; simpl.
  - by intros ->.
  - done.
Qed.

Lemma add_relation_edges_symmetric key g r :
  fields_agree r → symmetric g →
  symmetric (add_relation_edges false key g r).
Proof.
  intros Hr Hsym k e. unfold add_relation_edges.
  destruct (relation_value_agree key r Hr) as (Hv & Ht & Hnv & Hnt).
  rewrite !edges_of_append_new, !edges_of_ensure_key, !edges_of_append_new.
  intros [[He|[-> ->]]|[-> ->]].
  - left. left. by apply Hsym.
  - right. by rewrite Hnv.
  - left. right. by rewrite Hnt.
Qed.

Lemma add_model_symmetric k g lw :
  (∀ r, r ∈ model_relations lw.2 → fields_agree r) →
  symmetric g → symmetric (add_model false k g lw).
Proof.
  intros Hr Hsym. unfold add_model.
  eapply symmetric_edges_of; [apply edges_of_drop_if_empty|].
  apply (foldl_invariant symmetric fields_agree); [|done|].
  - intros s r. apply add_relation_edges_symmetric.
  - eapply symmetric_edges_of; [apply edges_of_ensure_key|done].
Qed.

(** The graph is edge-symmetric as soon as no through model has a key
    field named differently from the key field of the target. *)
Lemma qbe_graph_symmetric (models : Models) :
  (∀ app ms name w r, models !! app = Some ms → ms !! name = Some w →
     r ∈ model_relations w → fields_agree r) →
  symmetric (qbe_graph models false).
Proof.
  intros Hagree. unfold qbe_graph.
  apply (foldl_invariant symmetric
           (λ kv : string * gmap string Model, models !! kv.1 = Some kv.2)).
  - intros g [app ms] Happ Hsym. unfold add_app. simpl in *.
    apply (foldl_invariant symmetric
             (λ lw : string * Model, ms !! lw.1 = Some lw.2)); [| |done].
    + intros g' [name w] Hname Hsym'. apply add_model_symmetric; [|done].
      intros r Hin. by eapply Hagree.
    + intros [name w] Hin. by apply elem_of_map_to_list.
  - intros [app ms] Hin. by apply elem_of_map_to_list.
  - intros key e. unfold edges_of. rewrite lookup_empty. by intros ?%elem_of_nil.
Qed.

(** ** [autocomplete_graph] *)

Lemma autocomplete_graph_short fuel models current_models directed :
  length current_models < 2 →
  autocomplete_graph fuel models current_models directed = Ok None.
Proof.
  intros Hlen. unfold autocomplete_graph.
  by apply Nat.ltb_lt in Hlen as ->.
Qed.

Lemma autocomplete_pair_Raise fuel graph current_models e pairs :
  foldl (autocomplete_pair fuel graph current_models) (Raise e) pairs = Raise e.
Proof. by induction pairs. Qed.

(** With two different models up front, the first of them a node of the
    graph, the first call of [find_all_paths] reaches [.items()] on the edge
    list of that node. *)
Lemma autocomplete_graph_raises fuel models directed c d rest :
  c ≠ d → c ∈ dom (qbe_graph models directed) →
  autocomplete_graph (S fuel) models (c :: d :: rest) directed
  = Raise AttributeError.
Proof.
  intros Hne [edges Hc]%elem_of_dom. unfold autocomplete_graph.
  cbn [length Nat.ltb Nat.leb combinations2 fmap list_fmap app foldl].
  unfold autocomplete_pair at 2. cbn [mbind result_bind fst snd].
  rewrite find_all_paths_unfold, decide_False by done.
  rewrite lookup_fmap, Hc. cbn [fmap option_fmap option_map adjacency_items
    mbind result_bind].
  by rewrite autocomplete_pair_Raise.
Qed.

(** C9, on the shop schema.  With one selected model the call returns
    [None], and with two models that are not nodes of the graph it returns
    the empty list.  With [Shop.Order] and [Shop.Customer], which a foreign
    key connects directly, it returns no list: [find_all_paths] asks the
    edge list of [Shop.Order] for [items] and the call raises
    [AttributeError]. *)
Theorem autocomplete_graph_connected_pair :
  edges_of (qbe_graph shop false) "Shop.Order"
    = [("customer", "Shop.Customer", "id"); ("product", "Shop.Product", "id")]
  ∧ autocomplete_graph 5 shop ["Shop.Order"; "Shop.Customer"] false
    = Raise AttributeError
  ∧ autocomplete_graph 5 shop ["Shop.Order"] false = Ok None
  ∧ autocomplete_graph 5 shop ["Shop.Invoice"; "Shop.Refund"] false
    = Ok (Some []).
Proof. split_and!; vm_compute; reflexivity. Qed.


(** ** The undirected graph of [qbe_graph] is closed *)

Lemma relation_value_node r : edge_node (relation_value r) = relation_model r.
Proof.
  unfold relation_value, relation_model, edge_node.
  by destruct (target_through (relation_target r)).
Qed.

Lemma add_relation_edges_targets key g r :
  targets_hold_edges g → targets_hold_edges (add_relation_edges false key g r).
Proof.
  intros Hg k e He.
  assert (relation_value r ∈ edges_of (add_relation_edges false key g r) key
          ∧ relation_target_value key r
              ∈ edges_of (add_relation_edges false key g r) (relation_model r))
    as [Hfwd Hback].
  { destruct (add_relation_edges_kept false key g r) as [? Hb]. split; [done|].
    by apply Hb. }
  revert He. unfold add_relation_edges at 1.
  rewrite !edges_of_append_new, !edges_of_ensure_key, !edges_of_append_new.
  intros [[He|[-> ->]]|[-> ->]].
  - destruct (Hg _ _ He) as [e' He']. exists e'.
    by apply add_relation_edges_le.
  - rewrite relation_value_node. eauto.
  - eauto.
Qed.

Lemma targets_hold_edges_of (g g' : Graph) :
  (∀ k, edges_of g' k = edges_of g k) →
  targets_hold_edges g → targets_hold_edges g'.
Proof.
  intros Heq Hg k e. rewrite Heq. intros [e' He']%Hg. exists e'. by rewrite Heq.
Qed.

Lemma qbe_graph_targets (models : Models) :
  targets_hold_edges (qbe_graph models false).
Proof.
  unfold qbe_graph.
  apply (foldl_invariant targets_hold_edges (λ _, True)); [|done|].
  - intros g kv _ Hg. unfold add_app.
    apply (foldl_invariant targets_hold_edges (λ _, True)); [|done|done].
    intros g' lw _ Hg'. unfold add_model.
    eapply targets_hold_edges_of; [apply edges_of_drop_if_empty|].
    apply (foldl_invariant targets_hold_edges (λ _, True)); [|done|].
    + intros g'' r _. apply add_relation_edges_targets.
    + eapply targets_hold_edges_of; [apply edges_of_ensure_key|done].
  - intros k e. unfold edges_of. rewrite lookup_empty. by intros ?%elem_of_nil.
Qed.

Lemma qbe_graph_closed (models : Models) :
  closed_graph (qbe_graph models false).
Proof.
  intros k edges e Hk He.
  destruct (qbe_graph_targets models k e) as [e' He'].
  - unfold edges_of. by rewrite Hk.
  - by eapply elem_of_edges_of_dom.
Qed.

Lemma dotted_nonempty a b : dotted a b ≠ "".
Proof. unfold dotted. by destruct a. Qed.

Lemma dom_ensure_key key (g : Graph) k :
  k ∈ dom (ensure_key key g) → k = key ∨ k ∈ dom g.
Proof.
  unfold ensure_key. destruct (g !! key); [by right|].
  rewrite dom_insert_L. set_solver.
Qed.

Lemma dom_append_new key value (g : Graph) k :
  k ∈ dom (append_new key value g) → k = key ∨ k ∈ dom g.
Proof.
  unfold append_new. destruct (decide _); [by right|].
  rewrite dom_insert_L. set_solver.
Qed.

Lemma dom_drop_if_empty key (g : Graph) k :
  k ∈ dom (drop_if_empty key g) → k ∈ dom g.
Proof.
  unfold drop_if_empty. destruct (edges_of g key); [|done].
  rewrite dom_delete_L. set_solver.
Qed.

Lemma relation_model_nonempty r : relation_model r ≠ "".
Proof.
  unfold relation_model.
  destruct (target_through (relation_target r)); apply dotted_nonempty.
Qed.

Lemma qbe_graph_keys_nonempty (models : Models) directed :
  "" ∉ dom (qbe_graph models directed).
Proof.
  unfold qbe_graph.
  apply (foldl_invariant (λ g : Graph, "" ∉ dom g) (λ _, True)); [|done|set_solver].
  intros g kv _ Hg. unfold add_app.
  apply (foldl_invariant (λ g : Graph, "" ∉ dom g) (λ _, True)); [|done|done].
  intros g' lw _ Hg'. unfold add_model.
  intros Hin%dom_drop_if_empty. revert Hin.
  apply (foldl_invariant (λ g : Graph, "" ∉ dom g) (λ _, True)); [|done|].
  - intros g'' r _ Hg''. unfold add_relation_edges.
    destruct directed.
    + intros [Heq|?]%dom_append_new; [|done].
      by apply (dotted_nonempty kv.1 lw.1).
    + intros [Heq|[Heq|[Heq|?]%dom_append_new]%dom_ensure_key]%dom_append_new;
        [by apply (relation_model_nonempty r)..| |done].
      by apply (dotted_nonempty kv.1 lw.1).
  - intros [Heq|?]%dom_ensure_key; [|done].
    by apply (dotted_nonempty kv.1 lw.1).
Qed.

(** On the undirected graph of any schema, the forest assembler returns. *)
Lemma qbe_forest_qbe_graph_returns (models : Models) fuel rnd nodes :
  tree_fuel (qbe_graph models false) ≤ fuel →
  ∃ forest, qbe_forest fuel rnd (qbe_graph models false) nodes = Ok forest.
Proof.
  apply qbe_forest_returns;
    [apply qbe_graph_closed|apply qbe_graph_keys_nonempty].
Qed.


(** ** The claims on the sample schemas *)

Example shop_graph_built : qbe_graph shop false = shop_graph.
Proof. vm_compute. reflexivity. Qed.

(** C1, on the school schema.  Built undirected, the graph holds the edge
    [(courses, School.Enrollment, id)] under [School.Student], but under
    [School.Enrollment] the reciprocal entry is
    [(code, School.Student, courses)]: it carries the key field of the
    target [Course], not the key field [id] of the through model, so the
    mirror [(id, School.Student, courses)] is missing. *)
Theorem qbe_graph_through_mirror :
  edges_of (qbe_graph school false) "School.Student"
    = [("courses", "School.Enrollment", "id")]
  ∧ edges_of (qbe_graph school false) "School.Enrollment"
    = [("code", "School.Student", "courses")]
  ∧ ("id", "School.Student", "courses")
      ∉ edges_of (qbe_graph school false) "School.Enrollment".
Proof.
  assert (qbe_graph school false
          = {[ "School.Student" := [("courses", "School.Enrollment", "id")];
               "School.Enrollment" := [("code", "School.Student", "courses")] ]})
    as -> by (vm_compute; reflexivity).
  split_and!; [done|done|]. unfold edges_of. simpl.
  intros [=]%list_elem_of_singleton.
Qed.

(** C2, the claim as stated fails: the order points at [Crm.Customer],
    which is not in the catalog, and [qbe_graph] returns a graph in both
    modes, with the relation kept as an edge. *)
Lemma qbe_graph_dangling_kept :
  dangling orphan "Shop" "Order" (foreign_key "customer" "Crm" "Customer" "id")
  ∧ qbe_graph orphan false
    = {[ "Shop.Order" := [("customer", "Crm.Customer", "id")];
         "Crm.Customer" := [("id", "Shop.Order", "customer")] ]}
  ∧ qbe_graph orphan true
    = {[ "Shop.Order" := [("customer", "Crm.Customer", "id")] ]}.
Proof.
  split_and!; [|vm_compute; reflexivity..].
  eexists _, _. split_and!; [reflexivity|reflexivity|left|compute_done].
Qed.

Lemma qbe_graph_keeps_relations_witness :
  "Shop.Order" ∈ dom (qbe_graph orphan false)
  ∧ ("customer", "Crm.Customer", "id")
      ∈ edges_of (qbe_graph orphan false) "Shop.Order"
  ∧ (false = false →
     "Crm.Customer" ∈ dom (qbe_graph orphan false)
     ∧ ("id", "Shop.Order", "customer")
         ∈ edges_of (qbe_graph orphan false) "Crm.Customer").
Proof.
  apply (qbe_graph_keeps_relations orphan false "Shop" "Order"
           {[ "Order" := orphan_order ]} orphan_order
           (foreign_key "customer" "Crm" "Customer" "id"));
    [reflexivity|reflexivity|left].
Defined.

(** C4, the claim as stated fails: with a root that is no key of the
    graph, or on the empty graph, the call raises [KeyError] when a node is
    required and returns the flag [True] when none is. *)
Lemma qbe_tree_absent_root_raises :
  shop_graph !! "Shop.Invoice" = None
  ∧ qbe_tree 1 0 shop_graph ["Shop.Customer"] (Some "Shop.Invoice")
    = Raise (KeyError "Shop.Invoice")
  ∧ qbe_tree 1 0 ∅ ["Shop.Customer"] (Some "Shop.Customer")
    = Raise (KeyError "Shop.Customer")
  ∧ qbe_tree 1 0 shop_graph [] (Some "Shop.Invoice") = Ok (∅, true).
Proof. split_and!; vm_compute; reflexivity. Qed.

Lemma qbe_tree_absent_root_witness :
  qbe_tree 1 0 shop_graph ["Shop.Customer"] (Some "Shop.Invoice")
  = Raise (KeyError "Shop.Invoice").
Proof.
  apply (qbe_tree_absent_root 0 0 shop_graph ["Shop.Customer"] "Shop.Invoice");
    [discriminate|reflexivity].
Defined.

(** C5, the claim as stated fails: [Shop.Customer] is required, has one
    graph edge, and is popped from [to_visit] with its parent and both
    fields set; the traversal ends with every required node consumed and
    an empty working tree. *)
Lemma traversal_skips_required_leaf :
  "Shop.Customer" ∈ ["Shop.Customer"; "Shop.Product"]
  ∧ edges_of shop_graph "Shop.Customer" = [("id", "Shop.Order", "customer")]
  ∧ qbe_tree_loop 3 shop_graph
      (qbe_tree_init ["Shop.Customer"; "Shop.Product"] "Shop.Order")
    = Ok {| st_to_visit := []; st_nodes := [];
            st_visited := {["Shop.Order"]}; st_tree := ∅ |}.
Proof. split_and!; [left|reflexivity|vm_compute; reflexivity]. Qed.

Lemma traversal_tree_nodes_witness :
  (∃ node, ring !! "D" = Some node ∧ 2 ≤ length node)
  ∧ NoDup [("da", "A", "ad") : Edge; ("dc", "C", "cd")].
Proof.
  apply (traversal_tree_nodes ring ["A"; "C"] "A"
           {| st_to_visit := [(Some "C", Some "cd", "D", Some "dc");
                              (Some "C", Some "cb", "B", Some "bc");
                              (Some "A", Some "ab", "B", Some "ba")];
              st_nodes := [];
              st_visited := {["A"; "C"; "D"]};
              st_tree := {[ "A" := [("ad", "D", "da")];
                            "C" := [("cd", "D", "dc")];
                            "D" := [("da", "A", "ad"); ("dc", "C", "cd")] ]} |}
           "D").
  - apply (qbe_tree_loop_traversal ring 4). vm_compute. reflexivity.
  - reflexivity.
Defined.

Lemma qbe_tree_result_nodes_witness :
  "D" ∈ dom ring
  ∧ ("D" ∉ ["A"; "C"] → 2 ≤ length [("da", "A", "ad") : Edge; ("dc", "C", "cd")])
  ∧ (∀ e, e ∈ [("da", "A", "ad") : Edge; ("dc", "C", "cd")] →
       edge_node e ∈ dom ring).
Proof.
  apply (qbe_tree_result_nodes 13 0 ring ["A"; "C"] (Some "A")
           {[ "A" := [("ad", "D", "da")];
              "C" := [("cd", "D", "dc")];
              "D" := [("da", "A", "ad"); ("dc", "C", "cd")] ]} true "D").
  - vm_compute. reflexivity.
  - reflexivity.
Defined.

Lemma qbe_forest_spec_witness :
  ∃ forest, qbe_forest 13 (λ _, 0) ring ["A"; "C"] = Ok forest
  ∧ length forest = 3
  ∧ Forall (λ tree, ∃ root, root ∈ dom ring ∧
              qbe_tree 13 0 ring ["A"; "C"] (Some root) = Ok (tree, true))
           forest
  ∧ NoDup forest
  ∧ StronglySorted (λ t1 t2, size t1 ≤ size t2) forest.
Proof.
  destruct (qbe_forest 13 (λ _, 0) ring ["A"; "C"]) as [forest| |] eqn:Hrun;
    [|by vm_compute in Hrun..].
  exists forest. split; [done|]. split.
  - vm_compute in Hrun. by injection Hrun as <-.
  - exact (qbe_forest_spec 13 (λ _, 0) ring ["A"; "C"] forest Hrun).
Defined.

Lemma find_all_paths_spec_witness :
  find_all_paths 5 ring_paths "A" "A" [] = Ok [["A"]]
  ∧ find_all_paths 5 ring_paths "A" "C" []
    = Ok [["A"; "B"; "C"]; ["A"; "D"; "C"]]
  ∧ Forall (λ p, NoDup p ∧ head p = Some "A" ∧ last p = Some "C")
           [["A"; "B"; "C"]; ["A"; "D"; "C"]]
  ∧ find_all_paths 5 ring_paths "Z" "C" [] = Ok [].
Proof.
  destruct (find_all_paths_spec 5 ring_paths "A" "C") as (Hself & Hsimple & _).
  - vm_compute. lia.
  - destruct (find_all_paths_spec 5 ring_paths "Z" "C") as (_ & _ & _ & Hnone).
    + vm_compute. lia.
    + split; [exact Hself|]. split; [vm_compute; reflexivity|]. split.
      * apply Hsimple. vm_compute. reflexivity.
      * apply Hnone; [discriminate|]. left. reflexivity.
Defined.

Lemma qbe_tree_no_required_witness :
  qbe_tree 0 0 shop_graph [] (Some "Shop.Invoice") = Ok (∅, true).
Proof. apply qbe_tree_no_required. discriminate. Defined.


(** ** More on [qbe_graph]: where edges come from, what keys it keeps *)

Lemma qbe_graph_relation_kept models directed app name r :
  relation_of models app name r →
  relation_kept directed (dotted app name) r (qbe_graph models directed).
Proof.
  intros (ms & w & Happ & Hname & Hr). unfold qbe_graph.
  destruct (foldl_graph_le (add_app directed)
              (λ kv g, ∀ lw r, lw ∈ map_to_list kv.2 →
                 r ∈ model_relations lw.2 →
                 relation_kept directed (dotted kv.1 lw.1) r g)
              (add_app_le directed))
    with (l := map_to_list models) (g := (∅ : Graph)) as [_ Hin].
  - intros g kv lw r' Hlw Hr'. by apply add_app_kept.
  - intros kv g1 g2 Hle Hk lw r' Hlw Hr'. eapply relation_kept_le; [done|].
    by apply Hk.
  - apply (Hin (app, ms)) with (lw := (name, w)); [|simpl|done].
    + by apply elem_of_map_to_list.
    + by apply elem_of_map_to_list.
Qed.

(** A loop over the models of a schema keeps what each step keeps when the
    step is told which model it handles. *)
Lemma qbe_graph_invariant (P : Graph → Prop) models directed :
  P ∅ →
  (∀ app name w g, (∃ ms, models !! app = Some ms ∧ ms !! name = Some w) →
     P g → P (add_model directed app g (name, w))) →
  P (qbe_graph models directed).
Proof.
  intros Hempty Hstep. unfold qbe_graph.
  apply (foldl_invariant P
           (λ kv : string * gmap string Model, models !! kv.1 = Some kv.2));
    [|by intros [app ms] ?%elem_of_map_to_list|done].
  intros g [app ms] Happ Hg. unfold add_app. simpl in *.
  apply (foldl_invariant P (λ lw : string * Model, ms !! lw.1 = Some lw.2));
    [|by intros [name w] ?%elem_of_map_to_list|done].
  intros g' [name w] Hname Hg'. apply Hstep; [|done]. by exists ms.
Qed.

Lemma add_relation_edges_origin models directed app name r g :
  relation_of models app name r →
  (∀ k e, e ∈ edges_of g k → edge_origin models directed k e) →
  ∀ k e, e ∈ edges_of (add_relation_edges directed (dotted app name) g r) k →
    edge_origin models directed k e.
Proof.
  intros Hr Hg k e. unfold add_relation_edges. destruct directed.
  - rewrite edges_of_append_new. intros [He|[-> ->]]; [by apply Hg|].
    left. by exists app, name, r.
  - rewrite !edges_of_append_new, !edges_of_ensure_key, !edges_of_append_new.
    intros [[He|[-> ->]]|[-> ->]]; [by apply Hg| |].
    + left. by exists app, name, r.
    + right. split; [done|]. by exists app, name, r.
Qed.

(** Every edge of the graph stems from a relation of the schema, and every
    relation of the schema is in the graph. *)
Theorem qbe_graph_edges (models : Models) (directed : bool)
    (k : string) (e : Edge) :
  e ∈ edges_of (qbe_graph models directed) k ↔ edge_origin models directed k e.
Proof.
  split.
  - revert k e. apply (qbe_graph_invariant
      (λ g, ∀ k e, e ∈ edges_of g k → edge_origin models directed k e)).
    + intros k e. unfold edges_of. rewrite lookup_empty. by intros ?%elem_of_nil.
    + intros app name w g (ms & Happ & Hname) Hg k e. unfold add_model. simpl.
      rewrite edges_of_drop_if_empty. revert k e.
      apply (foldl_invariant
        (λ g, ∀ k e, e ∈ edges_of g k → edge_origin models directed k e)
        (λ r, r ∈ model_relations w)); [|done|].
      * intros g' r Hr Hg'. apply add_relation_edges_origin; [|done].
        by exists ms, w.
      * intros k e. rewrite edges_of_ensure_key. apply Hg.
  - intros [(app & name & r & Hr & -> & ->)|[-> (app & name & r & Hr & -> & ->)]].
    + by destruct (qbe_graph_relation_kept models directed app name r Hr).
    + destruct (qbe_graph_relation_kept models false app name r Hr) as [_ Hb].
      by apply Hb.
Qed.

Lemma lookup_append_new_nil key value (g : Graph) k :
  append_new key value g !! k = Some [] → g !! k = Some [] ∧ k ≠ key.
Proof.
  unfold append_new. destruct (decide (value ∈ edges_of g key)) as [Hin|Hnew].
  - intros Hk. split; [done|]. intros ->. unfold edges_of in Hin.
    rewrite Hk in Hin. by apply elem_of_nil in Hin.
  - destruct (decide (key = k)) as [<-|Hne].
    + rewrite lookup_insert_eq. intros [= Heq]. by destruct (edges_of g key).
    + rewrite lookup_insert_ne by done. done.
Qed.

Lemma add_relation_edges_empty_only_at directed key g r :
  empty_only_at key g → empty_only_at key (add_relation_edges directed key g r).
Proof.
  intros Hg k. unfold add_relation_edges. destruct directed.
  - intros [Hk _]%lookup_append_new_nil. by apply Hg.
  - intros [Hk Hne]%lookup_append_new_nil.
    apply lookup_ensure_key in Hk as [[Hk _]%lookup_append_new_nil|(-> & _)];
      [by apply Hg|done].
Qed.

(** No node of the graph is left with an empty edge list: a model without
    relations is a node only if a relation points at it. *)
Theorem qbe_graph_no_empty_list (models : Models) (directed : bool)
    (k : string) :
  qbe_graph models directed !! k ≠ Some [].
Proof.
  revert k. apply (qbe_graph_invariant no_empty_list).
  - intros k. by rewrite lookup_empty.
  - intros app name w g _ Hg. unfold add_model. simpl.
    set (key := dotted app name).
    assert (empty_only_at key
      (foldl (add_relation_edges directed key) (ensure_key key g)
         (model_relations w))) as Hloop.
    { apply (foldl_invariant (empty_only_at key) (λ _, True)); [|done|].
      - intros g' r _. apply add_relation_edges_empty_only_at.
      - intros k [Hk|(-> & _)]%lookup_ensure_key; [by apply Hg in Hk|done]. }
    intros k Hk. revert Hk. unfold drop_if_empty.
    destruct (edges_of _ key) as [|e edges] eqn:Hkey.
    + intros [Hne Hk]%lookup_delete_Some. by apply Hloop in Hk.
    + intros Hk. pose proof (Hloop _ Hk) as ->.
      unfold edges_of in Hkey. by rewrite Hk in Hkey.
Qed.

(** Edges are deduplicated by value: no edge list holds an edge twice. *)
Theorem qbe_graph_edges_NoDup (models : Models) (directed : bool)
    (k : string) (edges : list Edge) :
  qbe_graph models directed !! k = Some edges → NoDup edges.
Proof.
  revert k edges. apply (qbe_graph_invariant edges_NoDup).
  - intros k edges. by rewrite lookup_empty.
  - intros app name w g _ Hg. unfold add_model. simpl.
    assert (∀ key value g, edges_NoDup g → edges_NoDup (append_new key value g))
      as Happend.
    { intros key value g0 Hg0 k edges
        [Hk|(-> & -> & Hnew)]%lookup_append_new; [by eapply Hg0|].
      apply NoDup_app. split_and!; [|set_solver|apply NoDup_singleton].
      unfold edges_of. destruct (g0 !! key) eqn:Hkey; [by eapply Hg0|constructor]. }
    assert (∀ key g, edges_NoDup g → edges_NoDup (ensure_key key g)) as Hensure.
    { intros key g0 Hg0 k edges [Hk|(-> & -> & _)]%lookup_ensure_key;
        [by eapply Hg0|constructor]. }
    intros k edges Hk. 
    assert (edges_NoDup
      (foldl (add_relation_edges directed (dotted app name))
         (ensure_key (dotted app name) g) (model_relations w))) as Hloop.
    { apply (foldl_invariant edges_NoDup (λ _, True)); [|done|by apply Hensure].
      intros g' r _ Hg'. unfold add_relation_edges.
      destruct directed; [by apply Happend|].
      by apply Happend, Hensure, Happend. }
    revert Hk. unfold drop_if_empty. destruct (edges_of _ _).
    + intros [_ Hk]%lookup_delete_Some. by eapply Hloop.
    + by apply Hloop.
Qed.

(** The nodes of the graph: an entity is a key exactly when a relation of
    the schema starts at it or, in undirected mode, is filed under it. *)
Theorem qbe_graph_nodes (models : Models) (directed : bool) (k : string) :
  k ∈ dom (qbe_graph models directed) ↔ ∃ e, edge_origin models directed k e.
Proof.
  split.
  - intros [edges Hk]%elem_of_dom. destruct edges as [|e edges].
    + by apply qbe_graph_no_empty_list in Hk.
    + exists e. apply qbe_graph_edges. unfold edges_of. rewrite Hk. left.
  - intros [e He%qbe_graph_edges]. by eapply elem_of_edges_of_dom.
Qed.


(** ** More on [qbe_tree]: what the tree is made of *)

Lemma traversal_invariant (P : tstate → Prop) graph st st' :
  (∀ s s', P s → qbe_tree_body graph s = Ok s' → P s') →
  P st → traversal graph st st' → P st'.
Proof.
  intros Hstep Hst Htr. induction Htr as [|s s1 s2 _ Hbody _ IH]; [done|].
  apply IH. by eapply Hstep.
Qed.

Lemma qbe_tree_body_Ok graph st st' :
  qbe_tree_body graph st = Ok st' →
  ∃ item to_visit node,
    st_to_visit st = item :: to_visit
    ∧ graph !! visit_node item = Some node
    ∧ st_nodes st' = (if decide (visit_node item ∈ st_nodes st)
                      then remove_first (visit_node item) (st_nodes st)
                      else st_nodes st)
    ∧ (((visit_node item ∉ st_visited st) ∧ 1 < length node
        ∧ st_to_visit st' = push_edges (visit_node item) node to_visit
        ∧ st_visited st' = {[visit_node item]} ∪ st_visited st
        ∧ st_tree st' = preorder item (st_tree st))
       ∨ (st_to_visit st' = to_visit
          ∧ st_visited st' = st_visited st
          ∧ st_tree st' = st_tree st)).
Proof.
  unfold qbe_tree_body, visit_node.
  destruct (st_to_visit st) as [|item to_visit]; [done|].
  destruct (graph !! item.1.2) as [node|] eqn:Hnode; [|done].
  destruct (bool_decide _ && _) eqn:Hfresh; intros [= <-];
    exists item, to_visit, node; simpl; split_and!; try done.
  - apply andb_prop in Hfresh as [Hnew%bool_decide_eq_true Hlen%Nat.ltb_lt].
    left. by split_and!.
  - by right.
Qed.

Lemma edges_of_preorder item tree k e :
  e ∈ edges_of (preorder item tree) k →
  e ∈ edges_of tree k
  ∨ ∃ parent edge, visit_edge item = Some (parent, edge)
      ∧ ((k = parent ∧ e = edge)
         ∨ (k = edge_node edge ∧ e = mirror parent edge)).
Proof.
  destruct item as [[[parent parent_edge] v] v_edge]. simpl.
  destruct parent as [parent|]; [|by left].
  destruct parent_edge as [parent_edge|]; [|by left].
  destruct v_edge as [v_edge|]; [|by left].
  destruct (_ && _); [|by left]. unfold record_edge.
  rewrite !edges_of_append_new, !edges_of_ensure_key, !edges_of_append_new,
    !edges_of_ensure_key.
  intros [[He|[-> ->]]|[-> ->]]; [by left|right..];
    exists parent, (parent_edge, v, v_edge); split; auto.
Qed.

Lemma elem_of_remove_first_ne {A} `{EqDecision A} (x y : A) l :
  y ∈ l → y ≠ x → y ∈ remove_first x l.
Proof.
  induction l as [|z l IH]; simpl; [done|].
  intros [->|Hy]%elem_of_cons Hne.
  - rewrite decide_False by done. left.
  - destruct (decide (x = z)); [done|]. right. by apply IH.
Qed.

Lemma mirror_mirror k e : mirror (edge_node e) (mirror k e) = e.
Proof. by destruct e as [[f n] g]. Qed.

Lemma edge_node_mirror k e : edge_node (mirror k e) = k.
Proof. done. Qed.

(** Entries pushed for an edge carry an edge of the graph. *)
Lemma visit_edge_push_edges (graph : Graph) v node to_visit item parent edge :
  graph !! v = Some node →
  item ∈ push_edges v node to_visit →
  visit_edge item = Some (parent, edge) →
  item ∈ to_visit ∨ (parent = v ∧ edge ∈ node).
Proof.
  intros Hv [Hin|(e & He & ->)]%elem_of_push_edges; [by left|].
  simpl. intros [= <- <-]. right. split; [done|]. by destruct e as [[??]?].
Qed.

Lemma traversal_tree_from_graph graph nodes start st :
  traversal graph (qbe_tree_init nodes start) st →
  tree_from_graph graph (st_tree st).
Proof.
  intros Htr.
  cut ((∀ item parent edge, item ∈ st_to_visit st →
          visit_edge item = Some (parent, edge) → edge ∈ edges_of graph parent)
       ∧ tree_from_graph graph (st_tree st)); [by intros [_ ?]|].
  pattern st. eapply traversal_invariant; [| |exact Htr]; cbn beta.
  - intros s s' [Hq Ht] (item & to_visit & node & Hs & Hnode & _ & Hcase)%qbe_tree_body_Ok.
    destruct Hcase as [(_ & _ & -> & _ & ->)|(-> & _ & ->)].
    + split.
      * intros it parent edge Hit Hedge.
        destruct (visit_edge_push_edges _ _ _ _ _ _ _ Hnode Hit Hedge)
          as [Hin|[-> Hin]].
        -- apply (Hq it); [|done]. rewrite Hs. by right.
        -- unfold edges_of. by rewrite Hnode.
      * intros k e [He|(parent & edge & Hedge & Hcase)]%edges_of_preorder;
          [by apply Ht|].
        assert (edge ∈ edges_of graph parent) as Hg.
        { apply (Hq item); [rewrite Hs; left|done]. }
        destruct Hcase as [[-> ->]|[-> ->]]; [by left|right].
        by rewrite mirror_mirror, edge_node_mirror.
    + split; [|done]. intros it parent edge Hit. apply Hq. rewrite Hs. by right.
  - split.
    + intros item parent edge ->%list_elem_of_singleton. done.
    + intros k e. unfold edges_of. simpl. rewrite lookup_empty.
      by intros ?%elem_of_nil.
Qed.

Lemma tree_sub_edges_of tree' tree k e :
  tree_sub tree' tree → e ∈ edges_of tree' k → e ∈ edges_of tree k.
Proof.
  intros Hsub. unfold edges_of at 1.
  destruct (tree' !! k) as [edges'|] eqn:Hk; simpl; [|by intros ?%elem_of_nil].
  destruct (Hsub _ _ Hk) as (edges & Hk' & Hincl). unfold edges_of.
  rewrite Hk'. apply Hincl.
Qed.

(** X: the edges of the returned tree are relations of the graph. *)
Lemma qbe_tree_from_graph fuel rnd graph nodes root tree all :
  qbe_tree fuel rnd graph nodes root = Ok (tree, all) →
  tree_from_graph graph tree.
Proof.
  intros (start & st & _ & Hloop & Hrm & _)%qbe_tree_unfold.
  apply qbe_tree_loop_traversal in Hloop as [Htr _].
  apply traversal_tree_from_graph in Htr.
  apply remove_leafs_loop_sound in Hrm as [_ Hsub].
  intros k e He. apply Htr. by eapply tree_sub_edges_of.
Qed.

Lemma qbe_tree_within_graph fuel rnd graph nodes root tree all k e :
  symmetric graph →
  qbe_tree fuel rnd graph nodes root = Ok (tree, all) →
  e ∈ edges_of tree k → e ∈ edges_of graph k.
Proof.
  intros Hsym Hrun He.
  destruct (qbe_tree_from_graph _ _ _ _ _ _ _ Hrun k e He) as [?|Hm]; [done|].
  apply Hsym in Hm. by rewrite mirror_mirror, edge_node_mirror in Hm.
Qed.

(** Reachability: what is popped was reached along edges from the start,
    and a required node leaves the list only when popped as a key. *)
Lemma traversal_reaches graph nodes start st :
  traversal graph (qbe_tree_init nodes start) st →
  ∀ n, n ∈ nodes →
    n ∈ st_nodes st ∨ (n ∈ dom graph ∧ rtc (graph_step graph) start n).
Proof.
  intros Htr.
  cut ((∀ item, item ∈ st_to_visit st →
          rtc (graph_step graph) start (visit_node item))
       ∧ ∀ n, n ∈ nodes →
           n ∈ st_nodes st ∨ (n ∈ dom graph ∧ rtc (graph_step graph) start n));
    [by intros [_ ?]|].
  pattern st. eapply traversal_invariant; [| |exact Htr]; cbn beta.
  - intros s s' [Hq Hn]
      (item & to_visit & node & Hs & Hnode & Hnodes & Hcase)%qbe_tree_body_Ok.
    assert (rtc (graph_step graph) start (visit_node item)) as Hitem.
    { apply Hq. rewrite Hs. left. }
    split.
    + destruct Hcase as [(_ & _ & -> & _)|(-> & _)].
      * intros it [Hin|(e & He & ->)]%elem_of_push_edges.
        -- apply Hq. rewrite Hs. by right.
        -- eapply rtc_r; [exact Hitem|]. exists e. split; [|done].
           unfold edges_of. by rewrite Hnode.
      * intros it Hit. apply Hq. rewrite Hs. by right.
    + intros n [Hin|Hdone]%Hn; [|by right]. rewrite Hnodes.
      destruct (decide (n = visit_node item)) as [->|Hne].
      * right. split; [by apply elem_of_dom_2 in Hnode|done].
      * left. case_decide; [by apply elem_of_remove_first_ne|done].
  - split.
    + intros item ->%list_elem_of_singleton. done.
    + intros n Hn. by left.
Qed.

Lemma qbe_tree_all_reached fuel rnd graph nodes root tree :
  qbe_tree fuel rnd graph nodes root = Ok (tree, true) →
  ∃ start, choose_start rnd nodes root = Ok start
    ∧ ∀ n, n ∈ nodes → n ∈ dom graph ∧ rtc (graph_step graph) start n.
Proof.
  intros (start & st & Hstart & Hloop & _ & Hall)%qbe_tree_unfold.
  exists start. split; [done|]. intros n Hn.
  apply qbe_tree_loop_traversal in Hloop as [Htr _].
  destruct (traversal_reaches _ _ _ _ Htr n Hn) as [Hin|?]; [|done].
  symmetry in Hall. apply bool_decide_eq_true in Hall.
  destruct (st_nodes st); [by apply elem_of_nil in Hin|done].
Qed.

(** Pruning twice is pruning once. *)
Lemma remove_leafs_stable fuel fuel' tree nodes tree' :
  remove_leafs fuel tree nodes = Ok tree' →
  remove_leafs fuel' tree' nodes = Ok tree'.
Proof.
  intros [Hnone _]%remove_leafs_loop_sound. unfold remove_leafs.
  rewrite Hnone. destruct fuel'; cbn [remove_leafs_loop];
    by rewrite remove_leafs_cond_zero.
Qed.


(** ** The tree of [qbe_tree] is symmetric *)

Lemma edges_of_preorder_iff item tree k e :
  e ∈ edges_of (preorder item tree) k ↔
  e ∈ edges_of tree k
  ∨ ∃ parent edge, recorded item = Some (parent, edge)
      ∧ ((k = parent ∧ e = edge)
         ∨ (k = edge_node edge ∧ e = mirror parent edge)).
Proof.
  destruct item as [[[parent parent_edge] v] v_edge]. simpl.
  destruct parent as [parent|]; [|naive_solver].
  destruct parent_edge as [parent_edge|]; [|naive_solver].
  destruct v_edge as [v_edge|]; [|naive_solver].
  destruct (_ && _); [|naive_solver]. unfold record_edge.
  rewrite !edges_of_append_new, !edges_of_ensure_key, !edges_of_append_new,
    !edges_of_ensure_key.
  split.
  - intros [[He|[-> ->]]|[-> ->]]; [by left|right..];
      exists parent, (parent_edge, v, v_edge); split; auto.
  - intros [He|(p & edge & [= <- <-] & [[-> ->]|[-> ->]])]; auto.
Qed.

Lemma recorded_visit item parent edge :
  recorded item = Some (parent, edge) →
  visit_parent item = Some parent ∧ edge_node edge = visit_node item.
Proof.
  destruct item as [[[[p|] [pe|]] v] [ve|]]; simpl; try done.
  destruct (_ && _); [|done]. by intros [= <- <-].
Qed.

Lemma traversal_tidy graph nodes start st :
  traversal graph (qbe_tree_init nodes start) st → tidy (st_tree st).
Proof.
  intros Htr.
  cut (traversal_inv graph st ∧ symmetric (st_tree st) ∧ loop_free (st_tree st)).
  { intros (Hinv & Hsym & Hloop). split_and!; [done..|].
    intros k edges Hk. by destruct (inv_tree _ _ Hinv _ _ Hk) as (_ & ? & _). }
  pattern st. eapply traversal_invariant; [| |exact Htr]; cbn beta.
  - intros s s' (Hinv & Hsym & Hloop) Hbody.
    split; [by eapply traversal_inv_body|].
    apply qbe_tree_body_Ok in Hbody
      as (item & to_visit & node & Hs & Hnode & _ & Hcase).
    destruct Hcase as [(Hnew & _ & _ & _ & ->)|(_ & _ & ->)]; [|done].
    split.
    + intros k e. rewrite !edges_of_preorder_iff.
      intros [He|(parent & edge & Hrec & [[-> ->]|[-> ->]])].
      * left. by apply Hsym.
      * right. exists parent, edge. split; [done|]. by right.
      * right. exists parent, edge. split; [done|]. left.
        by rewrite mirror_mirror, edge_node_mirror.
    + intros k e. rewrite edges_of_preorder_iff.
      intros [He|(parent & edge & Hrec & Hcase)]; [by apply Hloop|].
      apply recorded_visit in Hrec as [Hparent Hv].
      assert (parent ∈ st_visited s) as Hvis.
      { apply (inv_to_visit _ _ Hinv item); [rewrite Hs; left|done]. }
      destruct Hcase as [[-> ->]|[-> ->]].
      * rewrite Hv. by intros <-.
      * rewrite edge_node_mirror, Hv. by intros ->.
  - split; [apply traversal_inv_init|].
    split; intros k e; unfold edges_of; simpl; rewrite lookup_empty;
      by intros ?%elem_of_nil.
Qed.

(** *** Edge lists under deletion while iterating *)

Lemma scan_edges_no_match leaf pending : ∀ current,
  (∀ e, e ∈ pending → edge_node e ≠ leaf) →
  scan_edges leaf current pending = current.
Proof.
  induction pending as [|e pending IH]; intros current Hno; simpl; [done|].
  rewrite decide_False by (intros ->; by apply (Hno e); [left|]).
  apply IH. intros e' He'. apply Hno. by right.
Qed.

Lemma remove_first_middle {A} `{EqDecision A} (x : A) l1 l2 :
  x ∉ l1 → remove_first x (l1 ++ x :: l2) = l1 ++ l2.
Proof.
  induction l1 as [|y l1 IH]; simpl; intros Hx.
  - by rewrite decide_True.
  - rewrite decide_False by set_solver. f_equal. apply IH. set_solver.
Qed.

Lemma filter_all {A} (P : A → Prop) `{!∀ x, Decision (P x)} (l : list A) :
  (∀ x, x ∈ l → P x) → filter P l = l.
Proof.
  induction l as [|x l IH]; intros Hall; [done|].
  rewrite filter_cons_True by (apply Hall; left). f_equal.
  apply IH. intros y Hy. apply Hall. by right.
Qed.

Lemma filter_none {A} (P : A → Prop) `{!∀ x, Decision (P x)} (l : list A) :
  (∀ x, x ∈ l → ¬ P x) → filter P l = [].
Proof.
  induction l as [|x l IH]; intros Hall; [done|].
  rewrite filter_cons_False by (apply Hall; left).
  apply IH. intros y Hy. apply Hall. by right.
Qed.

(** With at most one edge to the leaf in a list, the scan takes that edge
    out and nothing else: the entry it passes over is no edge to the
    leaf. *)
Lemma scan_edges_one_match leaf pending : ∀ done,
  NoDup (done ++ pending) →
  (∀ e, e ∈ done → edge_node e ≠ leaf) →
  length (filter (λ e, edge_node e = leaf) pending) ≤ 1 →
  scan_edges leaf (done ++ pending) pending
  = filter (λ e, edge_node e ≠ leaf) (done ++ pending).
Proof.
  induction pending as [|e pending IH]; intros done Hnd Hdone Hone.
  - simpl. rewrite app_nil_r. symmetry. by apply filter_all.
  - cbn [scan_edges]. destruct (decide (leaf = edge_node e)) as [Hmatch|Hno].
    + rewrite filter_cons_True in Hone by done. simpl in Hone.
      assert (∀ x, x ∈ pending → edge_node x ≠ leaf) as Hrest.
      { intros x Hx Heq.
        assert (x ∈ filter (λ e, edge_node e = leaf) pending) as Hin
          by by apply list_elem_of_filter.
        destruct (filter _ pending); [by apply elem_of_nil in Hin|simpl in Hone; lia]. }
      apply NoDup_app in Hnd as (_ & Hdisj & _).
      rewrite remove_first_middle by (intros Hin; by apply (Hdisj e); [|left]).
      rewrite filter_app, filter_cons_False by (intros ?; done).
      rewrite (filter_all _ done), (filter_all _ pending) by done.
      destruct pending as [|y pending']; [done|].
      apply scan_edges_no_match. intros x Hx. apply Hrest. by right.
    + rewrite (cons_middle e done pending), app_assoc. apply IH.
      * by rewrite <-app_assoc.
      * intros x [Hx| ->%list_elem_of_singleton]%elem_of_app; [by apply Hdone|].
        by intros <-.
      * by rewrite filter_cons_False in Hone by (intros <-; done).
Qed.

Lemma two_elements {A} (x y : A) l : x ∈ l → y ∈ l → x ≠ y → 2 ≤ length l.
Proof.
  intros Hx Hy Hne. destruct l as [|a [|b l]]; simpl; [|exfalso|lia].
  - by apply elem_of_nil in Hx.
  - apply list_elem_of_singleton in Hx, Hy. congruence.
Qed.

Lemma mirror_inj k e1 e2 :
  mirror k e1 = mirror k e2 → edge_node e1 = edge_node e2 → e1 = e2.
Proof.
  destruct e1 as [[f1 n1] g1], e2 as [[f2 n2] g2].
  unfold mirror, edge_node, edge_field, edge_far_field. simpl. congruence.
Qed.

(** In a tidy tree a leaf is the neighbour of at most one edge per list. *)
Lemma leaf_one_match tree leaf k edges :
  tidy tree → length (edges_of tree leaf) < 2 → tree !! k = Some edges →
  length (filter (λ e, edge_node e = leaf) edges) ≤ 1.
Proof.
  intros (Hsym & _ & Hnd) Hleaf Hk.
  destruct (filter _ edges) as [|a [|b rest]] eqn:Hf; simpl; [lia..|].
  exfalso.
  assert (NoDup (a :: b :: rest)) as Hnd'.
  { rewrite <-Hf. apply NoDup_filter. by eapply Hnd. }
  assert (a ∈ filter (λ e, edge_node e = leaf) edges) as Ha
    by (rewrite Hf; left).
  assert (b ∈ filter (λ e, edge_node e = leaf) edges) as Hb
    by (rewrite Hf; right; left).
  apply list_elem_of_filter in Ha as [Hna Ha], Hb as [Hnb Hb].
  assert (a ≠ b) as Hab.
  { intros ->. apply NoDup_cons in Hnd' as [Hnot _]. apply Hnot. left. }
  assert (mirror k a ∈ edges_of tree leaf) as Hma.
  { rewrite <-Hna. apply Hsym. unfold edges_of. by rewrite Hk. }
  assert (mirror k b ∈ edges_of tree leaf) as Hmb.
  { rewrite <-Hnb. apply Hsym. unfold edges_of. by rewrite Hk. }
  assert (mirror k a ≠ mirror k b) as Hne.
  { intros Heq%mirror_inj; [done|congruence]. }
  pose proof (two_elements _ _ _ Hma Hmb Hne). lia.
Qed.

Lemma edges_of_delete_edge_leafs tree leaf tree' :
  tidy tree → length (edges_of tree leaf) < 2 →
  delete_edge_leafs tree leaf = Ok tree' →
  ∀ k, edges_of tree' k
       = if decide (k = leaf) then []
         else filter (λ e, edge_node e ≠ leaf) (edges_of tree k).
Proof.
  intros Htidy Hleaf. unfold delete_edge_leafs.
  destruct (_ !! leaf) eqn:Hl; [|done]. intros [= <-] k.
  unfold edges_of. destruct (decide (k = leaf)) as [->|Hne].
  - by rewrite lookup_delete_eq.
  - rewrite lookup_delete_ne, lookup_fmap by done.
    destruct (tree !! k) as [edges|] eqn:Hk; simpl; [|done].
    apply (scan_edges_one_match leaf edges []); simpl.
    + destruct Htidy as (_ & _ & Hnd). by eapply Hnd.
    + by intros e ?%elem_of_nil.
    + by eapply leaf_one_match.
Qed.

Lemma lookup_edges_of (tree : Tree) k edges :
  tree !! k = Some edges → edges_of tree k = edges.
Proof. unfold edges_of. by intros ->. Qed.

Lemma delete_edge_leafs_tidy tree leaf tree' :
  tidy tree → length (edges_of tree leaf) < 2 →
  delete_edge_leafs tree leaf = Ok tree' →
  tidy tree' ∧ ∀ k, length (edges_of tree' k) ≤ length (edges_of tree k).
Proof.
  intros Htidy Hleaf Hdel.
  pose proof (edges_of_delete_edge_leafs _ _ _ Htidy Hleaf Hdel) as Hedges.
  destruct Htidy as (Hsym & Hloop & Hnd).
  assert (∀ k e, e ∈ edges_of tree' k ↔
            k ≠ leaf ∧ edge_node e ≠ leaf ∧ e ∈ edges_of tree k) as Hin.
  { intros k e. rewrite Hedges. case_decide.
    - split; [by intros ?%elem_of_nil|naive_solver].
    - rewrite list_elem_of_filter. naive_solver. }
  split; [split_and!|].
  - intros k e (Hk & Hn & He)%Hin. apply Hin. rewrite edge_node_mirror.
    split_and!; [done..|]. by apply Hsym.
  - intros k e (_ & _ & He)%Hin. by apply Hloop.
  - intros k edges Hk. apply lookup_edges_of in Hk as <-. rewrite Hedges.
    case_decide; [constructor|]. apply NoDup_filter.
    unfold edges_of. destruct (tree !! k) eqn:Hk; [by eapply Hnd|constructor].
  - intros k. rewrite Hedges. case_decide; [simpl; lia|apply length_filter].
Qed.

Lemma prune_round_tidy leafs : ∀ tree tree',
  tidy tree → (∀ l, l ∈ leafs → length (edges_of tree l) < 2) →
  prune_round tree leafs = Ok tree' → tidy tree'.
Proof.
  induction leafs as [|leaf leafs IH]; intros tree tree' Htidy Hleafs; simpl.
  - by intros [= <-].
  - destruct (tree !! leaf) as [edges|] eqn:Hleaf.
    + destruct (delete_edge_leafs tree leaf) as [t1| |] eqn:Hdel; try done.
      simpl. destruct (delete_edge_leafs_tidy tree leaf t1) as [Ht1 Hlen];
        [done|apply Hleafs; left|done|].
      apply IH; [done|]. intros x Hx.
      eapply Nat.le_lt_trans; [apply Hlen|]. apply Hleafs. by right.
    + apply IH; [done|]. intros x Hx. apply Hleafs. by right.
Qed.

Lemma remove_leafs_tidy fuel nodes : ∀ tree tree',
  tidy tree → remove_leafs fuel tree nodes = Ok tree' → tidy tree'.
Proof.
  unfold remove_leafs. induction fuel as [|fuel IH]; intros tree tree' Htidy;
    cbn [remove_leafs_loop]; rewrite remove_leafs_cond_zero;
    destruct (negb _); try done; try by intros [= <-].
  destruct (prune_round tree (get_leafs tree nodes)) as [t1| |] eqn:Hround;
    try done.
  cbn [mbind result_bind]. apply IH.
  apply (prune_round_tidy _ _ _ Htidy) in Hround; [done|].
  intros x (edges & Hl & Hlen & _)%elem_of_get_leafs.
  by rewrite (lookup_edges_of _ _ _ Hl).
Qed.

Lemma qbe_tree_tidy fuel rnd graph nodes root tree all :
  qbe_tree fuel rnd graph nodes root = Ok (tree, all) → tidy tree.
Proof.
  intros (start & st & _ & Hloop & Hrm & _)%qbe_tree_unfold.
  apply qbe_tree_loop_traversal in Hloop as [Htr _].
  apply traversal_tidy in Htr. by eapply remove_leafs_tidy.
Qed.


(** ** More on [qbe_forest] *)

Lemma length_insert_by_len {A} (len : A → nat) x l :
  length (insert_by_len len x l) = S (length l).
Proof. by rewrite insert_by_len_Permutation. Qed.

Lemma length_sorted_by_len {A} (len : A → nat) (l : list A) :
  length (sorted_by_len len l) = length l.
Proof. by rewrite sorted_by_len_Permutation. Qed.

Lemma qbe_forest_loop_length fuel rnd graph nodes items : ∀ acc forest,
  foldl (qbe_forest_step fuel rnd graph nodes) acc items = Ok forest →
  ∃ forest0, acc = Ok forest0 ∧ length forest ≤ length forest0 + length items.
Proof.
  induction items as [|item items IH]; intros acc forest; cbn [foldl].
  - intros ->. exists forest. split; [done|]. simpl. lia.
  - intros (forest1 & Hstep & Hlen)%IH.
    apply qbe_forest_step_Ok in Hstep as (forest0 & -> & Hcase).
    exists forest0. split; [done|].
    destruct Hcase as [->|(tree & -> & _)]; [simpl; lia|].
    rewrite length_app in Hlen. simpl in *. lia.
Qed.

Lemma qbe_forest_length fuel rnd graph nodes forest :
  qbe_forest fuel rnd graph nodes = Ok forest → length forest ≤ size graph.
Proof.
  unfold qbe_forest.
  destruct (foldl _ _ _) as [forest0| |] eqn:Hloop; try done.
  cbn [mbind result_bind]. intros [= <-].
  apply qbe_forest_loop_length in Hloop as (f & [= <-] & Hlen).
  rewrite length_sorted_by_len, <-length_map_to_list. simpl in Hlen. lia.
Qed.

Lemma qbe_forest_no_required fuel rnd (graph : Graph) :
  "" ∉ dom graph →
  qbe_forest fuel rnd graph []
  = Ok (if decide (graph = ∅) then [] else [∅]).
Proof.
  intros Hne. unfold qbe_forest.
  assert (∀ item, item ∈ map_to_list graph → item.1 ≠ "") as Hitems.
  { intros [k edges] Hin%elem_of_map_to_list. simpl. intros ->.
    apply elem_of_dom_2 in Hin. by apply Hne. }
  assert (∀ items, (∀ item, item ∈ items → item.1 ≠ "") →
    foldl (qbe_forest_step fuel rnd graph []) (Ok [∅]) items = Ok [∅])
    as Hrest.
  { induction items as [|item items IH]; intros Hall; cbn [foldl]; [done|].
    unfold qbe_forest_step at 2. cbn [mbind result_bind].
    rewrite qbe_tree_empty_nodes by (apply Hall; left).
    cbn [mbind result_bind andb]. rewrite bool_decide_eq_false_2 by set_solver.
    apply IH. intros it Hit. apply Hall. by right. }
  case_decide as Hempty.
  - subst graph. by rewrite map_to_list_empty.
  - destruct (map_to_list graph) as [|item items] eqn:Hlist.
    + by apply map_to_list_empty_iff in Hlist.
    + cbn [foldl]. unfold qbe_forest_step at 2. cbn [mbind result_bind].
      rewrite qbe_tree_empty_nodes by (apply Hitems; left).
      cbn [mbind result_bind andb]. rewrite bool_decide_eq_true_2 by set_solver.
      cbn [app]. rewrite Hrest; [done|].
      intros it Hit. apply Hitems. by right.
Qed.

(** ** [find_all_paths] returns the simple paths, all of them *)

Lemma walk_head graph end_ start q :
  walk graph end_ start q → ∃ q', q = start :: q'.
Proof. destruct 1; eauto. Qed.

Lemma find_all_paths_loop_Ok fuel graph end_ pre items : ∀ acc paths,
  foldl (find_all_paths_step fuel graph end_ pre) acc items = Ok paths →
  ∃ acc0, acc = Ok acc0
    ∧ (∀ item, item ∈ items → item.2.1 ∉ pre →
         ∃ new, find_all_paths fuel graph item.2.1 end_ pre = Ok new)
    ∧ ∀ p, p ∈ paths ↔
        p ∈ acc0
        ∨ ∃ item new, item ∈ items ∧ (item.2.1 ∉ pre)
            ∧ find_all_paths fuel graph item.2.1 end_ pre = Ok new ∧ p ∈ new.
Proof.
  induction items as [|item items IH]; intros acc paths; cbn [foldl].
  - intros ->. exists paths. split_and!; [done|by intros ? ?%elem_of_nil|].
    intros p. split; [by left|]. intros [?|(? & ? & ?%elem_of_nil & _)]; done.
  - intros (acc1 & Hstep & Hall & Hin)%IH. revert Hstep.
    unfold find_all_paths_step at 1. destruct acc as [acc0| |]; try done.
    cbn [mbind result_bind]. intros Hstep. exists acc0. split; [done|].
    destruct (decide (item.2.1 ∉ pre)) as [Hnew|Hold].
    + destruct (find_all_paths fuel graph item.2.1 end_ pre) as [new| |]
        eqn:Hrec; try done.
      cbn [mbind result_bind] in Hstep. injection Hstep as <-. split.
      * intros it [->|Hit]%elem_of_cons Hfresh; [eauto|by apply Hall].
      * intros p. rewrite Hin, elem_of_app. split.
        -- intros [[?|Hp]|(it & new' & Hit & ? & ? & ?)]; [by left| |].
           ++ right. exists item, new. split_and!; [left|done..].
           ++ right. exists it, new'. split_and!; [by right|done..].
        -- intros [?|(it & new' & [->|Hit]%elem_of_cons & ? & Hrec' & ?)].
           ++ by left; left.
           ++ left; right. congruence.
           ++ right. by exists it, new'.
    + injection Hstep as <-. split.
      * intros it [->|Hit]%elem_of_cons Hfresh; [done|by apply Hall].
      * intros p. rewrite Hin. split.
        -- intros [?|(it & new' & Hit & ? & ? & ?)]; [by left|].
           right. exists it, new'. split_and!; [by right|done..].
        -- intros [?|(it & new' & [->|Hit]%elem_of_cons & ? & Hrec' & ?)];
             [by left|done|].
           right. by exists it, new'.
Qed.

Lemma find_all_paths_walks fuel graph end_ : ∀ start path paths,
  NoDup path → start ∉ path →
  find_all_paths fuel graph start end_ path = Ok paths →
  ∀ p, p ∈ paths ↔
    ∃ q, p = path ++ q ∧ walk graph end_ start q ∧ NoDup (path ++ q).
Proof.
  induction fuel as [|fuel IH]; intros start path paths Hnd Hstart; [done|].
  rewrite find_all_paths_unfold.
  assert (NoDup (path ++ [start])) as Hpre.
  { apply NoDup_app. split_and!; [done| |apply NoDup_singleton].
    by intros x Hx ->%list_elem_of_singleton. }
  destruct (decide (start = end_)) as [->|Hne].
  { intros [= <-] p. rewrite list_elem_of_singleton. split.
    - intros ->. exists [end_]. split_and!; [done|constructor|done].
    - intros (q & -> & Hwalk & _). inversion Hwalk; by subst. }
  destruct (graph !! start) as [adj|] eqn:Hadj.
  2:{ intros [= <-] p. split; [by intros ?%elem_of_nil|].
      intros (q & -> & Hwalk & _). inversion Hwalk as [|? n q' _ Hstep]; subst;
        [done|].
      destruct Hstep as (fields & f & tf & Hg & _). congruence. }
  destruct adj as [edges|fields]; [done|]. cbn [adjacency_items mbind result_bind].
  intros (acc0 & [= <-] & Hall & Hin)%find_all_paths_loop_Ok p.
  rewrite Hin. split.
  - intros [?%elem_of_nil|(item & new & Hitem & Hfresh & Hrec & Hp)]; [done|].
    apply (IH _ _ _ Hpre Hfresh Hrec) in Hp as (q & -> & Hwalk & Hndq).
    exists (start :: q). rewrite <-app_assoc in Hndq |- *.
    split_and!; [done| |done].
    destruct item as [f [node tf]]. apply elem_of_map_to_list in Hitem.
    apply (walk_hop _ _ _ node); [done| |done].
    by exists fields, f, tf.
  - intros (q & -> & Hwalk & Hndq). right.
    inversion Hwalk as [|? node q' _ Hstep Hwalk']; subst; [done|].
    destruct Hstep as (fields' & f & tf & Hg & Hf).
    assert (fields' = fields) as -> by congruence.
    assert ((f, (node, tf)) ∈ map_to_list fields) as Hitem
      by by apply elem_of_map_to_list.
    assert (node ∉ path ++ [start]) as Hfresh.
    { destruct (walk_head _ _ _ _ Hwalk') as [q'' ->].
      rewrite (cons_middle start), app_assoc in Hndq.
      apply NoDup_app in Hndq as (_ & Hdisj & _).
      intros Hin'. apply (Hdisj _ Hin'). left. }
    destruct (Hall _ Hitem Hfresh) as [new Hrec].
    exists (f, (node, tf)), new. split_and!; [done..|].
    apply (IH _ _ _ Hpre Hfresh Hrec). exists q'.
    rewrite <-app_assoc. by split_and!.
Qed.

Lemma find_all_paths_simple_paths fuel graph a b paths p :
  find_all_paths fuel graph a b [] = Ok paths →
  p ∈ paths ↔ walk graph b a p ∧ NoDup p.
Proof.
  intros Hrun. rewrite (find_all_paths_walks _ _ _ _ _ _ (NoDup_nil_2)
    (not_elem_of_nil _) Hrun). simpl. naive_solver.
Qed.


(** ** What [autocomplete_graph] can answer *)

(** On the graph of [qbe_graph] a call of [find_all_paths] has three
    outcomes. *)
Lemma find_all_paths_edge_lists fuel (graph : Graph) c d :
  find_all_paths (S fuel) (AdjList <$> graph) c d []
  = if decide (c = d) then Ok [[c]]
    else if decide (c ∈ dom graph) then Raise AttributeError
    else Ok [].
Proof.
  rewrite find_all_paths_unfold. destruct (decide (c = d)); [done|].
  rewrite lookup_fmap. case_decide as Hc.
  - apply elem_of_dom in Hc as [edges ->]. done.
  - apply not_elem_of_dom in Hc as ->. done.
Qed.

Lemma length_remove_first {A} `{EqDecision A} (x : A) l :
  x ∈ l → S (length (remove_first x l)) = length l.
Proof.
  induction l as [|y l IH]; simpl; [by intros ?%elem_of_nil|].
  destruct (decide (x = y)); [done|].
  intros [?|Hx]%elem_of_cons; [done|]. simpl. by rewrite IH.
Qed.

Lemma remove_models_length current_models : ∀ path rest,
  remove_models current_models path = Ok rest →
  length path = length current_models + length rest.
Proof.
  induction current_models as [|model models IH]; intros path rest; simpl.
  - by intros [= ->].
  - destruct (decide (model ∈ path)) as [Hin|]; [|done].
    intros Hrest%IH. rewrite <-(length_remove_first model path) by done.
    simpl. by rewrite Hrest.
Qed.

Lemma remove_models_not_OutOfFuel current_models : ∀ path,
  remove_models current_models path ≠ OutOfFuel.
Proof.
  induction current_models as [|model models IH]; intros path; simpl; [done|].
  by destruct (decide _).
Qed.

Lemma keep_path_single current_models c :
  2 ≤ length current_models →
  keep_path current_models (Ok []) [c] = Ok []
  ∨ keep_path current_models (Ok []) [c] = Raise ValueError.
Proof.
  intros Hlen. unfold keep_path. cbn [mbind result_bind].
  destruct (forallb _ _); [|by left].
  destruct (remove_models current_models [c]) as [rest|e|] eqn:Hrm.
  - apply remove_models_length in Hrm. simpl in Hrm. lia.
  - right. cbn [mbind result_bind]. f_equal. revert Hrm. clear.
    generalize [c]. induction current_models as [|m ms IH]; intros path; simpl;
      [done|].
    destruct (decide _); [apply IH|by intros [= <-]].
  - by apply remove_models_not_OutOfFuel in Hrm.
Qed.

Lemma autocomplete_pair_no_suggestion fuel (graph : Graph) current_models acc cd :
  2 ≤ length current_models → no_suggestion acc →
  no_suggestion (autocomplete_pair fuel (AdjList <$> graph) current_models acc cd).
Proof.
  intros Hlen Hacc. unfold autocomplete_pair.
  destruct acc as [vp| |]; [|done..]. rewrite (Hacc vp eq_refl).
  cbn [mbind result_bind]. destruct fuel as [|fuel]; [done|].
  rewrite find_all_paths_edge_lists.
  destruct (decide (cd.1 = cd.2)); [|case_decide]; cbn [mbind result_bind foldl].
  - destruct (keep_path_single current_models cd.1 Hlen) as [-> | ->];
      by intros l [= <-].
  - done.
  - by intros l [= <-].
Qed.

Lemma autocomplete_graph_no_suggestion fuel models current_models directed l :
  autocomplete_graph fuel models current_models directed = Ok (Some l) →
  l = [].
Proof.
  unfold autocomplete_graph. destruct (length current_models <? 2) eqn:Hlen;
    [done|].
  apply Nat.ltb_ge in Hlen.
  assert (no_suggestion
    (foldl (autocomplete_pair fuel (AdjList <$> qbe_graph models directed)
              current_models) (Ok []) (combinations2 current_models))) as Hloop.
  { apply (foldl_invariant no_suggestion (λ _, True)); [|done|by intros ? [= <-]].
    intros acc cd _. by apply autocomplete_pair_no_suggestion. }
  destruct (foldl _ _ _) as [vp| |]; [|done..].
  rewrite (Hloop vp eq_refl). cbn [mbind result_bind]. by intros [= <-].
Qed.

(** *** The selection without repeats *)

Lemma elem_of_combinations2 {A} (l : list A) x y :
  (x, y) ∈ combinations2 l → NoDup l → x ≠ y.
Proof.
  induction l as [|z l IH]; simpl; [by intros ?%elem_of_nil|].
  intros [Hin|Hin]%elem_of_app [Hz Hnd]%NoDup_cons; [|by apply IH].
  apply list_elem_of_fmap in Hin as (y' & [= -> ->] & Hy). by intros ->.
Qed.

Lemma combinations2_firsts {A} (l : list A) x :
  (∃ y, (x, y) ∈ combinations2 l) ↔ x ∈ removelast l.
Proof.
  induction l as [|z l IH]; [simpl; split; [by intros [? ?%elem_of_nil]|by intros ?%elem_of_nil]|].
  cbn [combinations2 removelast]. destruct l as [|z' l].
  - simpl. split; [by intros [? ?%elem_of_nil]|by intros ?%elem_of_nil].
  - rewrite elem_of_cons, <-IH. split.
    + intros [y [Hin|Hin]%elem_of_app].
      * apply list_elem_of_fmap in Hin as (y' & [= -> ->] & _). by left.
      * right. by exists y.
    + intros [->|[y Hy]].
      * exists z'. apply elem_of_app. left. apply list_elem_of_fmap.
        exists z'. split; [done|left].
      * exists y. apply elem_of_app. by right.
Qed.

Lemma autocomplete_loop_distinct fuel (graph : Graph) current_models pairs :
  (∀ cd, cd ∈ pairs → cd.1 ≠ cd.2) →
  foldl (autocomplete_pair (S fuel) (AdjList <$> graph) current_models)
        (Ok []) pairs
  = if decide (Exists (λ cd, cd.1 ∈ dom graph) pairs)
    then Raise AttributeError else Ok [].
Proof.
  induction pairs as [|cd pairs IH]; intros Hne; cbn [foldl].
  - rewrite decide_False; [done|]. by intros ?%Exists_nil.
  - unfold autocomplete_pair at 2. cbn [mbind result_bind].
    rewrite find_all_paths_edge_lists, decide_False by (apply Hne; left).
    destruct (decide (cd.1 ∈ dom graph)) as [Hc|Hc]; cbn [mbind result_bind foldl].
    + rewrite autocomplete_pair_Raise, decide_True; [done|]. by left.
    + rewrite IH by (intros cd' Hcd'; apply Hne; by right).
      destruct (decide (Exists _ pairs)) as [Hex|Hex].
      * rewrite decide_True; [done|]. by right.
      * rewrite decide_False; [done|]. by intros [?|?]%Exists_cons.
Qed.

Lemma autocomplete_graph_distinct fuel models current_models directed :
  NoDup current_models → 2 ≤ length current_models →
  autocomplete_graph (S fuel) models current_models directed
  = if decide (Exists (λ c, c ∈ dom (qbe_graph models directed))
                 (removelast current_models))
    then Raise AttributeError else Ok (Some []).
Proof.
  intros Hnd Hlen. unfold autocomplete_graph.
  apply Nat.ltb_ge in Hlen as ->.
  rewrite autocomplete_loop_distinct
    by (intros [c d] Hcd; by eapply elem_of_combinations2).
  destruct (decide (Exists _ (combinations2 _))) as [Hex|Hex].
  - rewrite decide_True; [done|].
    apply Exists_exists in Hex as ([c d] & Hcd & Hc).
    apply Exists_exists. exists c. split; [|done].
    apply combinations2_firsts. by exists d.
  - rewrite decide_False; [done|]. intros Hex'. apply Hex.
    apply Exists_exists in Hex' as (c & [d Hcd]%combinations2_firsts & Hc).
    apply Exists_exists. by exists (c, d).
Qed.

(** *** The same entity selected over and over *)

Lemma autocomplete_graph_repeated fuel models directed a n :
  autocomplete_graph (S fuel) models (replicate (S (S n)) a) directed
  = Raise ValueError.
Proof.
  unfold autocomplete_graph. rewrite length_replicate.
  cbn [Nat.ltb Nat.leb replicate combinations2 fmap list_fmap app foldl].
  unfold autocomplete_pair at 2. cbn [mbind result_bind fst snd].
  rewrite find_all_paths_edge_lists, decide_True by done.
  cbn [mbind result_bind foldl]. unfold keep_path at 1.
  cbn [mbind result_bind].
  assert (forallb (λ x, bool_decide (x ∈ [a])) (a :: a :: replicate n a) = true)
    as ->.
  { apply forallb_forall. intros x Hx%list_elem_of_In.
    apply bool_decide_eq_true, list_elem_of_singleton.
    apply elem_of_cons in Hx as [->|Hx]; [done|].
    apply elem_of_cons in Hx as [->|Hx]; [done|].
    by apply elem_of_replicate in Hx as [-> _]. }
  cbn [remove_models].
  destruct (decide (a ∈ [a])) as [_|Hn];
    [|exfalso; apply Hn, list_elem_of_here].
  cbn [remove_first]. rewrite (decide_True (P := a = a)) by done.
  destruct (decide (a ∈ [])) as [Hin|_]; [by apply elem_of_nil in Hin|].
  cbn [mbind result_bind]. by rewrite autocomplete_pair_Raise.
Qed.


(** ** Bounds *)

Lemma walk_nodes graph end_ start q :
  walk graph end_ start q →
  ∃ q', q = q' ++ [end_] ∧ ∀ x, x ∈ q' → x ∈ dom graph.
Proof.
  induction 1 as [|start node q Hne Hstep _ (q' & -> & Hq')].
  - exists []. split; [done|]. by intros ? ?%elem_of_nil.
  - exists (start :: q'). split; [done|].
    intros x [->|Hx]%elem_of_cons; [|by apply Hq'].
    destruct Hstep as (fields & f & tf & Hg & _). by apply elem_of_dom_2 in Hg.
Qed.

Lemma find_all_paths_length fuel (graph : PathGraph) a b paths p :
  find_all_paths fuel graph a b [] = Ok paths → p ∈ paths →
  length p ≤ S (size graph).
Proof.
  intros Hrun [Hwalk Hnd]%(find_all_paths_simple_paths _ _ _ _ _ _ Hrun).
  apply walk_nodes in Hwalk as (q & -> & Hq).
  apply NoDup_app in Hnd as (Hndq & _ & _).
  rewrite length_app. simpl.
  assert (length q ≤ size graph); [|lia].
  rewrite <-size_dom, <-(size_list_to_set (C := gset string) q) by done.
  apply subseteq_size. intros x Hx%elem_of_list_to_set. by apply Hq.
Qed.

Lemma qbe_graph_directed_within models k e :
  e ∈ edges_of (qbe_graph models true) k →
  e ∈ edges_of (qbe_graph models false) k.
Proof.
  rewrite !qbe_graph_edges. intros [Hfwd|[? _]]; [by left|done].
Qed.


(** ** [qbe_models] *)

Lemma module_app_error module e :
  module_app module = Raise e → e = IndexError.
Proof. unfold module_app. destruct (penultimate _); [done|]. by intros [= <-]. Qed.

Lemma module_app_fuel module : module_app module ≠ OutOfFuel.
Proof. unfold module_app. by destruct (penultimate _). Qed.

Lemma get_target_result field : result_with (λ _, True) (get_target field).
Proof.
  unfold get_target. destruct (field_rel field) as [rel|]; [|by left].
  destruct (module_app (ref_module (rel_to rel))) as [name|e|] eqn:Hname;
    cbn [mbind result_bind].
  - destruct (rel_through rel) as [| |through]; [done|by left|].
    destruct (module_app (ref_module through)) as [name'|e|] eqn:Hname';
      cbn [mbind result_bind]; [done| |by apply module_app_fuel in Hname'].
    right. by eapply module_app_error.
  - right. by eapply module_app_error.
  - by apply module_app_fuel in Hname.
Qed.

Lemma get_target_relation_Ok field extras target r :
  get_target_relation field extras = Ok (target, r) →
  get_target field = Ok target
  ∧ r = {| relation_target := target; relation_type := field_type field;
           relation_source := field_name field; relation_arrows := extras |}.
Proof.
  unfold get_target_relation. destruct (get_target field); [|done..].
  cbn [mbind result_bind]. by intros [= <- <-].
Qed.

Lemma add_field_add_with model field :
  add_field model field = add_with isinstance_ForeignKey model field.
Proof.
  unfold add_field, add_with. destruct model; [|done..].
  cbn [mbind result_bind]. by destruct (field_class field).
Qed.

Lemma add_many_to_many_add_with model field :
  add_many_to_many model field
  = add_with (λ c, isinstance_ManyToManyField c || isinstance_GenericRelation c)
      model field.
Proof.
  unfold add_many_to_many, add_with. destruct model; [|done..].
  cbn [mbind result_bind]. by destruct (field_class field).
Qed.

(** One round of either loop. *)
Lemma add_with_step test before done model field :
  fields_added test before done model →
  result_with (fields_added test before (done ++ [field]))
    (add_with test (Ok model) field).
Proof.
  intros [Hnd Hrel Hfields]. unfold add_with. cbn [mbind result_bind].
  assert (∀ fs : gmap string FieldAttrs,
            fs = <[field_name field := get_field_attributes field]>
                   (info_fields model) ∨
            (∃ a, fs = <[field_name field := a]>
               (<[field_name field := get_field_attributes field]>
                  (info_fields model))) →
    ∀ f, f ∈ done ++ [field] → is_Some (fs !! field_name f))
    as Hkeys.
  { intros m Hm f [Hf| ->%list_elem_of_singleton]%elem_of_app.
    - destruct (Hfields f Hf) as [a Ha].
      destruct (decide (field_name field = field_name f)) as [Heq|Hne].
      + destruct Hm as [-> |[a' ->]]; rewrite Heq, lookup_insert_eq; eauto.
      + destruct Hm as [-> |[a' ->]]; rewrite !lookup_insert_ne by done; eauto.
    - destruct Hm as [-> |[a' ->]]; rewrite lookup_insert_eq; eauto. }
  destruct (test (field_class field)) eqn:Htest.
  - unfold add_relation.
    destruct (get_target_relation field "") as [[target relation]|e|] eqn:Hgtr.
    + cbn [mbind result_bind update_fields info_fields info_relations].
      rewrite lookup_insert_eq. simpl. split; simpl.
      * destruct (decide (relation ∈ info_relations model)); [done|].
        apply NoDup_app. split_and!; [done| |apply NoDup_singleton].
        by intros x Hx ->%list_elem_of_singleton.
      * intros r.
        assert (r ∈ (if decide (relation ∈ info_relations model)
                     then info_relations model
                     else info_relations model ++ [relation])
                ↔ r ∈ info_relations model ∨ r = relation) as ->.
        { destruct (decide _); [naive_solver|].
          rewrite elem_of_app, list_elem_of_singleton. done. }
        rewrite Hrel. split.
        -- intros [[?|(f & t & Hf & Ht & Hg)]| ->]; [by left| |].
           ++ right. exists f, t. split_and!; [|done..].
              apply elem_of_app. by left.
           ++ right. exists field, target. split_and!; [|done..].
              apply elem_of_app. right. by apply list_elem_of_singleton.
        -- intros [?|(f & t & [Hf| ->%list_elem_of_singleton]%elem_of_app
                      & Ht & Hg)].
           ++ by left; left.
           ++ left. right. by exists f, t.
           ++ right. congruence.
      * apply Hkeys. right. eexists. reflexivity.
    + cbn [mbind result_bind]. unfold get_target_relation in Hgtr.
      pose proof (get_target_result field) as Ht.
      destruct (get_target field); [done| |done].
      cbn [mbind result_bind] in Hgtr. by injection Hgtr as <-.
    + unfold get_target_relation in Hgtr.
      pose proof (get_target_result field) as Ht.
      by destruct (get_target field).
  - split; simpl.
    + done.
    + intros r. rewrite Hrel. split.
      * intros [?|(f & t & Hf & Ht & Hg)]; [by left|].
        right. exists f, t. split_and!; [|done..]. apply elem_of_app. by left.
      * intros [?|(f & t & [Hf| ->%list_elem_of_singleton]%elem_of_app
                   & Ht & Hg)]; [by left| |congruence].
        right. by exists f, t.
    + apply Hkeys. by left.
Qed.

Lemma add_with_loop test before fields : ∀ done acc,
  result_with (fields_added test before done) acc →
  result_with (fields_added test before (done ++ fields))
    (foldl (add_with test) acc fields).
Proof.
  induction fields as [|field fields IH]; intros done acc Hacc; cbn [foldl].
  - by rewrite app_nil_r.
  - rewrite (cons_middle field done fields), app_assoc. apply IH.
    destruct acc as [model|e|]; [by apply add_with_step|done|done].
Qed.

Lemma foldl_add_field acc fields :
  foldl add_field acc fields = foldl (add_with isinstance_ForeignKey) acc fields.
Proof.
  revert acc. induction fields as [|f fields IH]; intros acc; simpl; [done|].
  by rewrite add_field_add_with, IH.
Qed.

Lemma foldl_add_many_to_many acc fields :
  foldl add_many_to_many acc fields
  = foldl (add_with (λ c, isinstance_ManyToManyField c
                          || isinstance_GenericRelation c)) acc fields.
Proof.
  revert acc. induction fields as [|f fields IH]; intros acc; simpl; [done|].
  by rewrite add_many_to_many_add_with, IH.
Qed.

Lemma add_with_name test fields : ∀ model model',
  foldl (add_with test) (Ok model) fields = Ok model' →
  info_name model' = info_name model ∧ info_collapse model' = info_collapse model.
Proof.
  induction fields as [|field fields IH]; intros model model'; cbn [foldl].
  - by intros [= <-].
  - destruct (add_with test (Ok model) field) as [m1|e|] eqn:Hstep.
    + intros [-> ->]%IH. revert Hstep. unfold add_with, add_relation.
      cbn [mbind result_bind].
      destruct (test _); [|by intros [= <-]].
      destruct (get_target_relation field "") as [[t r]| |]; [|done..].
      cbn [mbind result_bind]. destruct (_ !! _); [|done]. by intros [= <-].
    + assert (∀ l, foldl (add_with test) (Raise e) l = Raise e) as ->
        by (by induction l). done.
    + assert (∀ l, foldl (add_with test) OutOfFuel l = OutOfFuel) as ->
        by (by induction l). done.
Qed.

Lemma add_with_Raise test e fields :
  foldl (add_with test) (Raise e) fields = Raise e.
Proof. by induction fields. Qed.

Lemma add_with_OutOfFuel test fields :
  foldl (add_with test) OutOfFuel fields = OutOfFuel.
Proof. by induction fields. Qed.

Lemma add_with_keys test model field model' k :
  add_with test (Ok model) field = Ok model' →
  is_Some (info_fields model !! k) → is_Some (info_fields model' !! k).
Proof.
  unfold add_with, add_relation. cbn [mbind result_bind]. intros Hstep Hk.
  assert (is_Some (info_fields (update_fields model field) !! k)) as Hk'.
  { simpl. destruct (decide (field_name field = k)) as [<-|];
      [rewrite lookup_insert_eq; eauto|by rewrite lookup_insert_ne]. }
  destruct (test (field_class field)).
  - destruct (get_target_relation field "") as [[t r]| |]; [|done..].
    cbn [mbind result_bind] in Hstep.
    destruct (info_fields (update_fields model field) !! field_name field);
      [|done].
    injection Hstep as <-. cbn [info_fields].
    destruct (decide (field_name field = k)) as [<-|];
      [rewrite lookup_insert_eq; eauto|by rewrite lookup_insert_ne].
  - by injection Hstep as <-.
Qed.

Lemma add_with_loop_keys test fields : ∀ model model' k,
  foldl (add_with test) (Ok model) fields = Ok model' →
  is_Some (info_fields model !! k) → is_Some (info_fields model' !! k).
Proof.
  induction fields as [|field fields IH]; intros model model' k; cbn [foldl].
  - by intros [= <-].
  - destruct (add_with test (Ok model) field) as [m1|e|] eqn:Hstep.
    + intros Hrest Hk. eapply IH; [done|]. by eapply add_with_keys.
    + by rewrite add_with_Raise.
    + by rewrite add_with_OutOfFuel.
Qed.

Lemma build_model_result admin_models app_models_with_no_includes app_model :
  result_with (model_built app_model)
    (build_model admin_models app_models_with_no_includes app_model).
Proof.
  unfold build_model.
  set (model0 := {| info_name := cls_name app_model; info_fields := ∅;
                    info_relations := []; info_collapse := _ |}).
  rewrite foldl_add_field.
  pose proof (add_with_loop isinstance_ForeignKey [] (cls_fields app_model)
                [] (Ok model0)) as H1.
  pose proof (add_with_name isinstance_ForeignKey (cls_fields app_model) model0)
    as Hname1.
  destruct (foldl _ (Ok model0) (cls_fields app_model)) as [m1|e|];
    cbn [mbind result_bind].
  2:{ apply H1. split; simpl; [constructor| |by intros ? ?%elem_of_nil].
      intros r. split; [by intros ?%elem_of_nil|].
      intros [?%elem_of_nil|(? & ? & ?%elem_of_nil & _)]; done. }
  2:{ apply H1. split; simpl; [constructor| |by intros ? ?%elem_of_nil].
      intros r. split; [by intros ?%elem_of_nil|].
      intros [?%elem_of_nil|(? & ? & ?%elem_of_nil & _)]; done. }
  simpl in H1. destruct H1 as [Hnd1 Hrel1 Hf1].
  { split; simpl; [constructor| |by intros ? ?%elem_of_nil].
    intros r. split; [by intros ?%elem_of_nil|].
    intros [?%elem_of_nil|(? & ? & ?%elem_of_nil & _)]; done. }
  destruct (Hname1 m1 eq_refl) as [Hn1 _].
  assert ((match cls_many_to_many app_model with
           | [] => Ok m1
           | _ :: _ => foldl add_many_to_many (Ok m1) (cls_many_to_many app_model)
           end) = foldl add_many_to_many (Ok m1) (cls_many_to_many app_model))
    as -> by by destruct (cls_many_to_many app_model).
  rewrite foldl_add_many_to_many.
  pose proof (add_with_loop
    (λ c, isinstance_ManyToManyField c || isinstance_GenericRelation c)
    (info_relations m1) (cls_many_to_many app_model) [] (Ok m1)) as H2.
  pose proof (add_with_name
    (λ c, isinstance_ManyToManyField c || isinstance_GenericRelation c)
    (cls_many_to_many app_model) m1) as Hname2.
  pose proof (λ m, add_with_loop_keys
    (λ c, isinstance_ManyToManyField c || isinstance_GenericRelation c)
    (cls_many_to_many app_model) m1 m) as Hkeep.
  destruct (foldl _ (Ok m1) (cls_many_to_many app_model)) as [m2|e|].
  2:{ apply H2. split; [done| |by intros ? ?%elem_of_nil].
      intros r. split; [by left|].
      intros [?|(? & ? & ?%elem_of_nil & _)]; done. }
  2:{ apply H2. split; [done| |by intros ? ?%elem_of_nil].
      intros r. split; [by left|].
      intros [?|(? & ? & ?%elem_of_nil & _)]; done. }
  simpl in H2. destruct H2 as [Hnd2 Hrel2 Hf2].
  { split; [done| |by intros ? ?%elem_of_nil].
    intros r. split; [by left|].
    intros [?|(? & ? & ?%elem_of_nil & _)]; done. }
  destruct (Hname2 m2 eq_refl) as [Hn2 _].
  assert (∀ r, r ∈ info_relations m2 ↔
            ∃ field target, relation_field app_model field
              ∧ get_target_relation field "" = Ok (target, r)) as Hrel.
  { intros r. rewrite Hrel2, Hrel1. unfold relation_field. split.
    - intros [[?%elem_of_nil|(f & t & Hf & Ht & Hg)]|(f & t & Hf & Ht & Hg)];
        [done|exists f, t; split; [left|]; done|exists f, t; split; [right|]; done].
    - intros (f & t & [[Hf Ht]|[Hf Ht]] & Hg).
      + left. right. by exists f, t.
      + right. by exists f, t. }
  simpl. split.
  - by rewrite Hn2, Hn1.
  - done.
  - done.
  - intros r (f & t & Hfield & Hg)%Hrel.
    apply get_target_relation_Ok in Hg as [_ ->]. simpl.
    destruct Hfield as [[Hf _]|[Hf _]].
    + apply (Hkeep m2 _ eq_refl). by apply Hf1.
    + by apply Hf2.
Qed.


Lemma add_app_model_step admin_models app_models_with_no_includes done
    graphs app_model :
  models_filed admin_models app_models_with_no_includes done graphs →
  result_with
    (models_filed admin_models app_models_with_no_includes (done ++ [app_model]))
    (add_app_model admin_models app_models_with_no_includes (Ok graphs)
       app_model).
Proof.
  intros [Hfrom Hall]. unfold add_app_model. cbn [mbind result_bind].
  pose proof (build_model_result admin_models app_models_with_no_includes
                app_model) as Hbuilt.
  destruct (build_model _ _ app_model) as [model|e|] eqn:Hbuild; [|done..].
  cbn [mbind result_bind result_with].
  set (t := title (cls_app_label app_model)).
  set (n := cls_name app_model).
  assert (∃ inner, <[t := <[n := model]> (default ∅
                     ((match graphs !! t with
                       | Some _ => graphs
                       | None => <[t := ∅]> graphs
                       end) !! t))]>
                     (match graphs !! t with
                      | Some _ => graphs
                      | None => <[t := ∅]> graphs
                      end)
                   = <[t := <[n := model]> inner]> graphs
                   ∧ (graphs !! t = Some inner
                      ∨ (graphs !! t = None ∧ inner = ∅))) as (inner & -> & Hinner).
  { destruct (graphs !! t) as [ms|] eqn:Ht.
    - exists ms. rewrite Ht. simpl. split; [done|by left].
    - exists ∅. rewrite lookup_insert_eq. simpl.
      rewrite insert_insert_eq. split; [done|by right]. }
  split.
  - intros t' ms' n' info'.
    destruct (decide (t = t')) as [<-|Hne].
    + rewrite lookup_insert_eq. intros [= <-].
      destruct (decide (n = n')) as [<-|Hne'].
      * rewrite lookup_insert_eq. intros [= <-]. exists app_model.
        split_and!; [|done..]. apply elem_of_app. right. left.
      * rewrite lookup_insert_ne by done. intros Hn'.
        destruct Hinner as [Ht|[_ ->]]; [|by rewrite lookup_empty in Hn'].
        destruct (Hfrom _ _ _ _ Ht Hn') as (am & Ham & ?).
        exists am. split; [|done]. apply elem_of_app. by left.
    + rewrite lookup_insert_ne by done. intros Ht' Hn'.
      destruct (Hfrom _ _ _ _ Ht' Hn') as (am & Ham & ?).
      exists am. split; [|done]. apply elem_of_app. by left.
  - intros am [Ham| ->%list_elem_of_singleton]%elem_of_app.
    + destruct (Hall am Ham) as (ms & info & Hms & Hinfo).
      destruct (decide (t = title (cls_app_label am))) as [Heq|Hne].
      * rewrite <-Heq in *. rewrite lookup_insert_eq.
        destruct Hinner as [Ht|[Ht _]]; [|congruence].
        assert (inner = ms) as -> by congruence.
        destruct (decide (n = cls_name am)) as [<-|Hne'].
        -- exists (<[n := model]> ms), model. by rewrite lookup_insert_eq.
        -- exists (<[n := model]> ms), info. by rewrite lookup_insert_ne.
      * exists ms, info. by rewrite lookup_insert_ne.
    + exists (<[n := model]> inner), model. by rewrite !lookup_insert_eq.
Qed.

Lemma add_app_model_loop admin_models app_models_with_no_includes app_models :
  ∀ done acc,
  result_with (models_filed admin_models app_models_with_no_includes done) acc →
  result_with
    (models_filed admin_models app_models_with_no_includes (done ++ app_models))
    (foldl (add_app_model admin_models app_models_with_no_includes) acc
       app_models).
Proof.
  induction app_models as [|am ams IH]; intros done acc Hacc; cbn [foldl].
  - by rewrite app_nil_r.
  - rewrite (cons_middle am done ams), app_assoc. apply IH.
    destruct acc as [graphs|e|]; [by apply add_app_model_step|done|done].
Qed.

Lemma qbe_models_result (dumps : Graphs → string)
    app_models_all app_models_with_no_includes
    admin_site only_admin_models (json : bool) :
  result_with
    (λ v : ModelsValue, ∃ graphs : Graphs,
       v = (if json then AsJson (dumps graphs) else AsDict graphs)
       ∧ models_filed (default [] admin_site) app_models_with_no_includes
           (chosen_models app_models_all admin_site only_admin_models) graphs)
    (qbe_models dumps app_models_all app_models_with_no_includes admin_site
       only_admin_models json).
Proof.
  unfold qbe_models, chosen_models.
  assert (match admin_site with Some registry => registry | None => [] end
          = default [] admin_site) as -> by by destruct admin_site.
  pose proof (add_app_model_loop (default [] admin_site)
    app_models_with_no_includes
    (if only_admin_models then default [] admin_site else app_models_all)
    [] (Ok ∅)) as Hloop.
  destruct (foldl _ _ _) as [graphs|e|]; cbn [mbind result_bind].
  - simpl in Hloop. destruct json; simpl; exists graphs; (split; [done|]);
      apply Hloop; (split; [by intros ???? ?%lookup_empty_Some
                           |by intros ? ?%elem_of_nil]).
  - apply Hloop. split; [intros ???? Ht; by rewrite lookup_empty in Ht
                        |by intros ? ?%elem_of_nil].
  - apply Hloop. split; [intros ???? Ht; by rewrite lookup_empty in Ht
                        |by intros ? ?%elem_of_nil].
Qed.


Lemma qbe_models_filed dumps app_models_all app_models_with_no_includes
    admin_site only_admin_models graphs :
  qbe_models dumps app_models_all app_models_with_no_includes admin_site
    only_admin_models false = Ok (AsDict graphs) →
  models_filed (default [] admin_site) app_models_with_no_includes
    (chosen_models app_models_all admin_site only_admin_models) graphs.
Proof.
  pose proof (qbe_models_result dumps app_models_all
    app_models_with_no_includes admin_site only_admin_models false) as H.
  intros Heq. rewrite Heq in H. by destruct H as (g & [= <-] & ?).
Qed.

Lemma qbe_models_built dumps app_models_all app_models_with_no_includes
    admin_site only_admin_models graphs t ms n info :
  qbe_models dumps app_models_all app_models_with_no_includes admin_site
    only_admin_models false = Ok (AsDict graphs) →
  graphs !! t = Some ms → ms !! n = Some info →
  ∃ app_model,
    app_model ∈ chosen_models app_models_all admin_site only_admin_models
    ∧ title (cls_app_label app_model) = t ∧ cls_name app_model = n
    ∧ model_built app_model info.
Proof.
  intros Hrun%qbe_models_filed Ht Hn.
  destruct (filed_from _ _ _ _ Hrun _ _ _ _ Ht Hn) as (am & Ham & <- & <- & Hb).
  exists am. split_and!; [done..|].
  pose proof (build_model_result (default [] admin_site)
                app_models_with_no_includes am) as H.
  by rewrite Hb in H.
Qed.

(** The nodes of the directed graph of a site. *)
Lemma qbe_graph_site_nodes dumps app_models_all app_models_with_no_includes
    admin_site graph k :
  qbe_graph_site dumps app_models_all app_models_with_no_includes admin_site
    true = Ok graph →
  k ∈ dom graph →
  ∃ app_model field,
    app_model ∈ app_models_all ∧ relation_field app_model field
    ∧ k = dotted (title (cls_app_label app_model)) (cls_name app_model).
Proof.
  unfold qbe_graph_site.
  destruct (qbe_models _ _ _ _ _ _) as [[graphs|text]|e|] eqn:Hrun;
    cbn [mbind result_bind]; [|done..].
  intros [= <-] [e [(app & name & r & Hr & -> & ->)|[? _]]]%qbe_graph_nodes;
    [|done].
  destruct Hr as (ms & w & Happ & Hname & Hr).
  unfold models_of_graphs in Happ.
  apply lookup_fmap_Some in Happ as (ms0 & <- & Happ).
  apply lookup_fmap_Some in Hname as (info & <- & Hname).
  destruct (qbe_models_built _ _ _ _ _ _ _ _ _ _ Hrun Happ Hname)
    as (am & Ham & <- & <- & Hbuilt).
  apply (built_relations _ _ Hbuilt) in Hr as (field & target & Hfield & _).
  by exists am, field.
Qed.


(** ** The autocomplete view *)

Lemma length_split_on sep s :
  length (split_on sep s) = S (count_char sep s).
Proof.
  induction s as [|c s IH]; simpl; [done|].
  destruct (decide (c = sep)); simpl; [by rewrite IH|].
  destruct (split_on sep s); simpl in *; [done|lia].
Qed.

Lemma autocomplete_graph_site_no_suggestion fuel dumps app_models_all
    app_models_with_no_includes admin_site current_models directed l :
  autocomplete_graph_site fuel dumps app_models_all
    app_models_with_no_includes admin_site current_models directed
  = Ok (Some l) →
  l = [].
Proof.
  unfold autocomplete_graph_site. destruct (_ <? 2); [done|].
  destruct (qbe_models _ _ _ _ _ _) as [[graphs|text]|e|];
    cbn [mbind result_bind]; [|done..].
  apply autocomplete_graph_no_suggestion.
Qed.

Lemma qbe_autocomplete_nodes_no_suggestion fuel dumps app_models_all
    app_models_with_no_includes admin_site is_ajax post v :
  qbe_autocomplete_nodes fuel dumps app_models_all app_models_with_no_includes
    admin_site is_ajax post = Ok v →
  v = None ∨ v = Some [].
Proof.
  unfold qbe_autocomplete_nodes. destruct (_ && _); [|intros [= <-]; by left].
  destruct (post !! "models") as [value|]; [|done].
  destruct v as [l|]; [|by left].
  intros ->%autocomplete_graph_site_no_suggestion. by right.
Qed.

Lemma qbe_autocomplete_nodes_one_model fuel dumps app_models_all
    app_models_with_no_includes admin_site is_ajax post value :
  post !! "models" = Some value →
  count_char (char_of ",") value = 0 →
  qbe_autocomplete_nodes fuel dumps app_models_all app_models_with_no_includes
    admin_site is_ajax post = Ok None.
Proof.
  intros Hpost Hcount. unfold qbe_autocomplete_nodes.
  destruct (_ && _); [|done]. rewrite Hpost.
  unfold autocomplete_graph_site. by rewrite length_split_on, Hcount.
Qed.


(** * Further properties of the code *)

(** ** [qbe_graph] *)

(** X1.  The edges of the graph are exactly the relations of the schema:
    an edge is stored under a key if and only if it is the edge of a
    relation that starts at that key or, in undirected mode, the reciprocal
    entry of a relation filed under it.  Nothing else gets into the graph
    and no relation is lost. *)
Theorem qbe_graph_edges_exact (models : Models) (directed : bool)
    (k : string) (e : Edge) :
  e ∈ edges_of (qbe_graph models directed) k ↔ edge_origin models directed k e.
Proof. apply qbe_graph_edges. Qed.

(** X2.  No key of the graph holds an empty edge list, in either mode: the
    key of a model whose edge list stays empty is deleted. *)
Theorem qbe_graph_no_empty_node (models : Models) (directed : bool)
    (k : string) :
  qbe_graph models directed !! k ≠ Some [].
Proof. apply qbe_graph_no_empty_list. Qed.

(** X3.  No edge list of the graph holds the same edge twice. *)
Theorem qbe_graph_no_repeated_edge (models : Models) (directed : bool)
    (k : string) :
  NoDup (edges_of (qbe_graph models directed) k).
Proof.
  unfold edges_of. destruct (qbe_graph models directed !! k) eqn:Hk; simpl.
  - by eapply qbe_graph_edges_NoDup.
  - constructor.
Qed.

(** X4.  An identifier is a node of the graph if and only if some relation
    of the schema starts at it or, in undirected mode, is filed under it
    (as target, or as through model when there is one).  A model without
    relations that no relation points at is no node. *)
Theorem qbe_graph_node_iff (models : Models) (directed : bool) (k : string) :
  k ∈ dom (qbe_graph models directed) ↔ ∃ e, edge_origin models directed k e.
Proof. apply qbe_graph_nodes. Qed.

(** X5.  When every through model has its key field named like the key
    field of the target, the undirected graph is edge-symmetric: an edge
    [(f, B, g)] under [A] has its mirror [(g, A, f)] under [B]. *)
Theorem qbe_graph_symmetric_when_fields_agree (models : Models) :
  (∀ app ms name w r, models !! app = Some ms → ms !! name = Some w →
     r ∈ model_relations w → fields_agree r) →
  symmetric (qbe_graph models false).
Proof. apply qbe_graph_symmetric. Qed.

(** X6.  In undirected mode every neighbour named by an edge is itself a
    key of the graph: the graph can be walked without a missing key. *)
Theorem qbe_graph_undirected_closed (models : Models) :
  closed_graph (qbe_graph models false).
Proof. apply qbe_graph_closed. Qed.

(** ** [qbe_tree] and [remove_leafs] *)

(** X7.  On the undirected graph of any schema, [qbe_tree] rooted at a node
    of the graph returns a tree and a flag, for every required list: no
    lookup fails, and [tree_fuel] rounds are enough. *)
Theorem qbe_tree_returns_on_qbe_graph (models : Models) (rnd : nat)
    (nodes : list string) (root : string) :
  root ∈ dom (qbe_graph models false) →
  ∃ tree all,
    qbe_tree (tree_fuel (qbe_graph models false)) rnd
      (qbe_graph models false) nodes (Some root) = Ok (tree, all).
Proof.
  intros Hroot. apply qbe_tree_returns; [apply qbe_graph_closed|done| |done].
  intros ->. by apply (qbe_graph_keys_nonempty models false).
Qed.

(** X8.  Every edge recorded in a returned tree is an edge of the graph or
    the mirror of one; on an edge-symmetric graph it is an edge of the
    graph, under the same node. *)
Theorem qbe_tree_edges_from_graph (fuel rnd : nat) (graph : Graph)
    (nodes : list string) (root : option string) (tree : Tree) (all : bool)
    (k : string) (e : Edge) :
  qbe_tree fuel rnd graph nodes root = Ok (tree, all) →
  e ∈ edges_of tree k →
  (e ∈ edges_of graph k ∨ mirror k e ∈ edges_of graph (edge_node e))
  ∧ (symmetric graph → e ∈ edges_of graph k).
Proof.
  intros Hrun He. split.
  - by eapply qbe_tree_from_graph.
  - intros Hsym. by eapply qbe_tree_within_graph.
Qed.

(** X9.  The returned tree is symmetric and closed in itself: an edge
    [(f, B, g)] under [A] comes with [B] as a node of the tree holding
    [(g, A, f)], also after the leaves were pruned; and no node is its own
    neighbour. *)
Theorem qbe_tree_symmetric (fuel rnd : nat) (graph : Graph)
    (nodes : list string) (root : option string) (tree : Tree) (all : bool)
    (k : string) (e : Edge) :
  qbe_tree fuel rnd graph nodes root = Ok (tree, all) →
  e ∈ edges_of tree k →
  mirror k e ∈ edges_of tree (edge_node e)
  ∧ edge_node e ∈ dom tree
  ∧ edge_node e ≠ k.
Proof.
  intros (Hsym & Hloop & _)%qbe_tree_tidy He.
  split_and!; [by apply Hsym| |by apply Hloop].
  eapply elem_of_edges_of_dom. by apply Hsym.
Qed.

(** X10.  When the flag says that all required nodes were reached, every
    required node is a key of the graph and can be reached from the start
    node along edges of the graph. *)
Theorem qbe_tree_all_reached_reachable (fuel rnd : nat) (graph : Graph)
    (nodes : list string) (root : option string) (tree : Tree) :
  qbe_tree fuel rnd graph nodes root = Ok (tree, true) →
  ∃ start, choose_start rnd nodes root = Ok start
    ∧ ∀ n, n ∈ nodes → n ∈ dom graph ∧ rtc (graph_step graph) start n.
Proof. apply qbe_tree_all_reached. Qed.

(** X11.  Pruning is stable: [remove_leafs] applied to a tree it returned,
    with the same required list, returns that tree unchanged, with any
    fuel. *)
Theorem remove_leafs_idempotent (fuel fuel' : nat) (tree tree' : Tree)
    (nodes : list string) :
  remove_leafs fuel tree nodes = Ok tree' →
  remove_leafs fuel' tree' nodes = Ok tree'.
Proof. apply remove_leafs_stable. Qed.

(** ** [qbe_forest] *)

(** X12.  On the undirected graph of any schema [qbe_forest] returns a
    forest for every required list: no extraction raises or runs out of
    fuel. *)
Theorem qbe_forest_returns_on_qbe_graph (models : Models)
    (rnd : string → nat) (nodes : list string) :
  ∃ forest,
    qbe_forest (tree_fuel (qbe_graph models false)) rnd
      (qbe_graph models false) nodes = Ok forest.
Proof. by apply qbe_forest_qbe_graph_returns. Qed.

(** X13.  A forest has at most as many trees as the graph has nodes. *)
Theorem qbe_forest_size (fuel : nat) (rnd : string → nat) (graph : Graph)
    (nodes : list string) (forest : list Tree) :
  qbe_forest fuel rnd graph nodes = Ok forest → length forest ≤ size graph.
Proof. apply qbe_forest_length. Qed.

(** X14.  With an empty required list the forest of a graph without the
    empty key is the one empty tree, and the empty forest when the graph
    is empty; no fuel is needed. *)
Theorem qbe_forest_empty_required (fuel : nat) (rnd : string → nat)
    (graph : Graph) :
  "" ∉ dom graph →
  qbe_forest fuel rnd graph [] = Ok (if decide (graph = ∅) then [] else [∅]).
Proof. apply qbe_forest_no_required. Qed.

(** ** [find_all_paths] *)

(** X15.  [find_all_paths] is exhaustive and exact: when it returns, the
    list holds a path if and only if the path is a walk from [a] to [b]
    along fields of the graph that stops the first time it is at [b] and
    goes through no node twice. *)
Theorem find_all_paths_exact (fuel : nat) (graph : PathGraph) (a b : string)
    (paths : list (list string)) (p : list string) :
  find_all_paths fuel graph a b [] = Ok paths →
  p ∈ paths ↔ walk graph b a p ∧ NoDup p.
Proof. apply find_all_paths_simple_paths. Qed.

(** ** [autocomplete_graph] *)

(** X16.  [autocomplete_graph] never suggests anything: whenever it returns
    a list, the list is empty, for every schema, selection and mode. *)
Theorem autocomplete_graph_never_suggests (fuel : nat) (models : Models)
    (current_models : list string) (directed : bool)
    (l : list (list string)) :
  autocomplete_graph fuel models current_models directed = Ok (Some l) →
  l = [].
Proof. apply autocomplete_graph_no_suggestion. Qed.

(** X17.  For a selection of two or more entities without repeats the
    outcome is decided by the graph alone: the call raises
    [AttributeError] when one of the selected entities other than the last
    is a node of the graph, and returns the empty list otherwise. *)
Theorem autocomplete_graph_outcome (fuel : nat) (models : Models)
    (current_models : list string) (directed : bool) :
  NoDup current_models → 2 ≤ length current_models →
  autocomplete_graph (S fuel) models current_models directed
  = if decide (Exists (λ c, c ∈ dom (qbe_graph models directed))
                 (removelast current_models))
    then Raise AttributeError else Ok (Some []).
Proof. apply autocomplete_graph_distinct. Qed.

(** X18.  A selection that names the same entity two or more times, and
    nothing else, raises [ValueError]: the single path [[a]] is kept and
    [a] is removed from it once per selected entry. *)
Theorem autocomplete_graph_same_entity (fuel : nat) (models : Models)
    (directed : bool) (a : string) (n : nat) :
  autocomplete_graph (S fuel) models (replicate (S (S n)) a) directed
  = Raise ValueError.
Proof. apply autocomplete_graph_repeated. Qed.


(** ** [qbe_models] *)


(** X20.  Every model in the dictionary [qbe_models] returns was built
    from one of the model classes it went through, is filed under the
    title-cased app label and the name of that class, and carries exactly
    the relations of the relation fields of that class: the foreign keys
    and one-to-one fields among its fields, the many-to-many fields and
    generic relations among its many-to-many fields. *)
Theorem qbe_models_models (dumps : Graphs → string)
    (app_models_all app_models_with_no_includes : list DjangoModel)
    (admin_site : option (list DjangoModel)) (only_admin_models : bool)
    (graphs : Graphs) (t n : string) (ms : gmap string ModelInfo)
    (info : ModelInfo) :
  qbe_models dumps app_models_all app_models_with_no_includes admin_site
    only_admin_models false = Ok (AsDict graphs) →
  graphs !! t = Some ms → ms !! n = Some info →
  ∃ app_model,
    app_model ∈ chosen_models app_models_all admin_site only_admin_models
    ∧ title (cls_app_label app_model) = t
    ∧ cls_name app_model = n
    ∧ info_name info = n
    ∧ ∀ r, r ∈ info_relations info ↔
        ∃ field target, relation_field app_model field
          ∧ get_target_relation field "" = Ok (target, r).
Proof.
  intros Hrun Ht Hn.
  destruct (qbe_models_built _ _ _ _ _ _ _ _ _ _ Hrun Ht Hn)
    as (am & Ham & <- & <- & Hbuilt).
  exists am. split_and!; [done..|apply Hbuilt|apply Hbuilt].
Qed.

(** X21.  In every model [qbe_models] returns, no relation is listed twice
    and the source of every relation is a key of the model's fields. *)
Theorem qbe_models_relations (dumps : Graphs → string)
    (app_models_all app_models_with_no_includes : list DjangoModel)
    (admin_site : option (list DjangoModel)) (only_admin_models : bool)
    (graphs : Graphs) (t n : string) (ms : gmap string ModelInfo)
    (info : ModelInfo) :
  qbe_models dumps app_models_all app_models_with_no_includes admin_site
    only_admin_models false = Ok (AsDict graphs) →
  graphs !! t = Some ms → ms !! n = Some info →
  NoDup (info_relations info)
  ∧ ∀ r, r ∈ info_relations info →
      is_Some (info_fields info !! relation_source r).
Proof.
  intros Hrun Ht Hn.
  destruct (qbe_models_built _ _ _ _ _ _ _ _ _ _ Hrun Ht Hn)
    as (am & _ & _ & _ & Hbuilt).
  split; apply Hbuilt.
Qed.

(** X22.  Every model class [qbe_models] goes through is filed: the
    dictionary has an entry under its title-cased app label and its class
    name. *)
Theorem qbe_models_files_all (dumps : Graphs → string)
    (app_models_all app_models_with_no_includes : list DjangoModel)
    (admin_site : option (list DjangoModel)) (only_admin_models : bool)
    (graphs : Graphs) (app_model : DjangoModel) :
  qbe_models dumps app_models_all app_models_with_no_includes admin_site
    only_admin_models false = Ok (AsDict graphs) →
  app_model ∈ chosen_models app_models_all admin_site only_admin_models →
  ∃ ms info,
    graphs !! title (cls_app_label app_model) = Some ms
    ∧ ms !! cls_name app_model = Some info.
Proof.
  intros Hrun%qbe_models_filed Ham. by apply (filed_all _ _ _ _ Hrun).
Qed.

(** X23.  A node of the directed graph of a site is the identifier
    [Title.Name] of a model class that has a relation field. *)
Theorem qbe_graph_site_directed_nodes (dumps : Graphs → string)
    (app_models_all app_models_with_no_includes : list DjangoModel)
    (admin_site : option (list DjangoModel)) (graph : Graph) (k : string) :
  qbe_graph_site dumps app_models_all app_models_with_no_includes admin_site
    true = Ok graph →
  k ∈ dom graph →
  ∃ app_model field,
    app_model ∈ app_models_all ∧ relation_field app_model field
    ∧ k = dotted (title (cls_app_label app_model)) (cls_name app_model).
Proof. apply qbe_graph_site_nodes. Qed.

(** ** [views.qbe_autocomplete] *)

(** X24.  Whatever is posted, the value the autocomplete view serializes
    is never a suggestion: when the view gets to a value, it is [None] or
    the empty list. *)
Theorem qbe_autocomplete_never_suggests (fuel : nat)
    (dumps : Graphs → string)
    (app_models_all app_models_with_no_includes : list DjangoModel)
    (admin_site : option (list DjangoModel)) (is_ajax : bool)
    (post : gmap string string) (v : option (list (list string))) :
  qbe_autocomplete_nodes fuel dumps app_models_all app_models_with_no_includes
    admin_site is_ajax post = Ok v →
  v = None ∨ v = Some [].
Proof. apply qbe_autocomplete_nodes_no_suggestion. Qed.

(** X25.  A posted [models] value without a comma splits into one name,
    and the view answers [None] without building the graph. *)
Theorem qbe_autocomplete_one_model (fuel : nat) (dumps : Graphs → string)
    (app_models_all app_models_with_no_includes : list DjangoModel)
    (admin_site : option (list DjangoModel)) (is_ajax : bool)
    (post : gmap string string) (value : string) :
  post !! "models" = Some value →
  count_char (char_of ",") value = 0 →
  qbe_autocomplete_nodes fuel dumps app_models_all app_models_with_no_includes
    admin_site is_ajax post = Ok None.
Proof. apply qbe_autocomplete_nodes_one_model. Qed.


(** ** Two more bounds *)

(** X26.  A path returned by [find_all_paths] has at most one node more
    than the graph has keys. *)
Theorem find_all_paths_path_length (fuel : nat) (graph : PathGraph)
    (a b : string) (paths : list (list string)) (p : list string) :
  find_all_paths fuel graph a b [] = Ok paths → p ∈ paths →
  length p ≤ S (size graph).
Proof. apply find_all_paths_length. Qed.

(** X27.  The directed graph of a schema is part of its undirected graph:
    every edge built in directed mode is there, under the same key, in
    undirected mode. *)
Theorem qbe_graph_directed_in_undirected (models : Models) (k : string)
    (e : Edge) :
  e ∈ edges_of (qbe_graph models true) k →
  e ∈ edges_of (qbe_graph models false) k.
Proof. apply qbe_graph_directed_within. Qed.


(** ** The further properties on the sample schemas *)

Lemma qbe_graph_symmetric_when_fields_agree_witness :
  symmetric (qbe_graph campus false).
Proof.
  apply qbe_graph_symmetric_when_fields_agree.
  intros app ms name w r Happ Hname Hr. unfold campus in Happ.
  apply lookup_singleton_Some in Happ as [<- <-].
  apply lookup_insert_Some in Hname as [[<- <-]|[_ Hname]].
  - apply list_elem_of_singleton in Hr as ->. reflexivity.
  - apply lookup_singleton_Some in Hname as [<- <-].
    by apply elem_of_nil in Hr.
Defined.

Lemma qbe_tree_returns_on_qbe_graph_witness :
  ∃ tree all,
    qbe_tree (tree_fuel (qbe_graph shop false)) 0 (qbe_graph shop false)
      ["Shop.Customer"; "Shop.Product"] (Some "Shop.Order") = Ok (tree, all).
Proof.
  apply qbe_tree_returns_on_qbe_graph. compute_done.
Defined.

Lemma qbe_tree_edges_from_graph_witness :
  (("da", "A", "ad") ∈ edges_of ring "D"
   ∨ mirror "D" ("da", "A", "ad") ∈ edges_of ring "A")
  ∧ (symmetric ring → ("da", "A", "ad") ∈ edges_of ring "D").
Proof.
  apply (qbe_tree_edges_from_graph 13 0 ring ["A"; "C"] (Some "A")
           ring_tree true "D" ("da", "A", "ad")).
  - vm_compute. reflexivity.
  - left.
Defined.

Lemma qbe_tree_symmetric_witness :
  mirror "D" ("da", "A", "ad") ∈ edges_of ring_tree "A"
  ∧ "A" ∈ dom ring_tree
  ∧ "A" ≠ "D".
Proof.
  apply (qbe_tree_symmetric 13 0 ring ["A"; "C"] (Some "A")
           ring_tree true "D" ("da", "A", "ad")).
  - vm_compute. reflexivity.
  - left.
Defined.

Lemma qbe_tree_all_reached_reachable_witness :
  ∃ start, choose_start 0 ["A"; "C"] (Some "A") = Ok start
    ∧ ∀ n, n ∈ ["A"; "C"] → n ∈ dom ring ∧ rtc (graph_step ring) start n.
Proof.
  apply (qbe_tree_all_reached_reachable 13 0 ring ["A"; "C"] (Some "A")
           ring_tree).
  vm_compute. reflexivity.
Defined.

Lemma remove_leafs_idempotent_witness :
  remove_leafs 0 ring_tree ["A"; "C"] = Ok ring_tree.
Proof.
  apply (remove_leafs_idempotent 3 0 ring_tree ring_tree ["A"; "C"]).
  vm_compute. reflexivity.
Defined.

Lemma qbe_forest_size_witness :
  ∃ forest, qbe_forest 13 (λ _, 0) ring ["A"; "C"] = Ok forest
    ∧ length forest ≤ size ring.
Proof.
  destruct (qbe_forest 13 (λ _, 0) ring ["A"; "C"]) as [forest| |] eqn:Hrun;
    [|by vm_compute in Hrun..].
  exists forest. split; [done|].
  exact (qbe_forest_size 13 (λ _, 0) ring ["A"; "C"] forest Hrun).
Defined.

Lemma qbe_forest_empty_required_witness :
  qbe_forest 0 (λ _, 0) ring [] = Ok (if decide (ring = ∅) then [] else [∅]).
Proof.
  apply qbe_forest_empty_required. compute_done.
Defined.

Lemma find_all_paths_exact_witness :
  ["A"; "B"; "C"] ∈ [["A"; "B"; "C"]; ["A"; "D"; "C"]]
  ↔ walk ring_paths "C" "A" ["A"; "B"; "C"] ∧ NoDup ["A"; "B"; "C"].
Proof.
  apply (find_all_paths_exact 5 ring_paths "A" "C").
  vm_compute. reflexivity.
Defined.

Lemma autocomplete_graph_never_suggests_witness :
  autocomplete_graph 5 shop ["Shop.Invoice"; "Shop.Refund"] false
    = Ok (Some [])
  ∧ ([] : list (list string)) = [].
Proof.
  split; [vm_compute; reflexivity|].
  apply (autocomplete_graph_never_suggests 5 shop
           ["Shop.Invoice"; "Shop.Refund"] false).
  vm_compute. reflexivity.
Defined.

Lemma autocomplete_graph_outcome_witness :
  autocomplete_graph 1 shop ["Shop.Customer"; "Shop.Invoice"] false
  = if decide (Exists (λ c, c ∈ dom (qbe_graph shop false))
                 (removelast ["Shop.Customer"; "Shop.Invoice"]))
    then Raise AttributeError else Ok (Some []).
Proof.
  apply autocomplete_graph_outcome.
  - compute_done.
  - simpl. lia.
Defined.


Example shop_graphs_built :
  qbe_models no_dumps [order_class; customer_class]
    [order_class; customer_class] None false false = Ok (AsDict shop_graphs).
Proof. vm_compute. reflexivity. Qed.


Lemma qbe_models_models_witness :
  ∃ app_model,
    app_model ∈ chosen_models [order_class; customer_class] None false
    ∧ title (cls_app_label app_model) = "Shop"
    ∧ cls_name app_model = "Order"
    ∧ info_name order_info = "Order"
    ∧ ∀ r, r ∈ info_relations order_info ↔
        ∃ field target, relation_field app_model field
          ∧ get_target_relation field "" = Ok (target, r).
Proof.
  apply (qbe_models_models no_dumps [order_class; customer_class]
           [order_class; customer_class] None false shop_graphs "Shop" "Order"
           {[ "Order" := order_info; "Customer" := customer_info ]}).
  - exact shop_graphs_built.
  - reflexivity.
  - reflexivity.
Defined.

Lemma qbe_models_relations_witness :
  NoDup (info_relations order_info)
  ∧ ∀ r, r ∈ info_relations order_info →
      is_Some (info_fields order_info !! relation_source r).
Proof.
  apply (qbe_models_relations no_dumps [order_class; customer_class]
           [order_class; customer_class] None false shop_graphs "Shop" "Order"
           {[ "Order" := order_info; "Customer" := customer_info ]}).
  - exact shop_graphs_built.
  - reflexivity.
  - reflexivity.
Defined.

Lemma qbe_models_files_all_witness :
  ∃ ms info,
    shop_graphs !! title (cls_app_label customer_class) = Some ms
    ∧ ms !! cls_name customer_class = Some info.
Proof.
  apply (qbe_models_files_all no_dumps [order_class; customer_class]
           [order_class; customer_class] None false).
  - exact shop_graphs_built.
  - right. left.
Defined.

Lemma qbe_graph_site_directed_nodes_witness :
  ∃ app_model field,
    app_model ∈ [order_class; customer_class]
    ∧ relation_field app_model field
    ∧ "Shop.Order"
      = dotted (title (cls_app_label app_model)) (cls_name app_model).
Proof.
  apply (qbe_graph_site_directed_nodes no_dumps [order_class; customer_class]
           [order_class; customer_class] None
           {[ "Shop.Order" := [("customer", "Shop.Customer", "id")] ]}).
  - vm_compute. reflexivity.
  - compute_done.
Defined.

Lemma qbe_autocomplete_never_suggests_witness :
  Some ([] : list (list string)) = None
  ∨ Some ([] : list (list string)) = Some [].
Proof.
  apply (qbe_autocomplete_never_suggests 5 no_dumps
           [order_class; customer_class] [order_class; customer_class] None
           true {[ "models" := "Shop.Invoice,Shop.Refund" ]}).
  vm_compute. reflexivity.
Defined.

Lemma qbe_autocomplete_one_model_witness :
  qbe_autocomplete_nodes 0 no_dumps [order_class; customer_class]
    [order_class; customer_class] None true {[ "models" := "Shop.Order" ]}
  = Ok None.
Proof.
  apply (qbe_autocomplete_one_model 0 no_dumps [order_class; customer_class]
           [order_class; customer_class] None true _ "Shop.Order");
    reflexivity.
Defined.


Lemma find_all_paths_path_length_witness :
  length ["A"; "B"; "C"] ≤ S (size ring_paths).
Proof.
  apply (find_all_paths_path_length 5 ring_paths "A" "C"
           [["A"; "B"; "C"]; ["A"; "D"; "C"]]).
  - vm_compute. reflexivity.
  - left.
Defined.

Lemma qbe_graph_directed_in_undirected_witness :
  ("customer", "Crm.Customer", "id")
    ∈ edges_of (qbe_graph orphan false) "Shop.Order".
Proof.
  apply qbe_graph_directed_in_undirected. vm_compute. left.
Defined.
